(** * ModLog: Kripke models, modal formulas, their repository and parser

    A shallow embedding of [data.py], [parser.py] and [to_graph] of
    [tree.py].

    - Worlds and variable names are Python strings; they are modelled as
      [string] (byte strings, UTF-8 for the non-ASCII operator symbols).
    - [set] is stdpp's [gset string]; [defaultdict(set)] is a
      [gmap string (gset string)] whose read stores an empty set under a
      missing key, as Python's [__getitem__] does.
    - Methods of [Kripke] and [calc] mutate the model (the blind-world cache,
      the keys of the two dictionaries); they are written in state-passing
      style, returning the result together with the model they leave.
    - Expression nodes are immutable. [calc] and the parser work on the tree a
      node denotes; the module-level table [instances], which makes equal
      trees one object, is modelled in [Repository] with explicit object
      identities, and the two views are related at the end of the file.
    - The grammar of [parser.py] is written with the combinators of
      [pyparsing]; those it uses are modelled as functions on the text that
      is left to read. *)

From Stdlib Require Import Ascii.
From stdpp Require Import gmap strings list sorting pretty.

Open Scope string_scope.
Open Scope list_scope.

(** ** The Kripke model ([class Kripke]) *)

Abbreviation worlds := (gset string).
Abbreviation defaultdict := (gmap string (gset string)).

(** [d[k]] on a [defaultdict(set)]: the stored set, or a fresh empty set that
    is stored under [k] before it is returned. *)
Definition dd_get (k : string) (d : defaultdict) : worlds * defaultdict :=
  match d !! k with
  | Some s => (s, d)
  | None => (∅, <[k := ∅]> d)
  end.

Record Kripke := mkKripke {
  V : defaultdict;               (* dict { var -> set(worlds) } *)
  W : worlds;                    (* set of world (strings) *)
  R : defaultdict;               (* dict { world -> set(worlds) } *)
  cached_blind_worlds : option worlds   (* self._cached_blind_worlds *)
}.

(** [Kripke()] *)
Definition Kripke_init : Kripke :=
  {| V := ∅; W := ∅; R := ∅; cached_blind_worlds := None |}.

Definition set_V (d : defaultdict) (k : Kripke) : Kripke :=
  {| V := d; W := W k; R := R k; cached_blind_worlds := cached_blind_worlds k |}.
Definition set_W (ws : worlds) (k : Kripke) : Kripke :=
  {| V := V k; W := ws; R := R k; cached_blind_worlds := cached_blind_worlds k |}.
Definition set_R (d : defaultdict) (k : Kripke) : Kripke :=
  {| V := V k; W := W k; R := d; cached_blind_worlds := cached_blind_worlds k |}.
Definition set_cache (c : option worlds) (k : Kripke) : Kripke :=
  {| V := V k; W := W k; R := R k; cached_blind_worlds := c |}.

(** [kripke.V[name]] and [kripke.R[w]] as steps on the model. *)
Definition V_get (name : string) (k : Kripke) : worlds * Kripke :=
  let '(s, d) := dd_get name (V k) in (s, set_V d k).
Definition R_get (w : string) (k : Kripke) : worlds * Kripke :=
  let '(s, d) := dd_get w (R k) in (s, set_R d k).

(** [set(w for w in self.W if cond(self.R[w]))]: the comprehension walks the
    world set, reads [R[w]] once per world and keeps the worlds that pass. *)
Definition comprehension_step (cond : worlds → bool)
    (st : worlds * Kripke) (w : string) : worlds * Kripke :=
  let '(succ, k') := R_get w st.2 in
  (if cond succ then {[ w ]} ∪ st.1 else st.1, k').

Definition comprehension (cond : worlds → bool) (k : Kripke) : worlds * Kripke :=
  foldl (comprehension_step cond) (∅, k) (elements (W k)).

(** [not s] for a set [s]. *)
Definition is_empty (s : worlds) : bool := bool_decide (s = ∅).
(** [all(v in internal for v in succ)] and [any(v in internal for v in succ)]. *)
Definition all_in (internal succ : worlds) : bool :=
  forallb (λ v, bool_decide (v ∈ internal)) (elements succ).
Definition any_in (internal succ : worlds) : bool :=
  existsb (λ v, bool_decide (v ∈ internal)) (elements succ).

(** [Kripke.blind_worlds] *)
Definition blind_worlds (k : Kripke) : worlds * Kripke :=
  match cached_blind_worlds k with
  | Some c => (c, k)
  | None =>
      let '(b, k') := comprehension is_empty k in
      (b, set_cache (Some b) k')
  end.

(** [self.V[var].update(ws)], [self.V[var].add(w)], ... *)
Definition add_vals (var : string) (ws : list string) (k : Kripke) : Kripke :=
  let '(s, d) := dd_get var (V k) in set_V (<[var := s ∪ list_to_set ws]> d) k.
Definition add_val (var w : string) (k : Kripke) : Kripke :=
  let '(s, d) := dd_get var (V k) in set_V (<[var := s ∪ {[ w ]}]> d) k.
Definition add_worlds (ws : list string) (k : Kripke) : Kripke :=
  set_W (W k ∪ list_to_set ws) k.
Definition add_world (w : string) (k : Kripke) : Kripke :=
  set_W (W k ∪ {[ w ]}) k.
Definition add_trans (t : string * string) (k : Kripke) : Kripke :=
  let '(s, d) := dd_get t.1 (R k) in set_R (<[t.1 := s ∪ {[ t.2 ]}]> d) k.
Definition add_transes (ts : list (string * string)) (k : Kripke) : Kripke :=
  foldl (λ k t, add_trans t k) k ts.

(** ** Expressions ([class LogicExpression] and its subclasses) *)

Inductive LogicExpression :=
  | And (l r : LogicExpression)
  | Or (l r : LogicExpression)
  | Implies (l r : LogicExpression)
  | Not (e : LogicExpression)
  | Box (e : LogicExpression)
  | Diamond (e : LogicExpression)
  | Var (n : string)
  | Constant (value : bool).

(** The [class_name] attribute of each subclass. *)
Definition class_name (e : LogicExpression) : string :=
  match e with
  | And _ _ => "and"
  | Or _ _ => "or"
  | Implies _ _ => "implies"
  | Not _ => "not"
  | Box _ => "box"
  | Diamond _ => "box"
  | Var _ => "var"
  | Constant _ => "const"
  end.

(** [LogicExpression.same_type] *)
Definition same_type (self other : LogicExpression) : bool :=
  bool_decide (class_name self = class_name other).

(** [calc], one case per subclass; sub-expressions are evaluated in the order
    the Python code evaluates them, and the model is threaded through. *)
Fixpoint calc (e : LogicExpression) (k : Kripke) : worlds * Kripke :=
  match e with
  | And l r =>
      let '(lhs, k1) := calc l k in
      let '(rhs, k2) := calc r k1 in
      (lhs ∩ rhs, k2)
  | Or l r =>
      let '(lhs, k1) := calc l k in
      let '(rhs, k2) := calc r k1 in
      (lhs ∪ rhs, k2)
  | Implies l r =>
      let '(lhs, k1) := calc l k in
      let res := W k1 ∖ lhs in
      if is_empty lhs then (res, k1)
      else
        let '(rhs, k2) := calc r k1 in
        (res ∪ (lhs ∩ rhs), k2)
  | Not e =>
      let '(inner, k1) := calc e k in
      (W k1 ∖ inner, k1)
  | Box e =>
      let '(internal, k1) := calc e k in
      let '(actual, k2) := comprehension (all_in internal) k1 in
      let '(blind, k3) := blind_worlds k2 in
      (actual ∪ blind, k3)
  | Diamond e =>
      let '(internal, k1) := calc e k in
      comprehension (any_in internal) k1
  | Var name => V_get name k
  | Constant value => (if value then W k else ∅, k)
  end.

(** [sorted(s)] for a set of strings: the elements in ascending order. *)
Definition sorted (s : worlds) : list string := merge_sort String.le (elements s).

(** [Kripke.entails]: [sorted(self.W) == sorted(expression.calc(self))] *)
Definition entails (k : Kripke) (expression : LogicExpression) : bool * Kripke :=
  let ws := sorted (W k) in
  let '(res, k') := calc expression k in
  (bool_decide (ws = sorted res), k').

(** ** What a read observes

    [d[k]] on a [defaultdict] may add the key [k], but the value read under
    any key stays the same; [V_at] and [R_at] are these observable values. *)

Definition dd_at (d : defaultdict) (k : string) : worlds := default ∅ (d !! k).
Definition V_at (k : Kripke) (p : string) : worlds := dd_at (V k) p.
Definition R_at (k : Kripke) (w : string) : worlds := dd_at (R k) w.

(** The blind worlds of the current state: declared worlds with no successor. *)
Definition blind (k : Kripke) : worlds := filter (λ w, R_at k w = ∅) (W k).

(** The set a call of [blind_worlds] answers with. *)
Definition cache_or_blind (k : Kripke) : worlds :=
  default (blind k) (cached_blind_worlds k).

(** Two models that no read can tell apart. *)
Record same_view (k k' : Kripke) : Prop := {
  sv_W : W k' = W k;
  sv_V : ∀ p, V_at k' p = V_at k p;
  sv_R : ∀ w, R_at k' w = R_at k w;
  sv_blind : cache_or_blind k' = cache_or_blind k
}.

(** The set [calc] computes, read off the model at entry. *)
Fixpoint holds_in (k : Kripke) (e : LogicExpression) : worlds :=
  match e with
  | And l r => holds_in k l ∩ holds_in k r
  | Or l r => holds_in k l ∪ holds_in k r
  | Implies l r => (W k ∖ holds_in k l) ∪ (holds_in k l ∩ holds_in k r)
  | Not e => W k ∖ holds_in k e
  | Box e => filter (λ w, R_at k w ⊆ holds_in k e) (W k) ∪ cache_or_blind k
  | Diamond e => filter (λ w, R_at k w ∩ holds_in k e ≠ ∅) (W k)
  | Var name => V_at k name
  | Constant value => if value then W k else ∅
  end.

(** ** Models used as concrete inputs *)

(** Scenario 1 of the documentation: two worlds, one edge, [p] true in [w2]. *)
Definition M1 : Kripke :=
  add_vals "p" ["w2"] (add_transes [("w1","w2")] (add_worlds ["w1";"w2"] Kripke_init)).

(** A model queried for its blind worlds and extended afterwards:
    [k = Kripke(); k.add_world('w'); k.blind_worlds(); k.add_trans(('w','w'))]. *)
Definition stale_model : Kripke :=
  add_trans ("w", "w") (blind_worlds (add_world "w" Kripke_init)).2.

(** Scenario 1 after its blind worlds have been asked for. *)
Definition M1_queried : Kripke := (blind_worlds M1).2.

(** Scenario 2 of the documentation: one world, no edge, no valuation. *)
Definition M2 : Kripke := add_world "w1" Kripke_init.

(** A valuation that names a world which was never declared. *)
Definition undeclared_val_model : Kripke := add_val "q" "u" Kripke_init.

(** One declared world, with and without an edge into an undeclared world. *)
Definition lone_world_model : Kripke := add_world "w" Kripke_init.
Definition dangling_edge_model : Kripke := add_trans ("w", "u") lone_world_model.

(** One declared world, and a valuation that holds there and in an undeclared
    world. *)
Definition extra_world_model : Kripke :=
  add_vals "q" ["w"; "u"] (add_world "w" Kripke_init).

(** ** Well-formedness conditions on a model *)

(** Every valuation set contains declared worlds only. *)
Definition valuation_declared (k : Kripke) : Prop :=
  map_Forall (λ _ s, s ⊆ W k) (V k).

(** The cached blind set, if one is stored, contains declared worlds only. *)
Definition cache_declared (k : Kripke) : Prop :=
  from_option (λ c, c ⊆ W k) True (cached_blind_worlds k).

(** The cached blind set, if one is stored, contains only worlds that are
    blind in the current state. *)
Definition cache_sound (k : Kripke) : Prop :=
  from_option (λ c, c ⊆ blind k) True (cached_blind_worlds k).

(** The mutators of [Kripke]. *)
Inductive mutation :=
  | AddVals (var : string) (ws : list string)
  | AddVal (var w : string)
  | AddWorlds (ws : list string)
  | AddWorld (w : string)
  | AddTranses (ts : list (string * string))
  | AddTrans (t : string * string).

Definition mutate (k : Kripke) (m : mutation) : Kripke :=
  match m with
  | AddVals var ws => add_vals var ws k
  | AddVal var w => add_val var w k
  | AddWorlds ws => add_worlds ws k
  | AddWorld w => add_world w k
  | AddTranses ts => add_transes ts k
  | AddTrans t => add_trans t k
  end.

(** The two readings of the modal operators the documentation gives. *)
Definition box_exact (k : Kripke) (e : LogicExpression) : Prop :=
  ∀ w, w ∈ (calc (Box e) k).1 ↔
       w ∈ W k ∧ ∀ v, v ∈ R_at k w → v ∈ (calc e k).1.
Definition diamond_exact (k : Kripke) (e : LogicExpression) : Prop :=
  ∀ w, w ∈ (calc (Diamond e) k).1 ↔
       w ∈ W k ∧ ∃ v, v ∈ R_at k w ∧ v ∈ (calc e k).1.

#[global] Instance valuation_declared_dec k : Decision (valuation_declared k).
Proof. unfold valuation_declared. apply _. Defined.
#[global] Instance cache_declared_dec k : Decision (cache_declared k).
Proof. unfold cache_declared. destruct (cached_blind_worlds k); simpl; apply _. Defined.
#[global] Instance cache_sound_dec k : Decision (cache_sound k).
Proof. unfold cache_sound. destruct (cached_blind_worlds k); simpl; apply _. Defined.

(** ** Operator tables ([data.py], module level) *)

(** The subclasses of [LogicExpression], as class objects. *)
Inductive class :=
  | class_And | class_Or | class_Implies
  | class_Not | class_Box | class_Diamond
  | class_Var | class_Constant.

#[global] Instance class_eq_dec : EqDecision class.
Proof. solve_decision. Defined.

(** The [symbols] attribute; [Var] inherits the empty list of the base class. *)
Definition symbols (c : class) : list string :=
  match c with
  | class_And => ["and"; "&&"; "&"; "^"; "/\"; "∧"; "*"]
  | class_Or => ["or"; "||"; "|"; "v"; "\/"; "∨"; "+"]
  | class_Implies => ["implies"; "->"; "=>"; "→"]
  | class_Not => ["not"; "~"; "¬"; "!"]
  | class_Box => ["☐"; "box"]
  | class_Diamond => ["◇"; "diamond"]
  | class_Var => []
  | class_Constant => ["true"; "1"; "false"; "0"]
  end.

(** [Constant.true_symbols] and [Constant.false_symbols]. *)
Definition true_symbols : list string := ["True"; "true"; "1"; "⊤"].
Definition false_symbols : list string := ["False"; "false"; "0"; "⊥"].

Definition infix_classes : list class := [class_And; class_Or; class_Implies].
Definition prefix_classes : list class := [class_Not; class_Box; class_Diamond].

(** [operator_class.update((s, c) for s in c.symbols)] *)
Definition update_symbols (m : gmap string class) (c : class) : gmap string class :=
  foldl (λ m s, <[s := c]> m) m (symbols c).

(** The two initialisation loops of the module. *)
Definition operator_class : gmap string class :=
  foldl update_symbols (foldl update_symbols ∅ infix_classes) prefix_classes.
Definition infix_operators : list string :=
  foldl (λ l c, l ++ symbols c) [] infix_classes.
Definition prefix_operators : list string :=
  foldl (λ l c, l ++ symbols c) [] prefix_classes.

(** ** Exceptions *)

Inductive exception :=
  | KeyError | TypeError | IndexError | AssertionError | AttributeError
  | ParseException
  | OutOfFuel.   (* not a Python exception: the recursion bound of the model *)

Inductive result (A : Type) :=
  | Ok (a : A)
  | Raise (e : exception).
Arguments Ok {A} a.
Arguments Raise {A} e.

Definition bind {A B} (r : result A) (f : A → result B) : result B :=
  match r with
  | Ok a => f a
  | Raise e => Raise e
  end.

(** ** Strings *)

(** [str.lower], on the ASCII letters. *)
Definition lower_char (c : ascii) : ascii :=
  let n := Ascii.N_of_ascii c in
  if ((65 <=? n) && (n <=? 90))%N then Ascii.ascii_of_N (n + 32) else c.

Fixpoint lower (s : string) : string :=
  match s with
  | EmptyString => EmptyString
  | String c s' => String (lower_char c) (lower s')
  end.

(** ** The factory, on node structure

    A node is identified here with the tree it denotes: nodes are immutable,
    and the interning table (module [Repository] below) only decides which
    object stands for a tree, so the parser and [calc] see the tree alone. *)

(** What the parser hands around: a node, or a piece of text (an operator
    symbol or a name). The constructors of the classes check nothing, so the
    factory also builds nodes over operands that are not nodes
    ([create_expression('&', 'a', 'b')] is [And('a', 'b')]); such an object
    is no expression tree and is kept as the class and the operands it was
    built from. *)
#[warnings="-register-all"]
Inductive token :=
  | TExpr (e : LogicExpression)
  | TStr (s : string)
  | TObject (c : class) (kwargs : list token).

(** The constructor call on the unpacked [kwargs], for the operator classes;
    a wrong number of arguments is Python's [TypeError]. *)
Definition construct (constructor : class) (kwargs : list token)
    : result token :=
  match constructor, kwargs with
  | class_And, [TExpr l; TExpr r] => Ok (TExpr (And l r))
  | class_Or, [TExpr l; TExpr r] => Ok (TExpr (Or l r))
  | class_Implies, [TExpr l; TExpr r] => Ok (TExpr (Implies l r))
  | class_Not, [TExpr e] => Ok (TExpr (Not e))
  | class_Box, [TExpr e] => Ok (TExpr (Box e))
  | class_Diamond, [TExpr e] => Ok (TExpr (Diamond e))
  | (class_And | class_Or | class_Implies), [_; _] =>
      Ok (TObject constructor kwargs)
  | (class_Not | class_Box | class_Diamond), [_] =>
      Ok (TObject constructor kwargs)
  | _, _ => Raise TypeError
  end.

(** [create_var_const] *)
Definition create_var_const (name : string) : LogicExpression :=
  if bool_decide (lower name ∈ symbols class_Constant)
  then Constant (bool_decide (lower name ∈ true_symbols))
  else Var name.

(** [create_expression]. For ['var'], ['const'] and ['varconst'] the
    arguments go to [create_var_const]: any number of them but one is a
    [TypeError], and a single argument that is no text has no [lower]. *)
Definition create_expression (operator : string) (kwargs : list token)
    : result token :=
  if bool_decide (operator ∈ ["var"; "const"; "varconst"]) then
    match kwargs with
    | [TStr name] => Ok (TExpr (create_var_const name))
    | [_] => Raise AttributeError
    | _ => Raise TypeError
    end
  else
    match operator_class !! operator with
    | None => Raise KeyError
    | Some constructor => construct constructor kwargs
    end.

(** ** The parsing combinators used by [_bnf]

    [pyparsing] is a library outside the repository; the combinators the
    grammar uses are modelled after its documented behaviour: every terminal
    skips leading white space, [oneOf] and [|] try their alternatives in order
    and take the first that matches, [ZeroOrMore] repeats until its element
    fails and never fails itself, no combinator backtracks into a finished
    repetition, an alternative or a repetition takes [ParseException] and
    [IndexError] as a failure to match and lets any other exception pass, and
    a parse action replaces the tokens of its element by the value it returns.
    Texts are byte strings in UTF-8; the grammar starts every match at the
    boundary of a character. *)

Definition parser := string → result (list token * string).

Definition is_white (c : ascii) : bool :=
  bool_decide (c ∈ [" "%char; "010"%char; "009"%char; "013"%char]).

Fixpoint skip_whitespace (s : string) : string :=
  match s with
  | EmptyString => EmptyString
  | String c s' => if is_white c then skip_whitespace s' else s
  end.

(** [Literal(lit)]: the text must start with [lit]. *)
Fixpoint match_exact (lit s : string) : option string :=
  match lit with
  | EmptyString => Some s
  | String a lit' =>
      match s with
      | String c s' => if bool_decide (c = a) then match_exact lit' s' else None
      | EmptyString => None
      end
  end.

(** [other.upper().startswith(cur.upper())], the test by which [oneOf]
    orders its symbols, for texts of ASCII letters and characters without
    case, as the symbols of the tables are: [s] starts with [sym], up to
    case. *)
Fixpoint match_caseless (sym s : string) : option string :=
  match sym with
  | EmptyString => Some s
  | String a sym' =>
      match s with
      | String c s' =>
          if bool_decide (lower_char c = lower_char a) then match_caseless sym' s'
          else None
      | EmptyString => None
      end
  end.

Definition Suppress (lit : string) : parser := λ s,
  match match_exact lit (skip_whitespace s) with
  | Some rest => Ok ([], rest)
  | None => Raise ParseException
  end.

(** [p | q | ...] *)
Fixpoint MatchFirst (ps : list parser) : parser := λ s,
  match ps with
  | [] => Raise ParseException
  | p :: ps' =>
      match p s with
      | Raise ParseException | Raise IndexError => MatchFirst ps' s
      | r => r
      end
  end.

(** [oneOf] moves a symbol in front of an earlier one that is a prefix of
    it; [no_masking] says that the list needs no such move, which holds for
    every table of this program. *)
Definition masks (cur other : string) : bool :=
  bool_decide (is_Some (match_caseless cur other)).

Fixpoint no_masking (syms : list string) : bool :=
  match syms with
  | [] => true
  | cur :: rest => forallb (λ other, negb (masks cur other)) rest && no_masking rest
  end.

(** [oneOf(syms, caseless=True)] makes one regular expression of the
    symbols, an alternation in the order of the list, and matches it with
    [re.IGNORECASE]. Under that flag a letter of the pattern matches its two
    cases, and three letters match more: [i] matches U+0130 and U+0131, [s]
    matches U+017F and [k] matches U+212A. The letters are given here in
    UTF-8, each with what [str.lower] makes of it. *)
Definition dotted_I : string := String "196" (String "176" "").   (* U+0130 *)
Definition dotless_i : string := String "196" (String "177" "").  (* U+0131 *)
Definition long_s : string := String "197" (String "191" "").     (* U+017F *)
Definition kelvin : string :=
  String "226" (String "132" (String "170" "")).                  (* U+212A *)
Definition i_dot : string :=
  String "i" (String "204" (String "135" "")).                    (* i, U+0307 *)

Definition variants (a : ascii) : list (string * string) :=
  if bool_decide (lower_char a = "i"%char)
  then [(dotted_I, i_dot); (dotless_i, dotless_i)]
  else if bool_decide (lower_char a = "s"%char) then [(long_s, long_s)]
  else if bool_decide (lower_char a = "k"%char) then [(kelvin, "k")]
  else [].

(** The first of the letters the text starts with: its lower-case form and
    the text after it. *)
Fixpoint match_variant (vs : list (string * string)) (s : string)
    : option (string * string) :=
  match vs with
  | [] => None
  | (letter, low) :: vs' =>
      match match_exact letter s with
      | Some rest => Some (low, rest)
      | None => match_variant vs' s
      end
  end.

(** One character of the pattern against the start of the text. *)
Definition match_letter (a : ascii) (s : string) : option (string * string) :=
  match s with
  | String c s' =>
      if bool_decide (lower_char c = lower_char a)
      then Some (String (lower_char c) "", s')
      else match_variant (variants a) s
  | EmptyString => None
  end.

(** The regular expression of one symbol against the start of the text:
    [str.lower] of the text it matched, and the text left. *)
Fixpoint match_ignorecase (sym s : string) : option (string * string) :=
  match sym with
  | EmptyString => Some (EmptyString, s)
  | String a sym' =>
      match match_letter a s with
      | Some (low, s1) =>
          match match_ignorecase sym' s1 with
          | Some (lows, rest) => Some (low +:+ lows, rest)
          | None => None
          end
      | None => None
      end
  end.

(** The alternation: the first symbol that matches. *)
Fixpoint first_match (syms : list string) (s : string)
    : option (string * string) :=
  match syms with
  | [] => None
  | sym :: syms' =>
      match match_ignorecase sym s with
      | Some m => Some m
      | None => first_match syms' s
      end
  end.

(** [symbol_map = {sym.lower(): sym for sym in symbols}]: a later symbol
    replaces an earlier one under the same key. *)
Fixpoint symbol_map (syms : list string) (key : string) : option string :=
  match syms with
  | [] => None
  | sym :: syms' =>
      match symbol_map syms' key with
      | Some v => Some v
      | None => if bool_decide (lower sym = key) then Some sym else None
      end
  end.

(** The parse action [oneOf] gives its expression returns the symbol as it
    was defined, [symbol_map[t[0].lower()]]; the lookup raises [KeyError]
    when the lower-case form of the text is no key. *)
Definition oneOf (syms : list string) : parser := λ s,
  match first_match syms (skip_whitespace s) with
  | Some (low, rest) =>
      match symbol_map syms low with
      | Some sym => Ok ([TStr sym], rest)
      | None => Raise KeyError
      end
  | None => Raise ParseException
  end.

(** [Word(chars)]: the longest non-empty run of characters of [chars]. *)
Fixpoint span (chars : ascii → bool) (s : string) : string * string :=
  match s with
  | EmptyString => (EmptyString, EmptyString)
  | String c s' =>
      if chars c then let '(w, rest) := span chars s' in (String c w, rest)
      else (EmptyString, s)
  end.

Definition Word (chars : ascii → bool) : parser := λ s,
  match span chars (skip_whitespace s) with
  | (EmptyString, _) => Raise ParseException
  | (w, rest) => Ok ([TStr w], rest)
  end.

(** [alphas + '_'] *)
Definition alphas_underscore (c : ascii) : bool :=
  let n := Ascii.N_of_ascii c in
  ((65 <=? n) && (n <=? 90) || (97 <=? n) && (n <=? 122) || (n =? 95))%N.

(** [p + q] *)
Definition Seq (p q : parser) : parser := λ s,
  match p s with
  | Ok (t1, r1) =>
      match q r1 with
      | Ok (t2, r2) => Ok (t1 ++ t2, r2)
      | Raise e => Raise e
      end
  | Raise e => Raise e
  end.

(** [ZeroOrMore(p)], as a loop of at most [n] rounds; [ZeroOrMore] runs it
    with the length of the text, which no element that consumes text can
    exceed. When the first round fails the text is handed on as it came
    ([pyparsing] hands it on without its leading white space, which the next
    terminal skips in either case). *)
Fixpoint ZeroOrMore_loop (p : parser) (n : nat) : parser := λ s,
  match p s with
  | Ok (t1, r1) =>
      match n with
      | 0 => Raise OutOfFuel
      | S n' =>
          match ZeroOrMore_loop p n' r1 with
          | Ok (t2, r2) => Ok (t1 ++ t2, r2)
          | Raise e => Raise e
          end
      end
  | Raise ParseException | Raise IndexError => Ok ([], s)
  | Raise e => Raise e
  end.

Definition ZeroOrMore (p : parser) : parser := λ s,
  ZeroOrMore_loop p (String.length s) s.

(** [p.setParseAction(fn)] *)
Definition setParseAction (fn : list token → result token)
    (p : parser) : parser := λ s,
  match p s with
  | Ok (toks, rest) =>
      match fn toks with
      | Ok v => Ok ([v], rest)
      | Raise e => Raise e
      end
  | Raise e => Raise e
  end.

(** ** The parser ([parser.py]) *)

(** [create_expression(t, ...)] with a token in operator position: a node is
    no key of [operator_class]. *)
Definition apply_operator (t : token) (kwargs : list token) : result token :=
  match t with
  | TStr operator => create_expression operator kwargs
  | TExpr _ | TObject _ _ => Raise KeyError
  end.

(** [toks[0::2]] *)
Fixpoint every_other (toks : list token) : list token :=
  match toks with
  | [] => []
  | [t] => [t]
  | t :: _ :: rest => t :: every_other rest
  end.

(** [parse_prefix_op]: walks the tokens from the last to the first. *)
Definition parse_prefix_op (toks : list token) : result token :=
  match rev toks with
  | [] => Raise AssertionError
  | t :: ts =>
      foldl (λ res t, bind res (λ r, apply_operator t [r])) (Ok t) ts
  end.

(** [parse_infix_op]: [zip(toks[1::2], toks[2::2])] pairs every operator with
    its right operand. *)
Definition parse_infix_op (toks : list token) : result token :=
  match toks with
  | [] => Raise IndexError
  | first :: _ =>
      foldl (λ res '(op, rhs), bind res (λ lhs, apply_operator op [lhs; rhs]))
            (Ok first)
            (zip (every_other (drop 1 toks)) (every_other (drop 2 toks)))
  end.

(** [lambda t: create_var_const(t[0])] *)
Definition varconst_action (toks : list token) : result token :=
  match toks with
  | TStr name :: _ => Ok (TExpr (create_var_const name))
  | (TExpr _ | TObject _ _) :: _ =>
      Raise AttributeError   (* a node has no [lower] *)
  | [] => Raise IndexError
  end.

Section Grammar.

(** The [Forward] that stands for [expression] inside [nest]. *)
Variable expression : parser.

Definition and_symbol : parser := oneOf (symbols class_And).
Definition or_symbol : parser := oneOf (symbols class_Or).
Definition impl_symbol : parser := oneOf (symbols class_Implies).
Definition prefix_op : parser := oneOf prefix_operators.

Definition varconst : parser :=
  setParseAction varconst_action (Word alphas_underscore).
Definition nest : parser := Seq (Seq (Suppress "(") expression) (Suppress ")").
Definition atom : parser := MatchFirst [varconst; nest].
Definition prefix_expr : parser :=
  setParseAction parse_prefix_op (Seq (ZeroOrMore prefix_op) atom).
Definition and_expr : parser :=
  setParseAction parse_infix_op
    (Seq prefix_expr (ZeroOrMore (Seq and_symbol prefix_expr))).
Definition or_expr : parser :=
  setParseAction parse_infix_op
    (Seq and_expr (ZeroOrMore (Seq or_symbol and_expr))).
Definition expression_body : parser :=
  setParseAction parse_infix_op
    (Seq or_expr (ZeroOrMore (Seq impl_symbol or_expr))).

End Grammar.

(** [expression << ...]: the grammar refers to itself through [nest]; every
    such reference has consumed an opening parenthesis, so the length of the
    text bounds the nesting. *)
Fixpoint expression (fuel : nat) : parser :=
  match fuel with
  | 0 => λ _, Raise OutOfFuel
  | S fuel' => expression_body (expression fuel')
  end.

(** [_bnf()], for a text [s]. *)
Definition bnf (s : string) : parser := expression (S (String.length s)).

(** [parse]: [_bnf().parseString(string)[0]]. [parseString] is called without
    [parseAll], so the text after the parsed expression is not looked at. *)
Definition parse (s : string) : result token :=
  match bnf s s with
  | Ok (t :: _, _) => Ok t
  | Ok ([], _) => Raise IndexError
  | Raise e => Raise e
  end.

(** ** The interning table ([instances] in [data.py])

    Here nodes are Python objects: an object has an identity, and the table
    maps the pair of a class and the constructor arguments to the object
    built for it. Arguments that are nodes are compared by identity, as the
    classes define no [__eq__]. *)

Module Repository.

(** The identity of a node object. *)
Definition instance := nat.

(** A constructor argument: a node, a name or a truth value. *)
Inductive value :=
  | Obj (i : instance)
  | Str (s : string)
  | Bool (b : bool).

(** The second component of a key: [create_expression] stores the tuple
    [kwargs], [create_var_const] the bare name or truth value. *)
Inductive arguments :=
  | Tuple (vs : list value)
  | Bare (v : value).

Definition key := (class * arguments)%type.

#[global] Instance value_eq_dec : EqDecision value.
Proof. solve_decision. Defined.
#[global] Instance arguments_eq_dec : EqDecision arguments.
Proof. solve_decision. Defined.

#[global] Instance class_countable : Countable class.
Proof.
  refine (inj_countable'
    (λ c, match c with
          | class_And => 0 | class_Or => 1 | class_Implies => 2
          | class_Not => 3 | class_Box => 4 | class_Diamond => 5
          | class_Var => 6 | class_Constant => 7
          end)
    (λ n, match n with
          | 0 => class_And | 1 => class_Or | 2 => class_Implies
          | 3 => class_Not | 4 => class_Box | 5 => class_Diamond
          | 6 => class_Var | _ => class_Constant
          end) _).
  by intros [].
Defined.

#[global] Instance value_countable : Countable value.
Proof.
  refine (inj_countable'
    (λ v, match v with
          | Obj i => inl (inl i) | Str s => inl (inr s) | Bool b => inr b
          end)
    (λ x, match x with
          | inl (inl i) => Obj i | inl (inr s) => Str s | inr b => Bool b
          end) _).
  by intros [].
Defined.

#[global] Instance arguments_countable : Countable arguments.
Proof.
  refine (inj_countable'
    (λ a, match a with Tuple vs => inl vs | Bare v => inr v end)
    (λ x, match x with inl vs => Tuple vs | inr v => Bare v end) _).
  by intros [].
Defined.

(** The state of the module: every node object built so far, in order of
    creation (an object's identity is its position), and the table. An object
    keeps its class and the arguments its constructor stored. *)
Record repository := mkRepository {
  objects : list key;
  instances : gmap key instance
}.

(** The state when [data.py] has been loaded: [instances = {}]. *)
Definition empty_repository : repository :=
  {| objects := []; instances := ∅ |}.

(** The number of arguments [__init__] of each class takes. *)
Definition arity (c : class) : nat :=
  match c with
  | class_And | class_Or | class_Implies => 2
  | _ => 1
  end.

(** [instances[k] = constructor(...)]: a new object, entered under its key. *)
Definition store (k : key) (r : repository) : instance * repository :=
  let i := length (objects r) in
  (i, {| objects := objects r ++ [k]; instances := <[k := i]> (instances r) |}).

(** The class and argument [create_var_const] picks for a name. *)
Definition var_const_key (name : string) : key :=
  if bool_decide (lower name ∈ symbols class_Constant)
  then (class_Constant, Bare (Bool (bool_decide (lower name ∈ true_symbols))))
  else (class_Var, Bare (Str name)).

(** [create_var_const] *)
Definition create_var_const (name : string) (r : repository)
    : instance * repository :=
  let k := var_const_key name in
  match instances r !! k with
  | Some expr => (expr, r)
  | None => store k r
  end.

(** [create_expression] *)
Definition create_expression (operator : string) (kwargs : list value)
    (r : repository) : result instance * repository :=
  if bool_decide (operator ∈ ["var"; "const"; "varconst"]) then
    match kwargs with
    | [Str name] => let '(i, r') := create_var_const name r in (Ok i, r')
    | [_] => (Raise AttributeError, r)   (* the argument has no [lower] *)
    | _ => (Raise TypeError, r)
    end
  else
    match operator_class !! operator with
    | None => (Raise KeyError, r)
    | Some constructor =>
        match instances r !! (constructor, Tuple kwargs) with
        | Some expression => (Ok expression, r)
        | None =>
            if bool_decide (length kwargs = arity constructor)
            then let '(i, r') := store (constructor, Tuple kwargs) r in (Ok i, r')
            else (Raise TypeError, r)
        end
    end.

(** A call of one of the two factory functions. *)
Inductive call :=
  | CreateExpression (operator : string) (kwargs : list value)
  | CreateVarConst (name : string).

Definition run (c : call) (r : repository) : result instance * repository :=
  match c with
  | CreateExpression operator kwargs => create_expression operator kwargs r
  | CreateVarConst name => let '(i, r') := create_var_const name r in (Ok i, r')
  end.

(** The repository after a sequence of calls, whatever they returned. *)
Definition run_all (cs : list call) (r : repository) : repository :=
  foldl (λ r c, (run c r).2) r cs.

(** The node variant and the arguments a call asks for: the class the operator
    stands for with the arguments as given, or the variable or constant the
    name stands for. [None] for a call that names no operator. *)
Definition requested (c : call) : option key :=
  match c with
  | CreateVarConst name => Some (var_const_key name)
  | CreateExpression operator kwargs =>
      if bool_decide (operator ∈ ["var"; "const"; "varconst"]) then
        match kwargs with
        | [Str name] => Some (var_const_key name)
        | _ => None
        end
      else (λ constructor, (constructor, Tuple kwargs)) <$> operator_class !! operator
  end.

(** The tree a node object denotes. *)
Inductive denotes (r : repository) : instance → LogicExpression → Prop :=
  | denotes_And i l r' tl tr :
      objects r !! i = Some (class_And, Tuple [Obj l; Obj r']) →
      denotes r l tl → denotes r r' tr → denotes r i (And tl tr)
  | denotes_Or i l r' tl tr :
      objects r !! i = Some (class_Or, Tuple [Obj l; Obj r']) →
      denotes r l tl → denotes r r' tr → denotes r i (Or tl tr)
  | denotes_Implies i l r' tl tr :
      objects r !! i = Some (class_Implies, Tuple [Obj l; Obj r']) →
      denotes r l tl → denotes r r' tr → denotes r i (Implies tl tr)
  | denotes_Not i e te :
      objects r !! i = Some (class_Not, Tuple [Obj e]) →
      denotes r e te → denotes r i (Not te)
  | denotes_Box i e te :
      objects r !! i = Some (class_Box, Tuple [Obj e]) →
      denotes r e te → denotes r i (Box te)
  | denotes_Diamond i e te :
      objects r !! i = Some (class_Diamond, Tuple [Obj e]) →
      denotes r e te → denotes r i (Diamond te)
  | denotes_Var i n :
      objects r !! i = Some (class_Var, Bare (Str n)) → denotes r i (Var n)
  | denotes_Constant i b :
      objects r !! i = Some (class_Constant, Bare (Bool b)) →
      denotes r i (Constant b).

(** The table and the objects describe each other. *)
Definition coherent (r : repository) : Prop :=
  ∀ k i, instances r !! k = Some i ↔ objects r !! i = Some k.

(** An object as a constructor leaves it: an operator node with as many
    arguments as its class takes, a variable with its name, or a constant
    with its truth value. *)
Definition shaped (k : key) : Prop :=
  match k.2 with
  | Tuple vs => k.1 ∈ infix_classes ++ prefix_classes ∧ length vs = arity k.1
  | Bare (Str _) => k.1 = class_Var
  | Bare (Bool _) => k.1 = class_Constant
  | Bare (Obj _) => False
  end.

(** A call that asks for a node as a constructor can build it: a name, or
    an operator with as many arguments as its class takes. *)
Definition well_formed (c : call) : Prop :=
  ∃ k, requested c = Some k ∧ shaped k.

(** The states the module can be in: those the factory functions lead to. *)
Definition reachable (r : repository) : Prop :=
  ∃ cs, r = run_all cs empty_repository.

End Repository.

(** ** Vocabulary for statements about the parser *)

(** [rest] is what is left of [s] once a front part of it has been read. *)
Inductive tail_of : string → string → Prop :=
  | tail_of_refl s : tail_of s s
  | tail_of_skip c s rest : tail_of rest s → tail_of rest (String c s).

(** What a parser did to the text: it stopped at a tail of it, and, if
    [strict], read at least one character. *)
Definition consumed (strict : bool) (s rest : string) : Prop :=
  tail_of rest s ∧ (strict = true → String.length rest < String.length s).

(** Shapes of token lists. *)
Definition no_tokens (toks : list token) : Prop := toks = [].
Definition one_expr (toks : list token) : Prop := ∃ e, toks = [TExpr e].
Definition one_text (toks : list token) : Prop := ∃ w, toks = [TStr w].
Definition one_of (syms : list string) (toks : list token) : Prop :=
  ∃ sym, sym ∈ syms ∧ toks = [TStr sym].
Definition cat (P Q : list token → Prop) (toks : list token) : Prop :=
  ∃ t1 t2, toks = t1 ++ t2 ∧ P t1 ∧ Q t2.
Inductive star (P : list token → Prop) : list token → Prop :=
  | star_nil : star P []
  | star_app t1 t2 : P t1 → star P t2 → star P (t1 ++ t2).

(** The letter occurs in the text. *)
Fixpoint within (letter s : string) : bool :=
  match s with
  | EmptyString => false
  | String _ s' => bool_decide (is_Some (match_exact letter s)) || within letter s'
  end.

(** The text holds one of the letters that a letter of a symbol matches
    without being one of its two cases or lower-casing to it: U+0130,
    U+0131 or U+017F. *)
Definition odd_letter (s : string) : bool :=
  within dotted_I s || within dotless_i s || within long_s s.

(** A result that is no match: [ParseException], or [KeyError] on a text
    with an odd letter. *)
Definition fails {A} (r : result A) (s : string) : Prop :=
  r = Raise ParseException ∨ (r = Raise KeyError ∧ odd_letter s = true).

(** On a text shorter than [n], the parser [p] either matches, with tokens of
    shape [P], or fails to match, or raises the [KeyError] of [oneOf], and
    this on a text with an odd letter only; it raises nothing else. *)
Definition sound (n : nat) (strict : bool) (P : list token → Prop)
    (p : parser) : Prop :=
  ∀ s, String.length s < n →
    match p s with
    | Ok (toks, rest) => P toks ∧ consumed strict s rest
    | Raise e => fails (@Raise (list token * string) e) s
    end.

(** The character does not occur in the text. *)
Fixpoint lacks (c : ascii) (s : string) : Prop :=
  match s with
  | EmptyString => True
  | String c' s' => c' ≠ c ∧ lacks c s'
  end.

(** The tokens of a chain after its first operand: operator, operand, ... *)
Definition flat (ps : list (token * token)) : list token :=
  ps ≫= λ p, [p.1; p.2].

(** The character can be the first of a text the symbol matches: the first
    character of the symbol in one of its cases, or the first byte of a
    letter it matches besides. *)
Definition starts (sym : string) (c : ascii) : bool :=
  match sym with
  | String a _ =>
      bool_decide (lower_char c = lower_char a)
      || existsb (λ v, match v.1 with
                       | String b _ => bool_decide (c = b)
                       | EmptyString => false
                       end) (variants a)
  | EmptyString => false
  end.

(** The character can begin an operand: a letter or underscore, an opening
    parenthesis, or the first character of a prefix operator. *)
Definition opens_operand (c : ascii) : bool :=
  alphas_underscore c || bool_decide (c = "("%char)
  || existsb (λ sym, starts sym c) prefix_operators.

(** Texts on which no operand can be read at the start: blank texts, texts
    whose first character begins no operand, and texts that start with an
    opening parenthesis and hold no closing one. *)
Definition no_operand_ahead (s : string) : Prop :=
  match skip_whitespace s with
  | EmptyString => True
  | String c s' =>
      opens_operand c = false ∨ (c = "("%char ∧ lacks ")"%char s')
  end.

(** Reading on with [d] parentheses open inside the one in question, its
    closing parenthesis is met. *)
Fixpoint closed (d : nat) (s : string) : bool :=
  match s with
  | EmptyString => false
  | String c s' =>
      if bool_decide (c = ")"%char) then
        match d with
        | 0 => true
        | S d' => closed d' s'
        end
      else if bool_decide (c = "("%char) then closed (S d) s'
      else closed d s'
  end.

(** Texts at whose start no operand can be read: those of
    [no_operand_ahead]; a prefix operator followed by such a text; an opening
    parenthesis followed by such a text; an opening parenthesis that is never
    closed. *)
Inductive unreadable : string → Prop :=
  | unreadable_start s : no_operand_ahead s → unreadable s
  | unreadable_operator s toks rest :
      prefix_op s = Ok (toks, rest) → unreadable rest → unreadable s
  | unreadable_inside s s' :
      skip_whitespace s = String "(" s' → unreadable s' → unreadable s
  | unreadable_unclosed s s' :
      skip_whitespace s = String "(" s' → closed 0 s' = false → unreadable s.

(** What a parser reads leaves the count of open parentheses as it was. *)
Definition keeps_depth (p : parser) : Prop :=
  ∀ s toks rest, p s = Ok (toks, rest) → ∀ d, closed d s = closed d rest.

(** ** Further conditions and notions on models *)

(** Every successor of a declared world is declared. *)
Definition relation_declared (k : Kripke) : Prop :=
  set_Forall (λ w, R_at k w ⊆ W k) (W k).

#[global] Instance relation_declared_dec k : Decision (relation_declared k).
Proof. unfold relation_declared. apply _. Defined.

(** The models a program can hold: a fresh model, and whatever the mutators
    and the queries leave behind. *)
Inductive built : Kripke → Prop :=
  | built_init : built Kripke_init
  | built_mutate k m : built k → built (mutate k m)
  | built_blind_worlds k : built k → built (blind_worlds k).2
  | built_calc k e : built k → built (calc e k).2
  | built_entails k e : built k → built (entails k e).2.

(** The edges a mutation adds, and the valuations and worlds it adds. *)
Definition added_edges (m : mutation) : list (string * string) :=
  match m with
  | AddTranses ts => ts
  | AddTrans t => [t]
  | _ => []
  end.
Definition added_worlds (m : mutation) : list string :=
  match m with
  | AddWorlds ws => ws
  | AddWorld w => [w]
  | _ => []
  end.
Definition added_vals (m : mutation) : list (string * string) :=
  match m with
  | AddVals var ws => (λ w, (var, w)) <$> ws
  | AddVal var w => [(var, w)]
  | _ => []
  end.

(** The variables whose entry in [V] a mutation touches. *)
Definition touched_vars (m : mutation) : list string :=
  match m with
  | AddVals var _ | AddVal var _ => [var]
  | _ => []
  end.

(** What a model is after a mutation, component by component. *)
Definition effect (k k' : Kripke) (m : mutation) : Prop :=
  W k' = W k ∪ list_to_set (added_worlds m) ∧
  cached_blind_worlds k' = cached_blind_worlds k ∧
  (∀ w v, v ∈ R_at k' w ↔ v ∈ R_at k w ∨ (w, v) ∈ added_edges m) ∧
  (∀ p w, w ∈ V_at k' p ↔ w ∈ V_at k p ∨ (p, w) ∈ added_vals m) ∧
  dom (R k') = dom (R k) ∪ list_to_set (added_edges m).*1 ∧
  dom (V k') = dom (V k) ∪ list_to_set (touched_vars m).

(** The models that were given no new transition after their blind worlds
    were first asked for: the models that hold no cached set, and what the
    queries and the mutators that add no edge make of such models. *)
Inductive unextended : Kripke → Prop :=
  | unextended_fresh k : cached_blind_worlds k = None → unextended k
  | unextended_blind_worlds k : unextended k → unextended (blind_worlds k).2
  | unextended_calc k e : unextended k → unextended (calc e k).2
  | unextended_entails k e : unextended k → unextended (entails k e).2
  | unextended_mutate k m :
      unextended k → added_edges m = [] → unextended (mutate k m).

(** What a query can do to the cache: leave it, or, when none is stored,
    store the blind worlds of the state. *)
Definition cache_step (k k' : Kripke) : Prop :=
  cached_blind_worlds k' = cached_blind_worlds k
  ∨ (cached_blind_worlds k = None ∧ cached_blind_worlds k' = Some (blind k)).

(** ** The tree walks of [LogicExpression] *)

#[global] Instance LogicExpression_eq_dec : EqDecision LogicExpression.
Proof. solve_decision. Defined.

(** Nodes are kept in Python sets; for that they are counted here through
    their tree. *)
Fixpoint expression_code (e : LogicExpression) : gen_tree (string + bool) :=
  match e with
  | And l r => GenNode 0 [expression_code l; expression_code r]
  | Or l r => GenNode 1 [expression_code l; expression_code r]
  | Implies l r => GenNode 2 [expression_code l; expression_code r]
  | Not e => GenNode 3 [expression_code e]
  | Box e => GenNode 4 [expression_code e]
  | Diamond e => GenNode 5 [expression_code e]
  | Var n => GenLeaf (inl n)
  | Constant b => GenLeaf (inr b)
  end.

Fixpoint expression_decode (t : gen_tree (string + bool)) : LogicExpression :=
  match t with
  | GenNode 0 [l; r] => And (expression_decode l) (expression_decode r)
  | GenNode 1 [l; r] => Or (expression_decode l) (expression_decode r)
  | GenNode 2 [l; r] => Implies (expression_decode l) (expression_decode r)
  | GenNode 3 [e] => Not (expression_decode e)
  | GenNode 4 [e] => Box (expression_decode e)
  | GenNode 5 [e] => Diamond (expression_decode e)
  | GenLeaf (inl n) => Var n
  | GenLeaf (inr b) => Constant b
  | _ => Constant false
  end.

#[global] Instance LogicExpression_countable : Countable LogicExpression.
Proof.
  refine (inj_countable' expression_code expression_decode _).
  induction x; simpl; congruence.
Defined.

(** [children]: the direct sub-expressions, in the order they are yielded. *)
Definition children (e : LogicExpression) : list LogicExpression :=
  match e with
  | And l r | Or l r | Implies l r => [l; r]
  | Not e | Box e | Diamond e => [e]
  | Var _ | Constant _ => []
  end.

(** [depth] *)
Fixpoint depth (e : LogicExpression) : nat :=
  match e with
  | And l r | Or l r | Implies l r => max (depth l) (depth r) + 1
  | Not e | Box e | Diamond e => depth e + 1
  | Var _ | Constant _ => 0
  end.

(** [variables] *)
Fixpoint variables (e : LogicExpression) : gset string :=
  match e with
  | And l r | Or l r | Implies l r => variables l ∪ variables r
  | Not e | Box e | Diamond e => variables e
  | Var name => {[ name ]}
  | Constant _ => ∅
  end.

(** [expressions]: the set of the left operand, then the node itself, then
    the set of the right operand. *)
Fixpoint expressions (e : LogicExpression) : gset LogicExpression :=
  match e with
  | And l r | Or l r | Implies l r => expressions l ∪ {[ e ]} ∪ expressions r
  | Not e' | Box e' | Diamond e' => expressions e' ∪ {[ e ]}
  | Var _ | Constant _ => {[ e ]}
  end.

(** [s] is [e] or lies below it. *)
Inductive subexpression (s : LogicExpression) : LogicExpression → Prop :=
  | subexpression_refl : subexpression s s
  | subexpression_child e c :
      c ∈ children e → subexpression s c → subexpression s e.

(** [__str__] *)
Fixpoint __str__ (e : LogicExpression) : string :=
  match e with
  | And l r => "(" +:+ __str__ l +:+ " " +:+ "∧" +:+ " " +:+ __str__ r +:+ ")"
  | Or l r => "(" +:+ __str__ l +:+ " " +:+ "∨" +:+ " " +:+ __str__ r +:+ ")"
  | Implies l r => "(" +:+ __str__ l +:+ " " +:+ "→" +:+ " " +:+ __str__ r +:+ ")"
  | Not e => "~" +:+ __str__ e
  | Box e => "Box(" +:+ __str__ e +:+ ")"
  | Diamond e => "◇" +:+ __str__ e
  | Var name => name
  | Constant value => if value then "⊤" else "⊥"
  end.

(** The line feed. *)
Definition newline : string := String "010" "".

(** [sep.join(l)] *)
Fixpoint join (sep : string) (l : list string) : string :=
  match l with
  | [] => ""
  | [x] => x
  | x :: rest => x +:+ sep +:+ join sep rest
  end.

Section StackCalc.

(** The order in which Python walks a set is not fixed by the language; the
    traces below are given for an arbitrary one. *)
Variable iteration : worlds → list string.

(** [", ".join(s)] for a set [s] *)
Definition join_set (s : worlds) : string := join ", " (iteration s).

(** [stack_calc]: the set of [calc] together with a trace. *)
Fixpoint stack_calc (e : LogicExpression) (k : Kripke) (spacing : string)
    : (worlds * string) * Kripke :=
  match e with
  | And l r =>
      let '((lhs, lstack), k1) := stack_calc l k (spacing +:+ "    ") in
      let '((rhs, rstack), k2) := stack_calc r k1 (spacing +:+ "    ") in
      let res := lhs ∩ rhs in
      let lines := [
        spacing +:+ "∧" +:+ " returns {" +:+ join_set res +:+ "}";
        spacing +:+ "- left  expression " +:+ __str__ l +:+ " returns {"
          +:+ join_set lhs +:+ "}";
        lstack;
        spacing +:+ "- right expression " +:+ __str__ r +:+ " returns {"
          +:+ join_set rhs +:+ "}";
        rstack ] in
      ((res, join newline lines), k2)
  | Or l r =>
      let '((lhs, lstack), k1) := stack_calc l k (spacing +:+ "    ") in
      let '((rhs, rstack), k2) := stack_calc r k1 (spacing +:+ "    ") in
      let res := lhs ∪ rhs in
      let lines := [
        spacing +:+ "∨" +:+ " returns {" +:+ join_set res +:+ "}";
        spacing +:+ "- left expression " +:+ __str__ l +:+ " gives back {"
          +:+ join_set lhs +:+ "}";
        lstack;
        spacing +:+ "- right expression " +:+ __str__ r +:+ " gives back {"
          +:+ join_set rhs +:+ "}";
        rstack ] in
      ((res, join newline lines), k2)
  | Implies l r =>
      let '((lhs, lstack), k1) := stack_calc l k (spacing +:+ "    ") in
      let premise_doesnt_hold := W k1 ∖ lhs in
      let '((rhs, rstack), k2) := stack_calc r k1 (spacing +:+ "    ") in
      let res := premise_doesnt_hold ∪ (lhs ∩ rhs) in
      let lines := [
        spacing +:+ "→" +:+ ", returns {" +:+ join_set res +:+ "}";
        spacing +:+ "- Premise doesn't hold for {"
          +:+ join_set premise_doesnt_hold +:+ "}";
        spacing +:+ "- left expression " +:+ __str__ l +:+ " gives back {"
          +:+ join_set lhs +:+ "}";
        lstack;
        spacing +:+ "- right expression " +:+ __str__ r +:+ " gives back {"
          +:+ join_set rhs +:+ "}";
        rstack ] in
      ((res, join newline lines), k2)
  | Not e =>
      let '((expr_res, expr_stack), k1) := stack_calc e k (spacing +:+ "  ") in
      let res := W k1 ∖ expr_res in
      ((res, "¬" +:+ " returned {" +:+ join_set res +:+ "}" +:+ newline
         +:+ expr_stack), k1)
  | Box e =>
      let '((inter, inter_stack), k1) := stack_calc e k (spacing +:+ "    ") in
      let '(actual, k2) := comprehension (all_in inter) k1 in
      let '(blind, k3) := blind_worlds k2 in
      let out := actual ∪ blind in
      let stack := [
        spacing +:+ "☐" +:+ " returned {" +:+ join_set out +:+ "}";
        spacing +:+ "- blind worlds, for which any box holds {"
          +:+ join_set actual +:+ "}";
        spacing +:+ "- worlds with successors in which condition holds {"
          +:+ join_set actual +:+ "}";
        inter_stack ] in
      ((out, join newline stack), k3)
  | Diamond e =>
      let '((inter, inter_stack), k1) := stack_calc e k (spacing +:+ "  ") in
      let '(out, k2) := comprehension (any_in inter) k1 in
      ((out, spacing +:+ "◇" +:+ " returned {" +:+ join_set out +:+ "}"
         +:+ newline +:+ inter_stack), k2)
  | Var name =>
      let '(holds, k1) := V_get name k in
      ((holds, spacing +:+ name +:+ " holds in {" +:+ join_set holds +:+ "}"), k1)
  | Constant value =>
      let out := if value then W k else ∅ in
      ((out, spacing +:+ (if value then "⊤" else "⊥") +:+ " holds for {"
               +:+ join_set out +:+ "}"), k)
  end.

End StackCalc.

(** ** Printing and reading back *)

(** Every character of the text is one of [chars]. *)
Fixpoint every (chars : ascii → bool) (s : string) : bool :=
  match s with
  | EmptyString => true
  | String c s' => chars c && every chars s'
  end.

(** A name that [varconst] reads as the variable of that name: a non-empty
    run of letters and underscores that is no boolean literal and does not
    begin with a prefix operator. *)
Definition identifier (name : string) : bool :=
  negb (bool_decide (name = EmptyString))
  && every alphas_underscore name
  && negb (bool_decide (lower name ∈ symbols class_Constant))
  && forallb (λ sym, negb (masks sym name)) prefix_operators.

(** Trees without constants whose variables are all named by identifiers. *)
Fixpoint printable (e : LogicExpression) : bool :=
  match e with
  | And l r | Or l r | Implies l r => printable l && printable r
  | Not e | Box e | Diamond e => printable e
  | Var name => identifier name
  | Constant _ => false
  end.

(** [__str__ e] followed by [rest]. *)
Fixpoint show (e : LogicExpression) (rest : string) : string :=
  match e with
  | And l r => "(" +:+ show l (" ∧ " +:+ show r (")" +:+ rest))
  | Or l r => "(" +:+ show l (" ∨ " +:+ show r (")" +:+ rest))
  | Implies l r => "(" +:+ show l (" → " +:+ show r (")" +:+ rest))
  | Not e => "~" +:+ show e rest
  | Box e => "Box(" +:+ show e (")" +:+ rest)
  | Diamond e => "◇" +:+ show e rest
  | Var name => name +:+ rest
  | Constant value => (if value then "⊤" else "⊥") +:+ rest
  end.

(** The prefix operators a printed tree starts with, as the grammar reads
    them, and the tree of the atom that follows them. *)
Fixpoint leading_ops (e : LogicExpression) : list token :=
  match e with
  | Not e => TStr "~" :: leading_ops e
  | Diamond e => TStr "◇" :: leading_ops e
  | Box e => [TStr "box"]
  | _ => []
  end.

Fixpoint atom_of (e : LogicExpression) : LogicExpression :=
  match e with
  | Not e | Diamond e => atom_of e
  | Box e => e
  | _ => e
  end.

(** How deep the parentheses of the printed tree nest. *)
Fixpoint nesting (e : LogicExpression) : nat :=
  match e with
  | And l r | Or l r | Implies l r => S (max (nesting l) (nesting r))
  | Box e => S (nesting e)
  | Not e | Diamond e => nesting e
  | Var _ | Constant _ => 0
  end.

(** The text is over, or goes on with a blank or a closing parenthesis. *)
Definition boundary (rest : string) : Prop :=
  match rest with
  | EmptyString => True
  | String c _ => c = " "%char ∨ c = ")"%char
  end.

(** The text is over, or goes on with a closing parenthesis. *)
Definition closing (rest : string) : Prop :=
  match rest with
  | EmptyString => True
  | String c _ => c = ")"%char
  end.

(** Text that cannot go on the expression before it: it is over or starts
    with a blank or a closing parenthesis, and past its blanks no infix
    operator begins. *)
Definition trailing (rest : string) : Prop :=
  boundary rest ∧
  match skip_whitespace rest with
  | EmptyString => True
  | String c _ => existsb (λ sym, starts sym c) infix_operators = false
  end.

(** The character occurs in the symbol, up to case. *)
Fixpoint occurs (c : ascii) (sym : string) : bool :=
  match sym with
  | EmptyString => false
  | String a sym' => bool_decide (lower_char c = lower_char a) || occurs c sym'
  end.

(** With [X] for the [Forward], the grammar reads the prefix operators of the
    printed tree [e] and then its atom, whatever text follows past a
    boundary. *)
Definition reads (X : parser) (e : LogicExpression) : Prop :=
  ∀ n rest, (length (leading_ops e) ≤ n)%nat → boundary rest →
    Seq (ZeroOrMore_loop prefix_op n) (atom X) (show e rest)
    = Ok (leading_ops e ++ [TExpr (atom_of e)], rest).

(** ** The tree drawer ([tree.py]) *)

(** [out_symbol] of the class of a node; [None] where the class sets none. *)
Definition out_symbol (e : LogicExpression) : option string :=
  match e with
  | And _ _ => Some "∧"
  | Or _ _ => Some "∨"
  | Implies _ _ => Some "→"
  | Not _ => Some "¬"
  | Box _ => Some "☐"
  | Diamond _ => Some "◇"
  | Var _ | Constant _ => None
  end.

(** ["q%s" % d], the [d]-th value of [label_gen]. The generator is shared by
    all calls of [to_graph]; its state is the number it yields next. *)
Definition label (d : nat) : string := "q" +:+ pretty d.

Definition tab : string := String "009" "".
Definition quote : string := String "034" "".

(** The line of a node: its label, and [subexpr.out_symbol or str(subexpr)]
    as the text shown. *)
Definition node_line (subexpr : LogicExpression) (label : string) : string :=
  tab +:+ label +:+ " [label=" +:+ quote
    +:+ default (__str__ subexpr) (out_symbol subexpr) +:+ quote +:+ "];".

(** The line of an edge. *)
Definition edge_line (label child_label : string) : string :=
  tab +:+ label +:+ " -> " +:+ child_label.

(** The [for] loop over the children of a node: each child takes the next
    label, an edge to it is recorded, and it joins the queue. *)
Definition put_children (label' : string) (cs : list LogicExpression)
    (st : nat * list string * list (LogicExpression * string))
    : nat * list string * list (LogicExpression * string) :=
  foldl (λ '(gen, edges, todo) child_expr,
           let child_label := label gen in
           (S gen, edges ++ [edge_line label' child_label],
            todo ++ [(child_expr, child_label)]))
        st cs.

(** The [while] loop, for at most [fuel] rounds. *)
Fixpoint to_graph_loop (fuel gen : nat) (nodes edges : list string)
    (todo : list (LogicExpression * string))
    : result (list string * list string * nat) :=
  match todo with
  | [] => Ok (nodes, edges, gen)
  | (subexpr, label') :: todo' =>
      match fuel with
      | 0 => Raise OutOfFuel
      | S fuel' =>
          let '(gen', edges', todo'') :=
            put_children label' (children subexpr) (gen, edges, todo') in
          to_graph_loop fuel' gen' (nodes ++ [node_line subexpr label'])
                        edges' todo''
      end
  end.

(** The template [tree], filled with the two blocks of lines. *)
Definition tree (nodes edges : string) : string :=
  join newline
    [""; "digraph parse_tree {"; "rank_dir = LR;"; "graph [splines=ortho];";
     "node [shape=square];"; ""; nodes; ""; edges; "}"; ""].

(** The occurrences of sub-expressions in a tree, the tree itself first. *)
Fixpoint subtrees (e : LogicExpression) : list LogicExpression :=
  e :: match e with
       | And l r | Or l r | Implies l r => subtrees l ++ subtrees r
       | Not e' | Box e' | Diamond e' => subtrees e'
       | Var _ | Constant _ => []
       end.

(** [to_graph], from the generator state [gen]: the text, and the state of
    the generator afterwards. Every round of the loop takes one occurrence
    of a sub-expression from the queue, so their number bounds the rounds. *)
Definition to_graph (expr : LogicExpression) (gen : nat)
    : result (string * nat) :=
  bind (to_graph_loop (length (subtrees expr)) (S gen) [] []
                      [(expr, label gen)])
       (λ '(nodes, edges, gen'),
          Ok (tree (join newline nodes) (join newline edges), gen')).

(** The lines for numbered nodes and for edges between numbers. *)
Definition node_lines (visited : list (LogicExpression * nat)) : list string :=
  (λ v, node_line v.1 (label v.2)) <$> visited.
Definition edge_lines (links : list (nat * nat)) : list string :=
  (λ l, edge_line (label l.1) (label l.2)) <$> links.
Definition queued (todo : list (LogicExpression * nat))
    : list (LogicExpression * string) :=
  (λ v, (v.1, label v.2)) <$> todo.

(* ================================================================== *)
(** * Properties *)
(* ================================================================== *)

(** ** Reads leave the observable model unchanged *)

Lemma dd_get_fst key d : (dd_get key d).1 = dd_at d key.
Proof. unfold dd_get, dd_at. by destruct (d !! key). Qed.

Lemma dd_get_snd key d key' : dd_at (dd_get key d).2 key' = dd_at d key'.
Proof.
  unfold dd_get, dd_at. destruct (d !! key) eqn:E; [done|]. simpl.
  destruct (decide (key = key')) as [->|Hne].
  - by rewrite lookup_insert_eq, E.
  - by rewrite lookup_insert_ne.
Qed.

Lemma blind_ext k k' :
  W k' = W k → (∀ w, R_at k' w = R_at k w) → blind k' = blind k.
Proof.
  intros HW HR. unfold blind. rewrite HW.
  apply set_eq; intros w. rewrite !elem_of_filter. by rewrite HR.
Qed.

Global Instance same_view_refl : Reflexive same_view.
Proof. by intros k; split. Qed.

Global Instance same_view_trans : Transitive same_view.
Proof.
  intros a b c [] []; split; intros; etrans; eauto.
Qed.

Global Instance same_view_sym : Symmetric same_view.
Proof. intros a b []; split; intros; symmetry; eauto. Qed.

Lemma V_get_spec name k :
  (V_get name k).1 = V_at k name ∧ same_view k (V_get name k).2.
Proof.
  unfold V_get. pose proof (dd_get_fst name (V k)) as H1.
  pose proof (dd_get_snd name (V k)) as H2.
  destruct (dd_get name (V k)) as [s d]; simpl in *. split; [done|].
  by split.
Qed.

Lemma R_get_spec w k :
  (R_get w k).1 = R_at k w ∧ same_view k (R_get w k).2.
Proof.
  unfold R_get. pose proof (dd_get_fst w (R k)) as H1.
  pose proof (dd_get_snd w (R k)) as H2.
  destruct (dd_get w (R k)) as [s d]; simpl in *. split; [done|].
  split; simpl; try done.
  unfold cache_or_blind; simpl. f_equal. by apply blind_ext.
Qed.

Lemma comprehension_fold cond l : ∀ acc k0,
  (foldl (comprehension_step cond) (acc, k0) l).1
    = acc ∪ list_to_set (filter (λ w, cond (R_at k0 w)) l)
  ∧ same_view k0 (foldl (comprehension_step cond) (acc, k0) l).2.
Proof.
  induction l as [|w l IH]; intros acc k0; simpl.
  - split; [set_solver | reflexivity].
  - unfold comprehension_step at 2 4; simpl.
    destruct (R_get_spec w k0) as [H1 H2].
    destruct (R_get w k0) as [succ k1]; simpl in *. subst succ.
    destruct (IH (if cond (R_at k0 w) then {[w]} ∪ acc else acc) k1) as [IH1 IH2].
    split; [|by etrans].
    rewrite IH1.
    assert (filter (λ w0, cond (R_at k1 w0)) l = filter (λ w0, cond (R_at k0 w0)) l) as ->.
    { apply list_filter_iff. intros x. by rewrite (sv_R _ _ H2). }
    rewrite filter_cons. destruct (cond (R_at k0 w)); simpl; set_solver.
Qed.

Lemma comprehension_spec cond k :
  (comprehension cond k).1 = filter (λ w, cond (R_at k w)) (W k)
  ∧ same_view k (comprehension cond k).2.
Proof.
  unfold comprehension.
  destruct (comprehension_fold cond (elements (W k)) ∅ k) as [H1 H2].
  split; [|done]. rewrite H1. apply set_eq; intros w.
  rewrite elem_of_union, elem_of_list_to_set, list_elem_of_filter,
    elem_of_elements, elem_of_filter. set_solver.
Qed.

Lemma is_empty_true s : is_empty s ↔ s = ∅.
Proof. unfold is_empty. apply bool_decide_spec. Qed.

Lemma all_in_true internal succ : all_in internal succ ↔ succ ⊆ internal.
Proof.
  unfold all_in. rewrite Is_true_true, forallb_forall.
  split.
  - intros H v Hv. specialize (H v). rewrite <- list_elem_of_In, elem_of_elements in H.
    apply bool_decide_eq_true in H; done.
  - intros H v Hv. apply bool_decide_eq_true. apply H.
    by rewrite <- list_elem_of_In, elem_of_elements in Hv.
Qed.

Lemma any_in_true internal succ : any_in internal succ ↔ succ ∩ internal ≠ ∅.
Proof.
  unfold any_in. rewrite Is_true_true, existsb_exists.
  split.
  - intros (v & Hv & Hin). rewrite <- list_elem_of_In, elem_of_elements in Hv.
    apply bool_decide_eq_true in Hin. set_solver.
  - intros H. apply set_choose_L in H as [v Hv]. exists v.
    rewrite <- list_elem_of_In, elem_of_elements, bool_decide_eq_true. set_solver.
Qed.

Lemma blind_worlds_spec k :
  (blind_worlds k).1 = cache_or_blind k ∧ same_view k (blind_worlds k).2.
Proof.
  unfold blind_worlds, cache_or_blind.
  destruct (cached_blind_worlds k) as [c|] eqn:E; simpl.
  - split; [done | reflexivity].
  - destruct (comprehension_spec is_empty k) as [H1 H2].
    destruct (comprehension is_empty k) as [b k']; simpl in *.
    assert (b = blind k) as ->.
    { rewrite H1. unfold blind. apply set_eq; intros w.
      rewrite !elem_of_filter. by rewrite is_empty_true. }
    split; [done|]. destruct H2. split; simpl; try done.
    unfold cache_or_blind. simpl. by rewrite E.
Qed.

Lemma holds_in_ext k k' e : same_view k k' → holds_in k' e = holds_in k e.
Proof.
  intros [HW HV HR HB].
  induction e; simpl; rewrite ?IHe, ?IHe1, ?IHe2, ?HW, ?HB; try done.
  - f_equal. apply set_eq; intros w. rewrite !elem_of_filter. by rewrite HR.
  - apply set_eq; intros w. rewrite !elem_of_filter. by rewrite HR.
Qed.

(** [calc] returns [holds_in] of the model it was given, and leaves a model
    that reads the same. *)
Lemma calc_spec e : ∀ k,
  (calc e k).1 = holds_in k e ∧ same_view k (calc e k).2.
Proof.
  induction e; intros k; simpl.
  - destruct (IHe1 k) as [A1 A2]. destruct (calc e1 k) as [lhs k1]; simpl in *.
    destruct (IHe2 k1) as [B1 B2]. destruct (calc e2 k1) as [rhs k2]; simpl in *.
    rewrite (holds_in_ext _ _ _ A2) in B1. subst. split; [done | by etrans].
  - destruct (IHe1 k) as [A1 A2]. destruct (calc e1 k) as [lhs k1]; simpl in *.
    destruct (IHe2 k1) as [B1 B2]. destruct (calc e2 k1) as [rhs k2]; simpl in *.
    rewrite (holds_in_ext _ _ _ A2) in B1. subst. split; [done | by etrans].
  - destruct (IHe1 k) as [A1 A2]. destruct (calc e1 k) as [lhs k1]; simpl in *.
    destruct (is_empty lhs) eqn:E; simpl.
    + apply Is_true_true, is_empty_true in E. rewrite (sv_W _ _ A2).
      split; [|done]. rewrite <- A1, E. set_solver.
    + destruct (IHe2 k1) as [B1 B2]. destruct (calc e2 k1) as [rhs k2]; simpl in *.
      rewrite (holds_in_ext _ _ _ A2) in B1. rewrite (sv_W _ _ A2). subst.
      split; [done | by etrans].
  - destruct (IHe k) as [A1 A2]. destruct (calc e k) as [inner k1]; simpl in *.
    rewrite (sv_W _ _ A2). subst. done.
  - destruct (IHe k) as [A1 A2]. destruct (calc e k) as [internal k1]; simpl in *.
    destruct (comprehension_spec (all_in internal) k1) as [B1 B2].
    destruct (comprehension (all_in internal) k1) as [actual k2]; simpl in *.
    destruct (blind_worlds_spec k2) as [C1 C2].
    destruct (blind_worlds k2) as [bl k3]; simpl in *.
    split; [|by etrans; [|etrans]].
    rewrite C1, (sv_blind _ _ B2), (sv_blind _ _ A2), B1, (sv_W _ _ A2).
    f_equal. apply set_eq; intros w. rewrite !elem_of_filter.
    by rewrite all_in_true, (sv_R _ _ A2), A1.
  - destruct (IHe k) as [A1 A2]. destruct (calc e k) as [internal k1]; simpl in *.
    destruct (comprehension_spec (any_in internal) k1) as [B1 B2].
    split; [|by etrans].
    rewrite B1, (sv_W _ _ A2).
    apply set_eq; intros w. rewrite !elem_of_filter.
    by rewrite any_in_true, (sv_R _ _ A2), A1.
  - apply V_get_spec.
  - split; [done | reflexivity].
Qed.

Lemma calc_fst e k : (calc e k).1 = holds_in k e.
Proof. apply calc_spec. Qed.

(** ** Sorting a set *)

Lemma sorted_Permutation s : sorted s ≡ₚ elements s.
Proof. apply merge_sort_Permutation. Qed.

Lemma sorted_inj s1 s2 : sorted s1 = sorted s2 → s1 = s2.
Proof.
  intros H. apply set_eq; intros w.
  rewrite <- !elem_of_elements, <- !sorted_Permutation. by rewrite H.
Qed.

(** ** Entailment *)

(** The scenarios of the documentation. *)
Example scenario_1 :
  (calc (Box (Var "p")) M1).1 = {[ "w1"; "w2" ]} ∧
  (calc (Diamond (Var "p")) M1).1 = {[ "w1" ]}.
Proof. split; apply (bool_decide_unpack _); vm_compute; exact I. Qed.

Example scenario_2 :
  (entails M2 (Box (Var "p"))).1 = true ∧
  (entails M2 (Diamond (Var "p"))).1 = false.
Proof. split; vm_compute; reflexivity. Qed.

(** C1: [entails] answers true exactly when the set computed by [calc] is
    equal to the set of declared worlds. A result that is not empty but
    misses a declared world is not enough ([p] in scenario 1), nor is a result
    that holds every declared world and an undeclared one besides. *)
Theorem entails_iff_calc_eq_worlds (k : Kripke) (e : LogicExpression) :
  ((entails k e).1 = true ↔ (calc e k).1 = W k)
  ∧ (entails M1 (Var "p")).1 = false
  ∧ (W extra_world_model ⊆ (calc (Var "q") extra_world_model).1
     ∧ (entails extra_world_model (Var "q")).1 = false).
Proof.
  split; [|split; [|split]].
  - unfold entails. destruct (calc e k) as [res k']; simpl.
    rewrite bool_decide_eq_true. split.
    + intros H. symmetry. by apply sorted_inj.
    + by intros ->.
  - vm_compute. reflexivity.
  - apply (bool_decide_unpack _). vm_compute. exact I.
  - vm_compute. reflexivity.
Qed.

(** ** The class tag *)

(** C10: [same_type] cannot tell [Diamond] from [Box], both carrying the
    class name ['box']. *)
Theorem same_type_diamond_box (e f : LogicExpression) :
  same_type (Diamond e) (Box f) = true ∧ same_type (Box e) (Diamond f) = true.
Proof. split; reflexivity. Qed.

(** ** The modal operators and the blind-world cache *)

Lemma blind_subseteq_worlds k : blind k ⊆ W k.
Proof. unfold blind. intros w. rewrite elem_of_filter. tauto. Qed.

Lemma cache_sound_subseteq k : cache_sound k → cache_or_blind k ⊆ blind k.
Proof.
  unfold cache_sound, cache_or_blind.
  destruct (cached_blind_worlds k); simpl; [done | set_solver].
Qed.

Lemma cache_declared_subseteq k : cache_declared k → cache_or_blind k ⊆ W k.
Proof.
  unfold cache_declared, cache_or_blind.
  destruct (cached_blind_worlds k); simpl; [done | intros _; apply blind_subseteq_worlds].
Qed.

Lemma diamond_exact_always k e : diamond_exact k e.
Proof.
  intros w. rewrite !calc_fst. simpl. rewrite elem_of_filter.
  split.
  - intros [Hne Hw]. split; [done|].
    apply set_choose_L in Hne as [v Hv]. exists v. set_solver.
  - intros [Hw (v & Hv1 & Hv2)]. split; [set_solver | done].
Qed.

Lemma mutate_cache k m :
  cached_blind_worlds (mutate k m) = cached_blind_worlds k.
Proof.
  destruct m as [var ws|var w|ws|w|ts|t]; simpl;
    unfold add_vals, add_val, add_worlds, add_world, add_trans;
    try done; try (by destruct (dd_get _ _)).
  unfold add_transes. revert k.
  induction ts as [|t ts IH]; intros k; simpl; [done|].
  rewrite IH. unfold add_trans. by destruct (dd_get _ _).
Qed.

Lemma mutations_cache ms : ∀ k,
  cached_blind_worlds (foldl mutate k ms) = cached_blind_worlds k.
Proof.
  induction ms as [|m ms IH]; intros k; simpl; [done|].
  by rewrite IH, mutate_cache.
Qed.

Lemma blind_worlds_stores k :
  cached_blind_worlds (blind_worlds k).2 = Some (blind_worlds k).1.
Proof.
  unfold blind_worlds. destruct (cached_blind_worlds k) eqn:E; simpl; [done|].
  by destruct (comprehension is_empty k).
Qed.

(** C9, as amended: the first call of [blind_worlds] (no cached value) returns
    the blind worlds of the current state; a call that finds a cached value
    returns it; no mutator touches the cache, so after any sequence of
    mutations a later call still returns what the first call returned. *)
Theorem blind_worlds_computed_once (k : Kripke) (ms : list mutation) :
  match cached_blind_worlds k with
  | None => (blind_worlds k).1 = blind k
  | Some c => blind_worlds k = (c, k)
  end ∧
  cached_blind_worlds (foldl mutate k ms) = cached_blind_worlds k ∧
  (blind_worlds (foldl mutate (blind_worlds k).2 ms)).1 = (blind_worlds k).1.
Proof.
  split; [|split].
  - pose proof (blind_worlds_spec k) as [H _]. unfold cache_or_blind in H.
    unfold blind_worlds in *. by destruct (cached_blind_worlds k).
  - apply mutations_cache.
  - pose proof (mutations_cache ms (blind_worlds k).2) as H.
    rewrite blind_worlds_stores in H.
    unfold blind_worlds at 1. by rewrite H.
Qed.

(** C9, as stated, fails: after [add_world], [blind_worlds], [add_trans] the
    world [w] has a successor, but [blind_worlds] still returns it. *)
Lemma blind_worlds_stale_counterexample :
  (blind_worlds stale_model).1 ≠ blind stale_model.
Proof.
  intros H.
  assert ("w" ∈ (blind_worlds stale_model).1) as Hin by (vm_compute; reflexivity).
  rewrite H in Hin. unfold blind in Hin. apply elem_of_filter in Hin as [Hb _].
  assert ("w" ∈ R_at stale_model "w") as Hsucc by (vm_compute; reflexivity).
  rewrite Hb in Hsucc. set_solver.
Qed.

(** ** Results and the declared worlds *)

Lemma valuation_declared_at k p : valuation_declared k → V_at k p ⊆ W k.
Proof.
  intros H. unfold V_at, dd_at. destruct (V k !! p) as [s|] eqn:E; simpl.
  - by apply (H p s).
  - set_solver.
Qed.

Lemma holds_in_subseteq k e :
  valuation_declared k → cache_declared k → holds_in k e ⊆ W k.
Proof.
  intros HV HC. apply cache_declared_subseteq in HC.
  induction e as [l IHl r IHr|l IHl r IHr|l IHl r IHr|e IH|e IH|e IH|n|[|]]; simpl;
    try set_solver.
  all: try (intros w; rewrite elem_of_filter; tauto).
  by apply valuation_declared_at.
Qed.

(** [calc] consults [R] at declared worlds only. *)
Lemma holds_in_agree k k' e :
  W k' = W k → (∀ p, V_at k' p = V_at k p) →
  cached_blind_worlds k' = cached_blind_worlds k →
  (∀ w, w ∈ W k → R_at k' w = R_at k w) →
  holds_in k' e = holds_in k e.
Proof.
  intros HW HV HC HR.
  assert (blind k' = blind k) as HB.
  { unfold blind. rewrite HW. apply set_eq; intros w. rewrite !elem_of_filter.
    split; intros [? ?]; (split; [|done]); [rewrite <- HR | rewrite HR]; done. }
  induction e; simpl; rewrite ?IHe, ?IHe1, ?IHe2, ?HW; try done.
  - unfold cache_or_blind. rewrite HC, HB. f_equal.
    apply set_eq; intros w. rewrite !elem_of_filter.
    split; intros [? ?]; (split; [|done]); [rewrite <- HR | rewrite HR]; done.
  - apply set_eq; intros w. rewrite !elem_of_filter.
    split; intros [? ?]; (split; [|done]); [rewrite <- HR | rewrite HR]; done.
Qed.

Lemma add_trans_view u v k :
  W (add_trans (u, v) k) = W k ∧ V (add_trans (u, v) k) = V k ∧
  cached_blind_worlds (add_trans (u, v) k) = cached_blind_worlds k ∧
  ∀ w, w ≠ u → R_at (add_trans (u, v) k) w = R_at k w.
Proof.
  unfold add_trans; simpl. pose proof (dd_get_snd u (R k)) as H.
  destruct (dd_get u (R k)) as [s d]; simpl in *.
  repeat split. intros w Hne. unfold R_at; simpl. rewrite <- H.
  unfold dd_at. by rewrite lookup_insert_ne.
Qed.

(** C3, as amended: when every valuation set and the cached blind set (if
    any) contain declared worlds only, [calc] returns a subset of the declared
    worlds; and in every model, whatever its valuation and its cache hold, an
    edge that leaves an undeclared world never changes the result. *)
Theorem calc_within_declared_worlds
    (k : Kripke) (e : LogicExpression) (u v : string) :
  (valuation_declared k → cache_declared k → (calc e k).1 ⊆ W k)
  ∧ (u ∉ W k → (calc e (add_trans (u, v) k)).1 = (calc e k).1).
Proof.
  rewrite !calc_fst. split.
  - intros HV HC. by apply holds_in_subseteq.
  - intros Hu. destruct (add_trans_view u v k) as (HW & HVeq & HCeq & HR).
    apply holds_in_agree; try done.
    + intros p. unfold V_at. by rewrite HVeq.
    + intros w Hw. apply HR. by intros ->.
Qed.

Lemma calc_within_declared_worlds_witness :
  (calc (Box (Var "p")) M1_queried).1 ⊆ W M1_queried ∧
  (calc (Box (Var "q")) (add_trans ("u", "w") extra_world_model)).1
  = (calc (Box (Var "q")) extra_world_model).1.
Proof.
  split.
  - apply (calc_within_declared_worlds M1_queried (Box (Var "p")) "u" "w1").
    + apply (bool_decide_unpack _). vm_compute. exact I.
    + apply (bool_decide_unpack _). vm_compute. exact I.
  - apply (calc_within_declared_worlds extra_world_model (Box (Var "q")) "u" "w").
    apply (bool_decide_unpack _). vm_compute. exact I.
Defined.

(** C3, as stated, fails twice: a world named only in a valuation is returned
    by [calc] although it is not declared, and an edge from a declared world
    into an undeclared one removes the declared world from a result. *)
Lemma calc_undeclared_counterexample :
  ¬ (calc (Var "q") undeclared_val_model).1 ⊆ W undeclared_val_model ∧
  W dangling_edge_model = W lone_world_model ∧
  "w" ∈ (calc (Box (Constant true)) lone_world_model).1 ∧
  "w" ∉ (calc (Box (Constant true)) dangling_edge_model).1.
Proof.
  split; [|split; [|split]].
  - intros H. assert ("u" ∈ W undeclared_val_model) as Hin.
    { apply H. vm_compute. reflexivity. }
    revert Hin. apply (bool_decide_unpack _). vm_compute. exact I.
  - reflexivity.
  - vm_compute. reflexivity.
  - apply (bool_decide_unpack _). vm_compute. exact I.
Qed.

(** ** Implication *)

(** C4, as amended: whenever [calc] of the conclusion [b] lies within the
    declared worlds, [Implies a b] and [Or (Not a) b] have the same [calc],
    on the short-circuit path as well. *)
Theorem implies_as_or (k : Kripke) (a b : LogicExpression) :
  (calc b k).1 ⊆ W k →
  (calc (Implies a b) k).1 = (calc (Or (Not a) b) k).1.
Proof.
  rewrite !calc_fst. simpl. intros H.
  apply set_eq; intros w.
  rewrite !elem_of_union, !elem_of_difference, elem_of_intersection.
  destruct (decide (w ∈ holds_in k a)); set_solver.
Qed.

Lemma implies_as_or_witness :
  (calc (Implies (Var "r") (Var "p")) M1).1
  = (calc (Or (Not (Var "r")) (Var "p")) M1).1.
Proof.
  apply (implies_as_or M1 (Var "r") (Var "p")).
  apply (bool_decide_unpack _). vm_compute. exact I.
Defined.

(** C4, as stated, fails when the conclusion holds in an undeclared world:
    with [V(q) = {u}] and no declared world, the implication evaluates to the
    empty set and the disjunction to [{u}]. *)
Lemma implies_as_or_counterexample :
  (calc (Implies (Var "p") (Var "q")) undeclared_val_model).1
  ≠ (calc (Or (Not (Var "p")) (Var "q")) undeclared_val_model).1.
Proof.
  intros H.
  assert ("u" ∈ (calc (Or (Not (Var "p")) (Var "q")) undeclared_val_model).1) as Hin
    by (vm_compute; reflexivity).
  rewrite <- H in Hin. revert Hin.
  apply (bool_decide_unpack _). vm_compute. exact I.
Qed.


(** ** The factory *)

Lemma create_var_const_cases name :
  create_var_const name =
    if bool_decide (lower name ∈ ["true"; "1"]) then Constant true
    else if bool_decide (lower name ∈ ["false"; "0"]) then Constant false
    else Var name.
Proof.
  unfold create_var_const, symbols, true_symbols.
  repeat case_bool_decide; try done; exfalso;
    repeat match goal with
           | H : _ ∈ _ :: _ |- _ => apply elem_of_cons in H as [H|H]
           | H : _ ∈ [] |- _ => by apply elem_of_nil in H
           | H : ¬ (_ ∈ _) |- _ => apply H; set_solver
           | H : lower name = _ |- _ => rewrite H in *; clear H
           end; try done; set_solver.
Qed.

(** C6, where the code departs from the documented behaviour: the names ⊤
    and ⊥ are listed in [true_symbols] and [false_symbols] but not in
    [Constant.symbols], which [create_var_const] consults first, so they are
    made variables and not constants. Every other name is treated as
    documented ([create_var_const_cases]). *)
Theorem create_var_const_top_bottom :
  create_var_const "⊤" = Var "⊤" ∧ create_var_const "⊥" = Var "⊥" ∧
  "⊤" ∈ true_symbols ∧ "⊥" ∈ false_symbols.
Proof.
  repeat split; try reflexivity; unfold true_symbols, false_symbols; set_solver.
Qed.

(** ** Interning *)

Module RepositoryFacts.
Import Repository.

Lemma coherent_empty : coherent empty_repository.
Proof. intros k i. simpl. rewrite lookup_empty, lookup_nil. done. Qed.

Lemma store_coherent k r :
  coherent r → instances r !! k = None → coherent (store k r).2.
Proof.
  intros Hc Hk k' i. simpl. split.
  - intros H. apply lookup_insert_Some in H as [[<- <-] | [Hne H]].
    + by rewrite lookup_app_r, Nat.sub_diag.
    + apply Hc in H. by apply lookup_app_l_Some.
  - intros H. apply lookup_app_Some in H as [H | [Hle H]].
    + rewrite lookup_insert_ne; [by apply Hc|].
      intros <-. apply Hc in H. congruence.
    + apply list_lookup_singleton_Some in H as [Hi <-].
      assert (i = length (objects r)) as -> by lia.
      by rewrite lookup_insert_eq.
Qed.

Lemma store_objects k r i k' :
  objects r !! i = Some k' → objects (store k r).2 !! i = Some k'.
Proof. intros H. simpl. by apply lookup_app_l_Some. Qed.

Lemma store_result k r :
  objects (store k r).2 !! (store k r).1 = Some k.
Proof. simpl. by rewrite lookup_app_r, Nat.sub_diag. Qed.

(** What one call does: the state stays coherent, no object is lost, and the
    instance returned is an object of the class and arguments asked for. *)
Lemma run_spec c r :
  coherent r →
  coherent (run c r).2 ∧
  (∀ i k, objects r !! i = Some k → objects (run c r).2 !! i = Some k) ∧
  (∀ i, (run c r).1 = Ok i →
        ∃ k, requested c = Some k ∧ objects (run c r).2 !! i = Some k).
Proof.
  intros Hc.
  assert (∀ name,
    coherent (create_var_const name r).2 ∧
    (∀ i k, objects r !! i = Some k →
            objects (create_var_const name r).2 !! i = Some k) ∧
    objects (create_var_const name r).2 !! (create_var_const name r).1
      = Some (var_const_key name)) as Hvc.
  { intros name. unfold create_var_const.
    destruct (instances r !! var_const_key name) as [i|] eqn:E.
    - simpl. repeat split; try done. all: try by apply Hc.
    - split; [by apply store_coherent|]. split; [apply store_objects|].
      apply store_result. }
  destruct c as [operator kwargs | name]; unfold run, requested.
  - unfold create_expression. case_bool_decide.
    + destruct kwargs as [|[i|name|b] [|]]; cbn [fst snd];
        try (split; [done | split; [done | by intros ? [=]]]).
      destruct (Hvc name) as (H1 & H2 & H3).
      destruct (create_var_const name r) as [j r'] eqn:E; cbn [fst snd] in *.
      split; [done | split; [done|]]. intros i [= <-]. eauto.
    + destruct (operator_class !! operator) as [constructor|] eqn:Eop;
        cbn [fst snd fmap option_fmap option_map];
        [|split; [done | split; [done | by intros ? [=]]]].
      destruct (instances r !! (constructor, Tuple kwargs)) as [j|] eqn:E;
        cbn [fst snd].
      * split; [done | split; [done|]]. intros i [= <-].
        eexists; split; [done|]. by apply Hc.
      * case_bool_decide; cbn [fst snd];
          [|split; [done | split; [done | by intros ? [=]]]].
        split; [by apply (store_coherent (constructor, Tuple kwargs))|].
        split; [intros i k; apply (store_objects (constructor, Tuple kwargs))|].
        intros i [= <-]. eexists; split; [done|].
        apply (store_result (constructor, Tuple kwargs)).
  - destruct (Hvc name) as (H1 & H2 & H3).
    destruct (create_var_const name r) as [j r'] eqn:E; cbn [fst snd] in *.
    split; [done | split; [done|]]. intros i [= <-]. eauto.
Qed.

Lemma run_all_spec cs : ∀ r,
  coherent r →
  coherent (run_all cs r) ∧
  (∀ i k, objects r !! i = Some k → objects (run_all cs r) !! i = Some k).
Proof.
  induction cs as [|c cs IH]; intros r Hc; simpl; [done|].
  destruct (run_spec c r Hc) as (H1 & H2 & _).
  destruct (IH _ H1) as [H3 H4]. split; [done|]. intros i k Hi. by apply H4, H2.
Qed.

Lemma reachable_coherent r : reachable r → coherent r.
Proof. intros [cs ->]. apply run_all_spec, coherent_empty. Qed.

Lemma denotes_inj r t : coherent r →
  ∀ i j, denotes r i t → denotes r j t → i = j.
Proof.
  intros Hc. induction t; intros i j Hi Hj; inversion Hi; inversion Hj; subst;
    repeat match goal with
           | IH : ∀ i j, denotes r i ?t → denotes r j ?t → i = j,
             H1 : denotes r ?a ?t, H2 : denotes r ?b ?t |- _ =>
               pose proof (IH a b H1 H2); subst; clear H1
           end;
    match goal with
    | H1 : objects r !! i = Some ?k, H2 : objects r !! j = Some ?k |- _ =>
        apply Hc in H1, H2; congruence
    end.
Qed.

Lemma operator_class_classes operator c :
  operator_class !! operator = Some c → c ∈ infix_classes ++ prefix_classes.
Proof.
  assert (map_Forall (λ _ c, c ∈ infix_classes ++ prefix_classes) operator_class) as H.
  { apply (bool_decide_unpack _). vm_compute. exact I. }
  apply H.
Qed.

Lemma var_const_key_shaped name : shaped (var_const_key name).
Proof. unfold var_const_key. by case_bool_decide. Qed.

Lemma run_shaped c r :
  Forall shaped (objects r) → Forall shaped (objects (run c r).2).
Proof.
  intros Hs.
  assert (∀ k, shaped k → Forall shaped (objects (store k r).2)) as Hstore.
  { intros k Hk. simpl. apply Forall_app. split; [done | by constructor]. }
  assert (∀ name, Forall shaped (objects (create_var_const name r).2)) as Hvc.
  { intros name. unfold create_var_const.
    destruct (instances r !! var_const_key name); [done|].
    apply Hstore, var_const_key_shaped. }
  destruct c as [operator kwargs | name]; unfold run.
  - unfold create_expression. case_bool_decide.
    + destruct kwargs as [|[i|name|b] [|]]; try done.
      specialize (Hvc name). by destruct (create_var_const name r).
    + destruct (operator_class !! operator) as [c|] eqn:Eop; [|done].
      destruct (instances r !! (c, Tuple kwargs)); [done|].
      case_bool_decide; [|done].
      apply (Hstore (c, Tuple kwargs)). split; [|done].
      by eapply operator_class_classes.
  - specialize (Hvc name). by destruct (create_var_const name r).
Qed.

Lemma reachable_shaped r : reachable r → Forall shaped (objects r).
Proof.
  intros [cs ->]. unfold run_all.
  assert (Forall shaped (objects empty_repository)) as H by constructor.
  revert H. generalize empty_repository.
  induction cs as [|c cs IH]; intros r H; [done|].
  apply IH, run_shaped, H.
Qed.

(** In a reachable state a call returns an object exactly when it is well
    formed. *)
Lemma run_returns c r :
  reachable r → (∃ i, (run c r).1 = Ok i) ↔ well_formed c.
Proof.
  intros Hr. split.
  - intros [i Hi].
    destruct (run_spec c r (reachable_coherent r Hr)) as (_ & _ & H).
    destruct (H i Hi) as (k & Hk & Ho). exists k. split; [done|].
    pose proof (run_shaped c r (reachable_shaped r Hr)) as Hs.
    rewrite Forall_forall in Hs. by eapply Hs, list_elem_of_lookup_2.
  - intros (k & Hk & Hs). destruct c as [operator kwargs | name]; unfold run.
    + unfold requested in Hk. unfold create_expression.
      case_bool_decide.
      * destruct kwargs as [|[i|name|b] [|]]; try discriminate.
        destruct (create_var_const name r) as [j r']. by exists j.
      * destruct (operator_class !! operator) as [c|]; [|discriminate].
        injection Hk as <-. destruct Hs as [_ Har]. cbn [fst snd] in Har.
        destruct (instances r !! (c, Tuple kwargs)) as [j|]; [by exists j|].
        rewrite bool_decide_true by done.
        destruct (store (c, Tuple kwargs) r) as [j r']. by exists j.
    + destruct (create_var_const name r) as [j r']. by exists j.
Qed.

(** C7: in every state of the module, a well-formed factory call returns an
    instance (and only a well-formed one does); two factory calls (with any
    calls in between) return the same instance exactly when they ask for the
    same node variant with the same arguments; the instance a call returns is
    an object of the variant and arguments it asked for. *)
Theorem interning (r : repository) (c1 c2 : call) (cs : list call)
    (i1 i2 : instance) :
  reachable r →
  ((∃ i, (run c1 r).1 = Ok i) ↔ well_formed c1)
  ∧ ((∃ i, (run c2 (run_all cs (run c1 r).2)).1 = Ok i) ↔ well_formed c2)
  ∧ ((run c1 r).1 = Ok i1 →
     (run c2 (run_all cs (run c1 r).2)).1 = Ok i2 →
     (i1 = i2 ↔ requested c1 = requested c2) ∧
     objects (run c1 r).2 !! i1 = requested c1).
Proof.
  intros Hreach. split; [by apply run_returns|]. split.
  { apply run_returns. destruct Hreach as [cs0 ->].
    exists (cs0 ++ c1 :: cs). unfold run_all. by rewrite foldl_app. }
  apply reachable_coherent in Hreach as Hr. intros E1 E2.
  destruct (run_spec c1 r Hr) as (Hc1 & _ & Hk1).
  destruct (Hk1 _ E1) as (k1 & Hq1 & Ho1).
  destruct (run_all_spec cs _ Hc1) as (Hc2 & Hmono2).
  destruct (run_spec c2 _ Hc2) as (Hc3 & Hmono3 & Hk2).
  destruct (Hk2 _ E2) as (k2 & Hq2 & Ho2).
  pose proof (Hmono3 _ _ (Hmono2 _ _ Ho1)) as Ho1'.
  split; [|congruence]. rewrite Hq1, Hq2. split.
  - intros ->. exact (eq_trans (eq_sym Ho1') Ho2).
  - intros [= ->]. apply Hc3 in Ho1', Ho2.
    assert (Some i1 = Some i2) as [= ->] by exact (eq_trans (eq_sym Ho1') Ho2).
    done.
Qed.

(** Two calls for the conjunction of the objects 0 and 1, through different
    symbols of [And] and with another call in between: both return the
    object 2. *)
Lemma interning_witness :
  let r := run_all [CreateVarConst "a"; CreateVarConst "b"] empty_repository in
  let c1 := CreateExpression "&" [Obj 0; Obj 1] in
  let c2 := CreateExpression "and" [Obj 0; Obj 1] in
  let cs := [CreateExpression "|" [Obj 0; Obj 1]] in
  (run c1 r).1 = Ok 2
  ∧ (run c2 (run_all cs (run c1 r).2)).1 = Ok 2
  ∧ (2 = 2 ↔ requested c1 = requested c2)
  ∧ objects (run c1 r).2 !! 2 = requested c1.
Proof.
  intros r c1 c2 cs.
  assert ((run c1 r).1 = Ok 2) as E1 by (vm_compute; reflexivity).
  assert ((run c2 (run_all cs (run c1 r).2)).1 = Ok 2) as E2
    by (vm_compute; reflexivity).
  split; [exact E1 | split; [exact E2|]].
  apply (interning r c1 c2 cs 2 2); [by eexists | exact E1 | exact E2].
Defined.

Lemma denotes_mono r r' i t :
  (∀ j k, objects r !! j = Some k → objects r' !! j = Some k) →
  denotes r i t → denotes r' i t.
Proof.
  intros Hm. induction 1;
    [eapply denotes_And | eapply denotes_Or | eapply denotes_Implies
    | eapply denotes_Not | eapply denotes_Box | eapply denotes_Diamond
    | eapply denotes_Var | eapply denotes_Constant]; eauto.
Qed.

End RepositoryFacts.

(** *** The factory on objects and the factory on trees agree *)

(** A name is made into the object of the tree [create_var_const] gives. *)
Lemma create_var_const_denotes name r :
  Repository.coherent r →
  Repository.denotes
    (Repository.create_var_const name r).2
    (Repository.create_var_const name r).1
    (create_var_const name).
Proof.
  intros Hc.
  destruct (RepositoryFacts.run_spec (Repository.CreateVarConst name) r Hc)
    as (_ & _ & H).
  unfold Repository.run in H.
  destruct (Repository.create_var_const name r) as [i r'] eqn:E.
  destruct (H i eq_refl) as (k & [= <-] & Ho). cbn [fst snd] in *.
  unfold Repository.var_const_key in Ho. unfold create_var_const.
  case_bool_decide; by constructor.
Qed.

(** An operator applied to objects that denote trees is made into the object
    of the tree [create_expression] gives for these trees. *)
Lemma create_expression_denotes operator r i
    (children : list (Repository.instance * LogicExpression)) :
  let kwargs := Repository.Obj <$> children.*1 in
  Repository.coherent r →
  Forall Repository.shaped (Repository.objects r) →
  Forall (λ c, Repository.denotes r c.1 c.2) children →
  (Repository.create_expression operator kwargs r).1 = Ok i →
  ∃ t, create_expression operator (TExpr <$> children.*2) = Ok (TExpr t) ∧
       Repository.denotes (Repository.create_expression operator kwargs r).2 i t.
Proof.
  intros kwargs Hc Hs Hch E.
  pose (c := Repository.CreateExpression operator kwargs).
  pose proof (RepositoryFacts.run_shaped c r Hs) as Hs'.
  destruct (RepositoryFacts.run_spec c r Hc) as (_ & Hm & H).
  destruct (H i E) as (k & Hk & Ho). subst c. cbn [Repository.run] in *.
  assert (Forall (λ c, Repository.denotes
            (Repository.create_expression operator kwargs r).2 c.1 c.2)
            children) as Hch'.
  { eapply Forall_impl; [exact Hch|].
    intros c. by apply RepositoryFacts.denotes_mono. }
  rewrite Forall_forall in Hs'.
  pose proof (Hs' _ (list_elem_of_lookup_2 _ _ _ Ho)) as Hshape.
  revert Hk Ho Hshape Hch'.
  generalize (Repository.create_expression operator kwargs r).2.
  intros r' Hk Ho Hshape Hch'. subst kwargs.
  unfold Repository.requested in Hk. unfold create_expression.
  case_bool_decide.
  { destruct children as [|[] [|]]; discriminate. }
  destruct (operator_class !! operator) as [c|]; [|discriminate].
  injection Hk as <-. destruct Hshape as [Hin Har].
  rewrite !length_fmap in Har.
  apply list_elem_of_In in Hin. simpl in Hin.
  destruct Hin as [<-|[<-|[<-|[<-|[<-|[<-|[]]]]]]]; simpl in Har;
    destruct children as [|[l tl] [|[r2 tr] [|]]]; try discriminate;
    repeat match goal with
           | H : Forall _ (_ :: _) |- _ => apply Forall_cons in H as [? H]
           end;
    cbn [fmap list_fmap fst snd] in *;
    eexists; (split; [reflexivity|]);
    [eapply Repository.denotes_And | eapply Repository.denotes_Or
    | eapply Repository.denotes_Implies | eapply Repository.denotes_Not
    | eapply Repository.denotes_Box | eapply Repository.denotes_Diamond];
    eauto.
Qed.

(** ** The parsing combinators *)

Lemma tail_of_length rest s :
  tail_of rest s → (String.length rest ≤ String.length s)%nat.
Proof. induction 1; simpl; lia. Qed.

Lemma tail_of_trans a b c : tail_of a b → tail_of b c → tail_of a c.
Proof. intros Hab Hbc. induction Hbc; [done | constructor; auto]. Qed.

Lemma tail_of_lacks c rest s : tail_of rest s → lacks c s → lacks c rest.
Proof. induction 1; simpl; [done | intros [_ ?]; auto]. Qed.

Lemma consumed_trans b1 b2 s r1 r2 :
  consumed b1 s r1 → consumed b2 r1 r2 → consumed (b1 || b2) s r2.
Proof.
  intros [T1 L1] [T2 L2]. split; [by eapply tail_of_trans|].
  apply tail_of_length in T1 as ?, T2 as ?.
  destruct b1, b2; simpl; intros ?; try done; try specialize (L1 eq_refl);
    try specialize (L2 eq_refl); lia.
Qed.

Lemma consumed_weaken b s rest : consumed b s rest → consumed false s rest.
Proof. intros [T _]. by split. Qed.

Lemma skip_whitespace_tail s : tail_of (skip_whitespace s) s.
Proof.
  induction s as [|c s IH]; simpl; [constructor|].
  destruct (is_white c); by constructor.
Qed.

Lemma match_exact_tail lit : ∀ s rest,
  match_exact lit s = Some rest →
  tail_of rest s ∧ String.length rest + String.length lit = String.length s.
Proof.
  induction lit as [|a lit IH]; intros s rest; simpl.
  - intros [= ->]. split; [constructor | lia].
  - destruct s as [|c s]; [done|]. case_bool_decide; [|done].
    intros Hm. apply IH in Hm as [T L]. split; [by constructor | simpl; lia].
Qed.

Lemma match_caseless_tail sym : ∀ s rest,
  match_caseless sym s = Some rest →
  tail_of rest s ∧ String.length rest + String.length sym = String.length s.
Proof.
  induction sym as [|a sym IH]; intros s rest; simpl.
  - intros [= ->]. split; [constructor | lia].
  - destruct s as [|c s]; [done|]. case_bool_decide; [|done].
    intros Hm. apply IH in Hm as [T L]. split; [by constructor | simpl; lia].
Qed.

Lemma span_tail chars : ∀ s w rest,
  span chars s = (w, rest) →
  tail_of rest s ∧ String.length rest + String.length w = String.length s.
Proof.
  induction s as [|c s IH]; intros w rest; simpl.
  - intros [= <- <-]. split; [constructor | done].
  - destruct (chars c).
    + destruct (span chars s) as [w' rest'] eqn:E. intros [= <- <-].
      destruct (IH _ _ eq_refl) as [T L]. split; [by constructor | simpl; lia].
    + intros [= <- <-]. split; [constructor | simpl; lia].
Qed.

Lemma after_whitespace b s rest :
  tail_of rest (skip_whitespace s) →
  (b = true → String.length rest < String.length (skip_whitespace s)) →
  consumed b s rest.
Proof.
  intros T L. pose proof (skip_whitespace_tail s) as Ts.
  split; [by eapply tail_of_trans|]. intros Hb.
  apply tail_of_length in Ts. specialize (L Hb). lia.
Qed.

Lemma Suppress_sound n lit :
  lit ≠ EmptyString → sound n true no_tokens (Suppress lit).
Proof.
  intros Hne s _. unfold Suppress.
  destruct (match_exact lit (skip_whitespace s)) as [rest|] eqn:E; [|by left].
  apply match_exact_tail in E as [T L]. split; [done|].
  apply after_whitespace; [done|]. intros _.
  destruct lit; [done | simpl in L; lia].
Qed.

Lemma Word_sound n chars : sound n true one_text (Word chars).
Proof.
  intros s _. unfold Word.
  destruct (span chars (skip_whitespace s)) as [w rest] eqn:E.
  apply span_tail in E as [T L]. destruct w as [|c w]; [by left|].
  split; [by eexists|]. apply after_whitespace; [done|]. simpl in L. lia.
Qed.

Lemma sound_weaken n b P Q p :
  (∀ toks, P toks → Q toks) → sound n b P p → sound n false Q p.
Proof.
  intros HPQ Hp s Hs. specialize (Hp s Hs).
  destruct (p s) as [[toks rest]|e]; [|done].
  destruct Hp as [HP HC]. split; [auto | by eapply consumed_weaken].
Qed.

Lemma sound_impl n b P Q p :
  (∀ toks, P toks → Q toks) → sound n b P p → sound n b Q p.
Proof.
  intros HPQ Hp s Hs. specialize (Hp s Hs).
  destruct (p s) as [[toks rest]|e]; [|done].
  destruct Hp as [HP HC]. split; auto.
Qed.

Lemma MatchFirst_sound n b P ps :
  Forall (sound n b P) ps → sound n b P (MatchFirst ps).
Proof.
  induction 1 as [|p ps Hp _ IH]; intros s Hs; simpl; [by left|].
  specialize (Hp s Hs). destruct (p s) as [[toks rest]|e]; [done|].
  destruct Hp as [[= ->]|[[= ->] Ho]]; [by apply IH | by right].
Qed.

Lemma match_variant_spec vs : ∀ s low rest,
  match_variant vs s = Some (low, rest) →
  ∃ letter, (letter, low) ∈ vs ∧ match_exact letter s = Some rest.
Proof.
  induction vs as [|[letter low'] vs IH]; intros s low rest; simpl; [done|].
  destruct (match_exact letter s) as [r|] eqn:E.
  - intros [= <- <-]. exists letter. split; [left | done].
  - intros H. destruct (IH _ _ _ H) as (l & Hin & Hm).
    exists l. split; [by right | done].
Qed.

Lemma variants_spec a letter low :
  (letter, low) ∈ variants a →
  letter ≠ EmptyString ∧
  ((letter = kelvin ∧ low = String (lower_char a) "")
   ∨ letter = dotted_I ∨ letter = dotless_i ∨ letter = long_s).
Proof.
  unfold variants. repeat case_bool_decide; intros Hin;
    repeat (apply elem_of_cons in Hin as [[= -> ->]|Hin]);
    try (by apply elem_of_nil in Hin); split; try done; auto.
  left. split; [done | congruence].
Qed.

Lemma within_start letter s rest :
  letter ≠ EmptyString → match_exact letter s = Some rest →
  within letter s = true.
Proof.
  intros Hne Hm. destruct s as [|c s]; [by destruct letter|].
  simpl. rewrite Hm. rewrite bool_decide_true by eauto. done.
Qed.

Lemma within_tail letter rest s :
  tail_of rest s → within letter rest = true → within letter s = true.
Proof.
  induction 1 as [|c s rest _ IH]; [done|]. intros H. simpl.
  rewrite (IH H). apply orb_true_r.
Qed.

Lemma odd_letter_tail rest s :
  tail_of rest s → odd_letter rest = true → odd_letter s = true.
Proof.
  unfold odd_letter. intros T.
  rewrite !orb_true_iff. intros [[H|H]|H];
    eauto using within_tail.
Qed.

Lemma fails_tail {A} e rest s :
  tail_of rest s → fails (@Raise A e) rest → fails (@Raise A e) s.
Proof.
  intros T [H|[H Ho]]; [by left|]. right. split; [done|].
  by eapply odd_letter_tail.
Qed.

Lemma match_letter_spec a s low s1 :
  match_letter a s = Some (low, s1) →
  tail_of s1 s ∧ String.length s1 < String.length s ∧
  (low = String (lower_char a) "" ∨ odd_letter s = true).
Proof.
  unfold match_letter. destruct s as [|c s]; [done|]. case_bool_decide as Hc.
  - intros [= <- <-]. split; [by repeat constructor|].
    split; [simpl; lia|]. left. by rewrite Hc.
  - intros H. apply match_variant_spec in H as (letter & Hin & Hm).
    apply variants_spec in Hin as [Hne Hl].
    destruct (match_exact_tail _ _ _ Hm) as [T L].
    split; [done|]. split; [destruct letter; [done | simpl in L |- *; lia]|].
    destruct Hl as [[_ ->]|Hl]; [by left|]. right. unfold odd_letter.
    rewrite !orb_true_iff.
    destruct Hl as [-> | [-> | ->]]; eauto using within_start.
Qed.

Lemma match_ignorecase_spec sym : ∀ s low rest,
  match_ignorecase sym s = Some (low, rest) →
  tail_of rest s ∧
  (sym ≠ EmptyString → String.length rest < String.length s) ∧
  (low = lower sym ∨ odd_letter s = true).
Proof.
  induction sym as [|a sym IH]; intros s low rest; simpl.
  - intros [= <- <-]. split; [constructor|]. split; [done | by left].
  - destruct (match_letter a s) as [[low1 s1]|] eqn:E1; [|done].
    destruct (match_ignorecase sym s1) as [[lows r]|] eqn:E2; [|done].
    intros [= <- <-]. apply match_letter_spec in E1 as (T1 & L1 & H1).
    apply IH in E2 as (T2 & _ & H2).
    split; [by eapply tail_of_trans|].
    split; [intros _; apply tail_of_length in T2; lia|].
    destruct H1 as [->|H1]; [|by right].
    destruct H2 as [->|H2]; [by left|]. right. by eapply odd_letter_tail.
Qed.

Lemma first_match_spec syms : ∀ s low rest,
  first_match syms s = Some (low, rest) →
  ∃ sym, sym ∈ syms ∧ match_ignorecase sym s = Some (low, rest).
Proof.
  induction syms as [|sym syms IH]; intros s low rest; simpl; [done|].
  destruct (match_ignorecase sym s) as [m|] eqn:E.
  - intros [= ->]. exists sym. split; [left | done].
  - intros H. destruct (IH _ _ _ H) as (sym' & Hin & Hm).
    exists sym'. split; [by right | done].
Qed.

Lemma symbol_map_elem syms key sym :
  symbol_map syms key = Some sym → sym ∈ syms.
Proof.
  induction syms as [|sym' syms IH]; simpl; [done|].
  destruct (symbol_map syms key) as [v|].
  - intros [= ->]. right. by apply IH.
  - case_bool_decide; [|done]. intros [= ->]. left.
Qed.

Lemma symbol_map_lower syms sym :
  sym ∈ syms → is_Some (symbol_map syms (lower sym)).
Proof.
  induction syms as [|sym' syms IH]; [by intros ?%elem_of_nil|].
  intros [->|Hin]%elem_of_cons; simpl.
  - destruct (symbol_map syms (lower sym')); [eauto|].
    rewrite bool_decide_true by done. eauto.
  - destruct (IH Hin) as [v ->]. eauto.
Qed.

Lemma oneOf_sound n syms :
  Forall (λ sym, sym ≠ EmptyString) syms → sound n true (one_of syms) (oneOf syms).
Proof.
  intros Hne s _. unfold oneOf.
  destruct (first_match syms (skip_whitespace s)) as [[low rest]|] eqn:E;
    [|by left].
  apply first_match_spec in E as (sym & Hin & Hm).
  apply match_ignorecase_spec in Hm as (T & L & Hlow).
  rewrite Forall_forall in Hne.
  destruct (symbol_map syms low) as [sym'|] eqn:Em.
  - split; [exists sym'; split; [by eapply symbol_map_elem | done]|].
    apply after_whitespace; [done|]. intros _. by apply L, Hne.
  - right. split; [done|]. destruct Hlow as [->|Ho].
    + destruct (symbol_map_lower syms sym Hin) as [v Hv]. congruence.
    + eapply odd_letter_tail; [apply skip_whitespace_tail | done].
Qed.

Lemma Seq_sound n b1 b2 P Q p q :
  sound n b1 P p → sound n b2 Q q → sound n (b1 || b2) (cat P Q) (Seq p q).
Proof.
  intros Hp Hq s Hs. unfold Seq. specialize (Hp s Hs).
  destruct (p s) as [[t1 r1]|e]; [|done]. destruct Hp as [HP HC1].
  assert (String.length r1 < n) as Hr1.
  { destruct HC1 as [T _]. apply tail_of_length in T. lia. }
  specialize (Hq r1 Hr1). destruct (q r1) as [[t2 r2]|e];
    [|by eapply fails_tail; [apply HC1|]].
  destruct Hq as [HQ HC2]. split; [by exists t1, t2|].
  by eapply consumed_trans.
Qed.

(** After an element that reads at least one character, the next element
    sees a shorter text. *)
Lemma Seq_sound_after n b2 P Q p q :
  sound (S n) true P p → sound n b2 Q q → sound (S n) true (cat P Q) (Seq p q).
Proof.
  intros Hp Hq s Hs. unfold Seq. specialize (Hp s Hs).
  destruct (p s) as [[t1 r1]|e]; [|done]. destruct Hp as [HP HC1].
  assert (String.length r1 < n) as Hr1.
  { destruct HC1 as [_ L]. specialize (L eq_refl). lia. }
  specialize (Hq r1 Hr1). destruct (q r1) as [[t2 r2]|e];
    [|by eapply fails_tail; [apply HC1|]].
  destruct Hq as [HQ HC2]. split; [by exists t1, t2|].
  by apply (consumed_trans true b2 s r1 r2).
Qed.

Lemma ZeroOrMore_loop_sound n P p :
  sound n true P p →
  ∀ fuel s, (String.length s ≤ fuel)%nat → String.length s < n →
    match ZeroOrMore_loop p fuel s with
    | Ok (toks, rest) => star P toks ∧ consumed false s rest
    | Raise e => e = KeyError ∧ odd_letter s = true
    end.
Proof.
  intros Hp. induction fuel as [|fuel IH]; intros s Hf Hs; simpl;
    specialize (Hp s Hs) as Hps; destruct (p s) as [[t1 r1]|e].
  - destruct Hps as [_ [_ L]]. specialize (L eq_refl). lia.
  - destruct Hps as [[= ->]|[[= ->] Ho]]; [|done].
    split; [constructor | split; [constructor | done]].
  - destruct Hps as [HP [T L]]. specialize (L eq_refl).
    assert (String.length r1 ≤ fuel)%nat as H1 by lia.
    assert (String.length r1 < n) as H2 by lia.
    specialize (IH r1 H1 H2).
    destruct (ZeroOrMore_loop p fuel r1) as [[t2 r2]|e].
    + destruct IH as [HS HC]. split; [by constructor|].
      apply (consumed_weaken true), (consumed_trans true false s r1 r2);
        [split; [exact T | intros _; exact L] | exact HC].
    + destruct IH as [-> Ho]. split; [done|]. by eapply odd_letter_tail.
  - destruct Hps as [[= ->]|[[= ->] Ho]]; [|done].
    split; [constructor | split; [constructor | done]].
Qed.

Lemma ZeroOrMore_sound n P p :
  sound n true P p → sound n false (star P) (ZeroOrMore p).
Proof.
  intros Hp s Hs. unfold ZeroOrMore.
  pose proof (ZeroOrMore_loop_sound n P p Hp (String.length s) s (le_n _) Hs) as H.
  destruct (ZeroOrMore_loop p (String.length s) s) as [[toks rest]|e]; [done|].
  destruct H as [-> Ho]. by right.
Qed.

Lemma setParseAction_sound n b P Q fn p :
  (∀ toks, P toks → ∃ v, fn toks = Ok v ∧ Q [v]) →
  sound n b P p → sound n b Q (setParseAction fn p).
Proof.
  intros Hfn Hp s Hs. unfold setParseAction. specialize (Hp s Hs).
  destruct (p s) as [[toks rest]|e]; [|done]. destruct Hp as [HP HC].
  destruct (Hfn _ HP) as (v & -> & HQ). done.
Qed.

(** ** The parse actions *)

Lemma infix_operators_eq :
  infix_operators = symbols class_And ++ symbols class_Or ++ symbols class_Implies.
Proof. reflexivity. Qed.

Lemma prefix_operators_eq :
  prefix_operators = symbols class_Not ++ symbols class_Box ++ symbols class_Diamond.
Proof. reflexivity. Qed.

Ltac each_symbol H :=
  repeat (apply elem_of_cons in H as [->|H]); [..| by apply elem_of_nil in H].

Lemma apply_infix_operator sym l r :
  sym ∈ infix_operators →
  ∃ e, apply_operator (TStr sym) [TExpr l; TExpr r] = Ok (TExpr e).
Proof.
  rewrite infix_operators_eq. unfold symbols. simpl. intros H.
  each_symbol H; vm_compute; eauto.
Qed.

Lemma apply_prefix_operator sym e :
  sym ∈ prefix_operators →
  ∃ e', apply_operator (TStr sym) [TExpr e] = Ok (TExpr e').
Proof.
  rewrite prefix_operators_eq. unfold symbols. simpl. intros H.
  each_symbol H; vm_compute; eauto.
Qed.

Lemma flat_cons a b ps : flat ((a, b) :: ps) = a :: b :: flat ps.
Proof. reflexivity. Qed.

Lemma flat_nil_inv ps : flat ps = [] → ps = [].
Proof. destruct ps as [|[a b] ps]; [done|]. by rewrite flat_cons. Qed.

Lemma every_other_flat ps :
  every_other (flat ps) = ps.*1 ∧
  every_other (drop 1 (flat ps)) = ps.*2.
Proof.
  induction ps as [|[a b] ps [IH1 IH2]]; [done|]. rewrite flat_cons.
  split; [simpl; by rewrite IH1|].
  change (drop 1 (a :: b :: flat ps)) with (b :: flat ps).
  destruct (flat ps) as [|x xs] eqn:E.
  - apply flat_nil_inv in E as ->. done.
  - change (drop 1 (x :: xs)) with xs in IH2.
    change (every_other (b :: x :: xs)) with (b :: every_other xs).
    by rewrite IH2.
Qed.

(** [parse_infix_op] on a first operand followed by operator–operand pairs is
    a fold over the pairs, from the left. *)
Lemma parse_infix_op_flat t0 ps :
  parse_infix_op (t0 :: flat ps) =
  foldl (λ res '(op, rhs), bind res (λ lhs, apply_operator op [lhs; rhs]))
        (Ok t0) ps.
Proof.
  unfold parse_infix_op.
  change (drop 1 (t0 :: flat ps)) with (flat ps).
  change (drop 2 (t0 :: flat ps)) with (drop 1 (flat ps)).
  destruct (every_other_flat ps) as [-> ->]. by rewrite zip_fst_snd.
Qed.

Lemma star_pairs (syms : list string) toks :
  star (cat (one_of syms) one_expr) toks →
  ∃ ps, toks = flat ps ∧
        Forall (λ p, ∃ sym e, sym ∈ syms ∧ p = (TStr sym, TExpr e)) ps.
Proof.
  induction 1 as [|t1 t2 (a & b & -> & (sym & Hsym & ->) & (e & ->)) _ (ps & -> & Hps)].
  - by exists [].
  - exists ((TStr sym, TExpr e) :: ps). split; [done|].
    constructor; [by exists sym, e | done].
Qed.

Lemma star_texts (syms : list string) toks :
  star (one_of syms) toks →
  ∃ ops, toks = TStr <$> ops ∧ Forall (λ sym, sym ∈ syms) ops.
Proof.
  induction 1 as [|t1 t2 (sym & Hsym & ->) _ (ops & -> & Hops)].
  - by exists [].
  - exists (sym :: ops). split; [done | by constructor].
Qed.

Lemma infix_fold_ok (syms : list string) ps :
  (∀ sym, sym ∈ syms → sym ∈ infix_operators) →
  Forall (λ p, ∃ sym e, sym ∈ syms ∧ p = (TStr sym, TExpr e)) ps →
  ∀ e0, ∃ e,
    foldl (λ res '(op, rhs), bind res (λ lhs, apply_operator op [lhs; rhs]))
          (Ok (TExpr e0)) ps = Ok (TExpr e).
Proof.
  intros Hsub. induction 1 as [|p ps (sym & e1 & Hsym & ->) _ IH]; intros e0;
    cbn [foldl bind].
  - by exists e0.
  - destruct (apply_infix_operator sym e0 e1 (Hsub _ Hsym)) as [e' ->]. apply IH.
Qed.

Lemma parse_infix_op_ok (syms : list string) toks :
  (∀ sym, sym ∈ syms → sym ∈ infix_operators) →
  cat one_expr (star (cat (one_of syms) one_expr)) toks →
  ∃ v, parse_infix_op toks = Ok v ∧ one_expr [v].
Proof.
  intros Hsub (t1 & t2 & -> & (e0 & ->) & Hstar).
  apply star_pairs in Hstar as (ps & -> & Hps).
  change ([TExpr e0] ++ flat ps) with (TExpr e0 :: flat ps).
  rewrite parse_infix_op_flat.
  destruct (infix_fold_ok syms ps Hsub Hps e0) as [e ->].
  exists (TExpr e). split; [done | by exists e].
Qed.

Lemma prefix_fold_ok ops :
  Forall (λ sym, sym ∈ prefix_operators) ops →
  ∀ e0, ∃ e,
    foldl (λ res t, bind res (λ r, apply_operator t [r]))
          (Ok (TExpr e0)) (TStr <$> ops) = Ok (TExpr e).
Proof.
  induction 1 as [|sym ops Hsym _ IH]; intros e0;
    cbn [foldl bind fmap list_fmap].
  - by exists e0.
  - destruct (apply_prefix_operator sym e0 Hsym) as [e' ->]. apply IH.
Qed.

Lemma rev_fmap {A B} (g : A → B) (l : list A) : rev (g <$> l) = g <$> rev l.
Proof.
  induction l as [|x l IH]; [done|].
  rewrite fmap_cons. cbn [rev]. by rewrite IH, fmap_app.
Qed.

Lemma parse_prefix_op_ok toks :
  cat (star (one_of prefix_operators)) one_expr toks →
  ∃ v, parse_prefix_op toks = Ok v ∧ one_expr [v].
Proof.
  intros (t1 & t2 & -> & Hstar & (e0 & ->)).
  apply star_texts in Hstar as (ops & -> & Hops).
  unfold parse_prefix_op. rewrite rev_app_distr, rev_fmap.
  change (rev [TExpr e0] ++ (TStr <$> rev ops)) with (TExpr e0 :: (TStr <$> rev ops)).
  apply Forall_rev in Hops.
  destruct (prefix_fold_ok _ Hops e0) as [e He].
  exists (TExpr e). split; [done | by exists e].
Qed.

Lemma varconst_action_ok toks :
  one_text toks → ∃ v, varconst_action toks = Ok v ∧ one_expr [v].
Proof. intros [w ->]. simpl. eexists. split; [done | by eexists]. Qed.

(** ** The grammar *)

(** No symbol of a table hides a later one: [oneOf] keeps the order of every
    table. *)
Lemma tables_no_masking :
  no_masking (symbols class_And) = true ∧ no_masking (symbols class_Or) = true ∧
  no_masking (symbols class_Implies) = true ∧ no_masking prefix_operators = true.
Proof. repeat split; vm_compute; reflexivity. Qed.

Lemma nonempty_symbols :
  Forall (λ sym, sym ≠ EmptyString) (prefix_operators ++ infix_operators).
Proof. repeat constructor; done. Qed.

Lemma and_symbols_infix sym : sym ∈ symbols class_And → sym ∈ infix_operators.
Proof. rewrite infix_operators_eq. set_solver. Qed.
Lemma or_symbols_infix sym : sym ∈ symbols class_Or → sym ∈ infix_operators.
Proof. rewrite infix_operators_eq. set_solver. Qed.
Lemma implies_symbols_infix sym : sym ∈ symbols class_Implies → sym ∈ infix_operators.
Proof. rewrite infix_operators_eq. set_solver. Qed.

Section GrammarSound.

(** The [Forward] is assumed to behave on texts shorter than [n]; the
    productions built on it then behave on texts of length up to [n]. *)
Variable n : nat.
Variable expression : parser.
Hypothesis expression_ok : sound n true one_expr expression.

Lemma varconst_sound m : sound m true one_expr varconst.
Proof.
  unfold varconst. eapply setParseAction_sound; [apply varconst_action_ok|].
  apply Word_sound.
Qed.

Lemma nest_sound : sound (S n) true one_expr (nest expression).
Proof.
  unfold nest.
  eapply sound_impl;
    [|apply (Seq_sound (S n) true true);
      [apply (Seq_sound_after n true); [by apply Suppress_sound | apply expression_ok]
      |by apply Suppress_sound]].
  intros toks (t1 & t2 & -> & (t3 & t4 & -> & -> & [e ->]) & ->). by exists e.
Qed.

Lemma atom_sound : sound (S n) true one_expr (atom expression).
Proof.
  unfold atom. apply MatchFirst_sound.
  repeat constructor; [apply varconst_sound | apply nest_sound].
Qed.

Lemma prefix_op_sound m : sound m true (one_of prefix_operators) prefix_op.
Proof.
  apply oneOf_sound. pose proof nonempty_symbols as H.
  by apply Forall_app in H as [H _].
Qed.

Lemma prefix_expr_sound : sound (S n) true one_expr (prefix_expr expression).
Proof.
  unfold prefix_expr. eapply setParseAction_sound; [apply parse_prefix_op_ok|].
  apply (Seq_sound (S n) false true).
  - apply ZeroOrMore_sound, prefix_op_sound.
  - apply atom_sound.
Qed.

(** One level of infix operators over an operand production. *)
Lemma infix_level_sound (syms : list string) operand :
  (∀ sym, sym ∈ syms → sym ∈ infix_operators) →
  sound (S n) true one_expr operand →
  sound (S n) true one_expr
    (setParseAction parse_infix_op
       (Seq operand (ZeroOrMore (Seq (oneOf syms) operand)))).
Proof.
  intros Hsub Hop.
  eapply setParseAction_sound;
    [intros toks; apply (parse_infix_op_ok syms toks Hsub)|].
  apply (Seq_sound (S n) true false); [done|].
  apply ZeroOrMore_sound. apply (Seq_sound (S n) true true); [|done].
  apply oneOf_sound. pose proof nonempty_symbols as H.
  apply Forall_app in H as [_ H]. rewrite Forall_forall in H |- *. auto.
Qed.

Lemma and_expr_sound : sound (S n) true one_expr (and_expr expression).
Proof. apply infix_level_sound; [apply and_symbols_infix | apply prefix_expr_sound]. Qed.

Lemma or_expr_sound : sound (S n) true one_expr (or_expr expression).
Proof. apply infix_level_sound; [apply or_symbols_infix | apply and_expr_sound]. Qed.

Lemma expression_body_sound :
  sound (S n) true one_expr (expression_body expression).
Proof. apply infix_level_sound; [apply implies_symbols_infix | apply or_expr_sound]. Qed.

End GrammarSound.

(** With fuel [n] the grammar behaves on every text shorter than [n]: the
    bound is never met. *)
Lemma expression_sound fuel : sound fuel true one_expr (expression fuel).
Proof.
  induction fuel as [|fuel IH]; [intros s Hs; lia|].
  simpl. by apply expression_body_sound.
Qed.

(** [parse] returns a node or raises [ParseException], or raises the
    [KeyError] of [oneOf] on a text with an odd letter, on every text. *)
Lemma parse_total s :
  (∃ e, parse s = Ok (TExpr e)) ∨ fails (parse s) s.
Proof.
  unfold parse, bnf.
  pose proof (expression_sound (S (String.length s)) s (Nat.lt_succ_diag_r _)) as H.
  destruct (expression (S (String.length s)) s) as [[toks rest]|e].
  - destruct H as [[e ->] _]. left. by exists e.
  - right. destruct H as [[= ->]|[[= ->] Ho]]; [by left | by right].
Qed.

(** ** Parsing: chains of infix operators *)

(** C5: [parse_infix_op] nests a chain to the left, whatever the operators
    are: the last operator of the chain is applied to the result of the
    chain before it and to the last operand. For every infix symbol the
    parser reads a chain of three operands as the left-nested tree and not as
    the right-nested one; ["a -> b -> c"] is [Implies (Implies a b) c], and
    ["a & b & c"] is the tree of ["(a & b) & c"]. *)
Theorem infix_chain_left_fold (t0 op rhs : token) (ps : list (token * token)) :
  parse_infix_op (t0 :: flat (ps ++ [(op, rhs)]))
    = bind (parse_infix_op (t0 :: flat ps))
           (λ lhs, apply_operator op [lhs; rhs])
  ∧ Forall (λ sym,
      (∃ e, parse ("a " +:+ sym +:+ " b " +:+ sym +:+ " c") = Ok (TExpr e))
      ∧ parse ("a " +:+ sym +:+ " b " +:+ sym +:+ " c")
        = parse ("(a " +:+ sym +:+ " b) " +:+ sym +:+ " c")
      ∧ parse ("a " +:+ sym +:+ " b " +:+ sym +:+ " c")
        ≠ parse ("a " +:+ sym +:+ " (b " +:+ sym +:+ " c)"))
      infix_operators
  ∧ parse "a -> b -> c"
    = Ok (TExpr (Implies (Implies (Var "a") (Var "b")) (Var "c")))
  ∧ parse "a & b & c" = parse "(a & b) & c"
  ∧ parse "a & b & c" = Ok (TExpr (And (And (Var "a") (Var "b")) (Var "c"))).
Proof.
  split; [|split; [|split; [|split]]].
  - rewrite !parse_infix_op_flat. by rewrite foldl_app.
  - rewrite infix_operators_eq. unfold symbols.
    repeat constructor; try (vm_compute; eauto; done);
      vm_compute; intros [=].
  - vm_compute. reflexivity.
  - vm_compute. reflexivity.
  - vm_compute. reflexivity.
Qed.

(** ** Parsing: errors *)

Lemma ZeroOrMore_none p s :
  p s = Raise ParseException → ZeroOrMore p s = Ok ([], s).
Proof.
  intros H. unfold ZeroOrMore. destruct (String.length s); simpl; by rewrite H.
Qed.

Lemma oneOf_fails syms s :
  Forall (λ sym, match_ignorecase sym (skip_whitespace s) = None) syms →
  oneOf syms s = Raise ParseException.
Proof.
  intros H. unfold oneOf.
  assert (first_match syms (skip_whitespace s) = None) as ->; [|done].
  induction H as [|sym syms Hsym _ IH]; [done|]. simpl. by rewrite Hsym.
Qed.

Lemma match_ignorecase_starts sym c s :
  starts sym c = false → sym ≠ EmptyString →
  match_ignorecase sym (String c s) = None.
Proof.
  destruct sym as [|a sym]; [done|]. intros H _.
  cbn [match_ignorecase match_letter]. cbn [starts] in H.
  apply orb_false_iff in H as [H1 H2]. rewrite H1.
  assert (match_variant (variants a) (String c s) = None) as ->; [|done].
  revert H2. unfold variants, dotted_I, dotless_i, long_s, kelvin.
  repeat case_bool_decide; cbn [existsb fst match_variant match_exact];
    rewrite ?orb_false_iff; intros; destruct_and?;
    repeat match goal with
           | H : bool_decide _ = false |- _ => rewrite H; clear H
           end; done.
Qed.

Lemma match_ignorecase_empty sym :
  sym ≠ EmptyString → match_ignorecase sym EmptyString = None.
Proof. by destruct sym. Qed.

(** No symbol of [syms] can begin at the start of the text: [oneOf] fails
    to match. *)
Lemma oneOf_fails_on syms s :
  Forall (λ sym, sym ≠ EmptyString) syms →
  match skip_whitespace s with
  | EmptyString => True
  | String c _ => existsb (λ sym, starts sym c) syms = false
  end →
  oneOf syms s = Raise ParseException.
Proof.
  intros Hne H. apply oneOf_fails.
  destruct (skip_whitespace s) as [|c s'].
  - eapply Forall_impl; [exact Hne|]. intros sym. apply match_ignorecase_empty.
  - rewrite Forall_forall in Hne |- *. intros sym Hin.
    apply match_ignorecase_starts; [|by apply Hne].
    destruct (starts sym c) eqn:E; [|done].
    assert (existsb (λ sym, starts sym c) syms = true) as Ht.
    { apply existsb_exists. exists sym. split; [by apply list_elem_of_In | done]. }
    congruence.
Qed.

Lemma prefix_op_fails_on s :
  match skip_whitespace s with
  | EmptyString => True
  | String c _ => existsb (λ sym, starts sym c) prefix_operators = false
  end →
  prefix_op s = Raise ParseException.
Proof.
  apply oneOf_fails_on. pose proof nonempty_symbols as Hne.
  by apply Forall_app in Hne as [Hne _].
Qed.

(** Whatever follows, the grammar raises what its first operand raises. *)
Lemma infix_level_raises sym_p operand s e :
  operand s = Raise e →
  setParseAction parse_infix_op
    (Seq operand (ZeroOrMore (Seq sym_p operand))) s = Raise e.
Proof. intros H. unfold setParseAction, Seq. by rewrite H. Qed.

Lemma expression_body_raises expr s e :
  Seq (ZeroOrMore prefix_op) (atom expr) s = Raise e →
  expression_body expr s = Raise e.
Proof.
  intros H. unfold expression_body, or_expr, and_expr.
  do 3 apply infix_level_raises. unfold prefix_expr, setParseAction.
  by rewrite H.
Qed.

Lemma parse_raises s e :
  expression_body (expression (String.length s)) s = Raise e →
  parse s = Raise e.
Proof. unfold parse, bnf. cbn [expression]. by intros ->. Qed.

(** *** Parentheses *)

Lemma closed_skip_whitespace s d : closed d (skip_whitespace s) = closed d s.
Proof.
  induction s as [|c s IH]; [done|]. simpl.
  destruct (is_white c) eqn:E; [|done]. rewrite IH.
  unfold is_white in E. apply bool_decide_eq_true in E.
  repeat (apply elem_of_cons in E as [->|E]); [done..|].
  by apply elem_of_nil in E.
Qed.

Lemma lacks_closed s : lacks ")"%char s → ∀ d, closed d s = false.
Proof.
  induction s as [|c s IH]; [done|]. intros [Hc Hl] d. simpl.
  rewrite bool_decide_false by done. case_bool_decide; by apply IH.
Qed.

Lemma closed_other c s d :
  c ≠ "("%char → c ≠ ")"%char → closed d (String c s) = closed d s.
Proof. intros H1 H2. simpl. by rewrite !bool_decide_false. Qed.

Lemma match_exact_closed lit : ∀ s rest,
  match_exact lit s = Some rest →
  lacks "("%char lit → lacks ")"%char lit →
  ∀ d, closed d s = closed d rest.
Proof.
  induction lit as [|a lit IH]; intros s rest; simpl.
  - by intros [= ->].
  - destruct s as [|c s]; [done|]. case_bool_decide as Hc; [subst c|done].
    intros Hm [H1 Hl1] [H2 Hl2] d. rewrite closed_other by done. by eapply IH.
Qed.

Lemma lower_char_paren a c :
  c = "("%char ∨ c = ")"%char → lower_char a = lower_char c → a = c.
Proof.
  intros [-> | ->]; destruct a as [[] [] [] [] [] [] [] []];
    vm_compute; congruence.
Qed.

Lemma match_letter_closed a s low s1 :
  match_letter a s = Some (low, s1) →
  a ≠ "("%char → a ≠ ")"%char →
  ∀ d, closed d s = closed d s1.
Proof.
  unfold match_letter. destruct s as [|c s]; [done|].
  intros H H1 H2 d. case_bool_decide as Hc.
  - injection H as <- <-. apply closed_other.
    + intros ->. apply H1. apply (lower_char_paren a "("); auto.
    + intros ->. apply H2. apply (lower_char_paren a ")"); auto.
  - apply match_variant_spec in H as (letter & Hin & Hm).
    eapply match_exact_closed; [exact Hm|..];
      unfold variants in Hin; repeat case_bool_decide;
      repeat (apply elem_of_cons in Hin as [[= -> ->]|Hin]);
      try (by apply elem_of_nil in Hin); simpl; repeat split; discriminate.
Qed.

Lemma match_ignorecase_closed sym : ∀ s low rest,
  match_ignorecase sym s = Some (low, rest) →
  lacks "("%char sym → lacks ")"%char sym →
  ∀ d, closed d s = closed d rest.
Proof.
  induction sym as [|a sym IH]; intros s low rest; simpl.
  - by intros [= <- <-].
  - destruct (match_letter a s) as [[low1 s1]|] eqn:E1; [|done].
    destruct (match_ignorecase sym s1) as [[lows r]|] eqn:E2; [|done].
    intros [= <- <-] [H1 Hl1] [H2 Hl2] d.
    rewrite (match_letter_closed _ _ _ _ E1) by done. by eapply IH.
Qed.

Lemma symbols_lack_parentheses :
  Forall (λ sym, lacks "("%char sym ∧ lacks ")"%char sym)
         (prefix_operators ++ infix_operators).
Proof. repeat constructor; discriminate. Qed.

Lemma oneOf_keeps_depth syms :
  Forall (λ sym, lacks "("%char sym ∧ lacks ")"%char sym) syms →
  keeps_depth (oneOf syms).
Proof.
  intros Hl s toks rest. unfold oneOf.
  destruct (first_match syms (skip_whitespace s)) as [[low r]|] eqn:E; [|done].
  destruct (symbol_map syms low); [|done]. intros [= <- <-] d.
  apply first_match_spec in E as (sym & Hin & Hm).
  rewrite Forall_forall in Hl. destruct (Hl sym Hin) as [H1 H2].
  rewrite <- (closed_skip_whitespace s).
  by eapply match_ignorecase_closed.
Qed.

Lemma span_closed : ∀ s w rest,
  span alphas_underscore s = (w, rest) → ∀ d, closed d s = closed d rest.
Proof.
  induction s as [|c s IH]; intros w rest; simpl.
  - by intros [= <- <-].
  - destruct (alphas_underscore c) eqn:Ec.
    + destruct (span alphas_underscore s) as [w' rest'] eqn:E.
      intros [= <- <-] d. rewrite <- (IH _ _ eq_refl).
      apply (closed_other c s d); by intros ->.
    + by intros [= <- <-].
Qed.

Lemma Word_keeps_depth : keeps_depth (Word alphas_underscore).
Proof.
  intros s toks rest. unfold Word.
  destruct (span alphas_underscore (skip_whitespace s)) as [w r] eqn:E.
  destruct w; [done|]. intros [= <- <-] d.
  rewrite <- (closed_skip_whitespace s). by eapply span_closed.
Qed.

Lemma Suppress_open s toks rest :
  Suppress "(" s = Ok (toks, rest) →
  skip_whitespace s = String "(" rest ∧ ∀ d, closed d s = closed (S d) rest.
Proof.
  unfold Suppress. destruct (skip_whitespace s) as [|c s'] eqn:E; [done|].
  simpl. case_bool_decide as Hc; [subst c|done]. intros [= <- <-].
  split; [done|]. intros d.
  by rewrite <- (closed_skip_whitespace s), E.
Qed.

Lemma Suppress_close s toks rest :
  Suppress ")" s = Ok (toks, rest) →
  skip_whitespace s = String ")" rest ∧ closed 0 s = true
  ∧ ∀ d, closed (S d) s = closed d rest.
Proof.
  unfold Suppress. destruct (skip_whitespace s) as [|c s'] eqn:E; [done|].
  simpl. case_bool_decide as Hc; [subst c|done]. intros [= <- <-].
  split; [done|]. split; [|intros d];
    by rewrite <- (closed_skip_whitespace s), E.
Qed.

Lemma Seq_keeps_depth p q :
  keeps_depth p → keeps_depth q → keeps_depth (Seq p q).
Proof.
  intros Hp Hq s toks rest. unfold Seq.
  destruct (p s) as [[t1 r1]|] eqn:E1; [|done].
  destruct (q r1) as [[t2 r2]|] eqn:E2; [|done].
  intros [= <- <-] d. rewrite (Hp _ _ _ E1). by eapply Hq.
Qed.

Lemma MatchFirst_keeps_depth ps :
  Forall keeps_depth ps → keeps_depth (MatchFirst ps).
Proof.
  induction 1 as [|p ps Hp _ IH]; intros s toks rest; simpl; [done|].
  destruct (p s) as [[t r]|[]] eqn:E; try done.
  - intros [= <- <-]. by eapply Hp.
  - apply IH.
  - apply IH.
Qed.

Lemma setParseAction_keeps_depth fn p :
  keeps_depth p → keeps_depth (setParseAction fn p).
Proof.
  intros Hp s toks rest. unfold setParseAction.
  destruct (p s) as [[t r]|] eqn:E; [|done].
  destruct (fn t); [|done]. intros [= <- <-]. by eapply Hp.
Qed.

Lemma ZeroOrMore_loop_keeps_depth p n :
  keeps_depth p → keeps_depth (ZeroOrMore_loop p n).
Proof.
  intros Hp. induction n as [|n IH]; intros s toks rest; simpl;
    destruct (p s) as [[t1 r1]|[]] eqn:E; try done;
    try (by intros [= <- <-]).
  destruct (ZeroOrMore_loop p n r1) as [[t2 r2]|] eqn:E2; [|done].
  intros [= <- <-] d. rewrite (Hp _ _ _ E). by eapply IH.
Qed.

Lemma ZeroOrMore_keeps_depth p : keeps_depth p → keeps_depth (ZeroOrMore p).
Proof. intros Hp s toks rest. by apply ZeroOrMore_loop_keeps_depth. Qed.

Lemma symbols_keep_depth :
  keeps_depth prefix_op ∧ keeps_depth and_symbol ∧ keeps_depth or_symbol
  ∧ keeps_depth impl_symbol.
Proof.
  pose proof symbols_lack_parentheses as H.
  apply Forall_app in H as [Hp Hi]. rewrite infix_operators_eq in Hi.
  apply Forall_app in Hi as [Ha Hi]. apply Forall_app in Hi as [Ho Hi].
  repeat split; by apply oneOf_keeps_depth.
Qed.

Lemma nest_keeps_depth X : keeps_depth X → keeps_depth (nest X).
Proof.
  intros HX s toks rest. unfold nest, Seq.
  destruct (Suppress "(" s) as [[t1 r1]|] eqn:E1; [|done].
  destruct (X r1) as [[t2 r2]|] eqn:E2; [|done].
  destruct (Suppress ")" r2) as [[t3 r3]|] eqn:E3; [|done].
  intros [= <- <-] d.
  apply Suppress_open in E1 as [_ ->]. rewrite (HX _ _ _ E2).
  by apply Suppress_close in E3 as (_ & _ & ->).
Qed.

Lemma expression_body_keeps_depth X :
  keeps_depth X → keeps_depth (expression_body X).
Proof.
  intros HX. destruct symbols_keep_depth as (Hp & Ha & Ho & Hi).
  assert (keeps_depth (prefix_expr X)) as H1.
  { apply setParseAction_keeps_depth, Seq_keeps_depth.
    - by apply ZeroOrMore_keeps_depth.
    - apply MatchFirst_keeps_depth. repeat constructor.
      + apply setParseAction_keeps_depth, Word_keeps_depth.
      + by apply nest_keeps_depth. }
  assert (∀ sym_p operand, keeps_depth sym_p → keeps_depth operand →
    keeps_depth (setParseAction parse_infix_op
                   (Seq operand (ZeroOrMore (Seq sym_p operand))))) as Hlevel.
  { intros sym_p operand Hs Hop.
    apply setParseAction_keeps_depth, Seq_keeps_depth; [done|].
    by apply ZeroOrMore_keeps_depth, Seq_keeps_depth. }
  unfold expression_body, or_expr, and_expr. auto.
Qed.

(** What [expression] reads holds as many closing as opening parentheses,
    and closes none that it did not open. *)
Lemma expression_keeps_depth fuel : keeps_depth (expression fuel).
Proof.
  induction fuel as [|fuel IH]; [done|].
  simpl. by apply expression_body_keeps_depth.
Qed.

(** *** Texts without an operand at the start *)

Lemma prefix_run_atom X n s :
  prefix_op s = Raise ParseException →
  Seq (ZeroOrMore_loop prefix_op n) (atom X) s
  = match atom X s with
    | Ok (t2, r2) => Ok (t2, r2)
    | Raise e => Raise e
    end.
Proof.
  intros H. unfold Seq. destruct n; cbn [ZeroOrMore_loop]; by rewrite H.
Qed.

Lemma prefix_run_operator X n s toks rest e :
  prefix_op s = Ok (toks, rest) →
  Seq (ZeroOrMore_loop prefix_op n) (atom X) rest = Raise e →
  Seq (ZeroOrMore_loop prefix_op (S n)) (atom X) s = Raise e.
Proof.
  intros Hp. unfold Seq. cbn [ZeroOrMore_loop]. rewrite Hp.
  destruct (ZeroOrMore_loop prefix_op n rest) as [[t2 r2]|]; [|by intros [= ->]].
  by destruct (atom X r2) as [[t3 r3]|].
Qed.

Lemma atom_nest X s :
  Word alphas_underscore s = Raise ParseException →
  ∀ e, nest X s = Raise e → fails (nest X s) s → fails (atom X s) s.
Proof.
  intros Hw e He Hf. unfold atom, varconst, setParseAction. cbn [MatchFirst].
  rewrite Hw. rewrite He in Hf |- *.
  destruct Hf as [[= ->]|[[= ->] Ho]]; [by left | by right].
Qed.

Lemma atom_fails expr s :
  Word alphas_underscore s = Raise ParseException →
  nest expr s = Raise ParseException →
  atom expr s = Raise ParseException.
Proof.
  intros Hw Hn. unfold atom, varconst, setParseAction. cbn [MatchFirst].
  by rewrite Hw, Hn.
Qed.

(** An opening parenthesis: no prefix operator and no name begins with
    it. *)
Lemma parenthesis_ahead s s' :
  skip_whitespace s = String "(" s' →
  prefix_op s = Raise ParseException
  ∧ Word alphas_underscore s = Raise ParseException
  ∧ Suppress "(" s = Ok ([], s')
  ∧ String.length s' < String.length s.
Proof.
  intros Es. split; [|split; [|split]].
  - apply prefix_op_fails_on. rewrite Es. vm_compute. reflexivity.
  - unfold Word. by rewrite Es.
  - unfold Suppress. by rewrite Es.
  - pose proof (skip_whitespace_tail s) as T. rewrite Es in T.
    apply tail_of_length in T. simpl in T. lia.
Qed.

(** Inside a parenthesis that is never closed, whatever [expression] reads,
    no closing parenthesis follows. *)
Lemma nest_unclosed F s s' :
  skip_whitespace s = String "(" s' → closed 0 s' = false →
  String.length s' < F →
  ∃ e, nest (expression F) s = Raise e ∧ fails (nest (expression F) s) s.
Proof.
  intros Es Hc HF. destruct (parenthesis_ahead s s' Es) as (_ & _ & Ho & Hl).
  assert (tail_of s' s) as Ts.
  { pose proof (skip_whitespace_tail s) as T. rewrite Es in T.
    eapply tail_of_trans; [|exact T]. repeat constructor. }
  unfold nest, Seq. rewrite Ho.
  pose proof (expression_sound F s' HF) as Hs.
  pose proof (expression_keeps_depth F s') as Hk.
  destruct (expression F s') as [[toks rest]|e].
  - specialize (Hk _ _ eq_refl 0). rewrite Hc in Hk.
    destruct (Suppress ")" rest) as [[t3 r3]|e] eqn:E3.
    + apply Suppress_close in E3 as (_ & E3 & _). congruence.
    + unfold Suppress in E3.
      destruct (match_exact ")" (skip_whitespace rest)); [done|].
      injection E3 as <-. exists ParseException. split; [done | by left].
  - exists e. split; [done|]. by eapply fails_tail.
Qed.

Lemma unreadable_fails s :
  unreadable s →
  ∀ n F, (String.length s ≤ n)%nat → (String.length s ≤ F)%nat →
    ∃ e, Seq (ZeroOrMore_loop prefix_op n) (atom (expression F)) s = Raise e
         ∧ fails (@Raise (list token * string) e) s.
Proof.
  induction 1 as [s H|s toks rest Hp _ IH|s s' Es _ IH|s s' Es Hc];
    intros n F Hn HF.
  - unfold no_operand_ahead in H.
    destruct (skip_whitespace s) as [|c s'] eqn:Es.
    + exists ParseException. split; [|by left].
      assert (prefix_op s = Raise ParseException) as Hp
        by (apply prefix_op_fails_on; rewrite Es; done).
      rewrite (prefix_run_atom (expression F) n s Hp).
      rewrite (atom_fails (expression F) s); [done|..].
      * unfold Word. by rewrite Es.
      * unfold nest, Seq, Suppress. by rewrite Es.
    + destruct H as [H | [-> Hl]].
      * unfold opens_operand in H.
        apply orb_false_elim in H as [H Hp]. apply orb_false_elim in H as [Hal Hc].
        exists ParseException. split; [|by left].
        assert (prefix_op s = Raise ParseException) as Hp'
          by (apply prefix_op_fails_on; rewrite Es; done).
        rewrite (prefix_run_atom (expression F) n s Hp').
        rewrite (atom_fails (expression F) s); [done|..].
        -- unfold Word. rewrite Es. simpl. by rewrite Hal.
        -- unfold nest, Seq, Suppress. rewrite Es. simpl.
           by rewrite Hc.
      * destruct (parenthesis_ahead s s' Es) as (Hp & Hw & _ & Hl').
        destruct (nest_unclosed F s s' Es (lacks_closed _ Hl 0) ltac:(lia))
          as (e & He & Hf).
        pose proof (atom_nest _ _ Hw e He Hf) as Ha.
        rewrite (prefix_run_atom (expression F) n s Hp).
        destruct Ha as [Ha|[Ha Ho]]; rewrite Ha; eexists;
          (split; [done|]); [by left | by right].
  - pose proof (prefix_op_sound (S (String.length s)) s (Nat.lt_succ_diag_r _))
      as Hs.
    rewrite Hp in Hs. destruct Hs as [_ [T L]]. specialize (L eq_refl).
    destruct n as [|n]; [lia|].
    destruct (IH n F ltac:(lia) ltac:(lia)) as (e & He & Hf).
    exists e. split; [by eapply prefix_run_operator|]. by eapply fails_tail.
  - destruct (parenthesis_ahead s s' Es) as (Hp & Hw & Ho & Hl).
    destruct F as [|F]; [lia|].
    destruct (IH (String.length s') F (le_n _) ltac:(lia)) as (e & He & Hf).
    assert (tail_of s' s) as Ts.
    { pose proof (skip_whitespace_tail s) as T. rewrite Es in T.
      eapply tail_of_trans; [|exact T]. repeat constructor. }
    assert (nest (expression (S F)) s = Raise e) as Hnest.
    { unfold nest, Seq. rewrite Ho. cbn [expression].
      by rewrite (expression_body_raises _ _ _ He). }
    assert (fails (nest (expression (S F)) s) s) as Hfn.
    { rewrite Hnest. by eapply fails_tail. }
    pose proof (atom_nest _ _ Hw e Hnest Hfn) as Ha.
    rewrite (prefix_run_atom (expression (S F)) n s Hp).
    destruct Ha as [Ha|[Ha Ho']]; rewrite Ha; eexists;
      (split; [done|]); [by left | by right].
  - destruct (parenthesis_ahead s s' Es) as (Hp & Hw & _ & Hl).
    destruct (nest_unclosed F s s' Es Hc ltac:(lia)) as (e & He & Hf).
    pose proof (atom_nest _ _ Hw e He Hf) as Ha.
    rewrite (prefix_run_atom (expression F) n s Hp).
    destruct Ha as [Ha|[Ha Ho]]; rewrite Ha; eexists;
      (split; [done|]); [by left | by right].
Qed.

(** [parse] returns no node when no operand can be read at the start. *)
Lemma parse_unreadable s : unreadable s → fails (parse s) s.
Proof.
  intros H.
  destruct (unreadable_fails s H (String.length s) (String.length s)
              (le_n _) (le_n _)) as (e & He & Hf).
  rewrite (parse_raises s e); [by destruct Hf as [[= ->]|[[= ->] ?]];
                                  [left | right]|].
  by apply expression_body_raises.
Qed.

(* ================================================================== *)
(** * Further properties of the model and of evaluation *)
(* ================================================================== *)

(** ** Laws of evaluation *)

(** X1: negating twice gives back the result cut down to the declared
    worlds. *)
Theorem calc_Not_Not (k : Kripke) (e : LogicExpression) :
  (calc (Not (Not e)) k).1 = (calc e k).1 ∩ W k.
Proof.
  rewrite !calc_fst. simpl. apply set_eq; intros w.
  rewrite !elem_of_difference, elem_of_intersection.
  destruct (decide (w ∈ holds_in k e)); set_solver.
Qed.

(** X2: De Morgan's laws hold for every model. *)
Theorem calc_De_Morgan (k : Kripke) (a b : LogicExpression) :
  (calc (Not (And a b)) k).1 = (calc (Or (Not a) (Not b)) k).1 ∧
  (calc (Not (Or a b)) k).1 = (calc (And (Not a) (Not b)) k).1.
Proof.
  rewrite !calc_fst. simpl. split; apply set_eq; intros w;
    rewrite ?elem_of_difference, ?elem_of_union, ?elem_of_intersection,
      ?elem_of_difference, ?elem_of_union, ?elem_of_intersection;
    destruct (decide (w ∈ holds_in k a)), (decide (w ∈ holds_in k b)); tauto.
Qed.

(** X3: [Box] distributes over [And] and [Diamond] over [Or], for every
    model, whatever the cache holds. *)
Theorem calc_modal_distribution (k : Kripke) (a b : LogicExpression) :
  (calc (Box (And a b)) k).1 = (calc (And (Box a) (Box b)) k).1 ∧
  (calc (Diamond (Or a b)) k).1 = (calc (Or (Diamond a) (Diamond b)) k).1.
Proof.
  rewrite !calc_fst. simpl. split; apply set_eq; intros w.
  - rewrite !elem_of_intersection, !elem_of_union, !elem_of_filter.
    split.
    + intros [[Hs Hw] | Hc]; [|tauto]. split; left; split; set_solver.
    + intros [[[Ha Hw] | Hc] [[Hb Hw'] | Hc']]; try tauto.
      left. split; [set_solver | done].
  - rewrite !elem_of_union, !elem_of_filter. split.
    + intros [Hne Hw]. apply set_choose_L in Hne as [v Hv].
      apply elem_of_intersection in Hv as [Hv1 Hv2].
      apply elem_of_union in Hv2 as [Hv2 | Hv2]; [left | right];
        (split; [|done]); set_solver.
    + intros [[Hne Hw] | [Hne Hw]]; (split; [|done]);
        apply set_choose_L in Hne as [v Hv]; set_solver.
Qed.

(** X4: when the successors of declared worlds are declared and the cache, if
    set, holds blind worlds only, [Box e] is the dual of [Diamond]: it
    evaluates like [Not (Diamond (Not e))]. *)
Theorem calc_Box_dual (k : Kripke) (e : LogicExpression) :
  relation_declared k → cache_sound k →
  (calc (Box e) k).1 = (calc (Not (Diamond (Not e))) k).1.
Proof.
  intros HR HC%cache_sound_subseteq. rewrite !calc_fst. simpl.
  apply set_eq; intros w.
  rewrite elem_of_union, elem_of_difference, !elem_of_filter. split.
  - intros [[Hs Hw] | Hc].
    + split; [done|]. intros [Hne _]. apply Hne. set_solver.
    + apply HC in Hc. unfold blind in Hc. apply elem_of_filter in Hc as [Hb Hw].
      split; [done|]. intros [Hne _]. apply Hne. rewrite Hb. set_solver.
  - intros [Hw Hn]. left. split; [|done]. intros v Hv.
    destruct (decide (v ∈ holds_in k e)) as [|Hnv]; [done|].
    exfalso. apply Hn. split; [|done].
    assert (v ∈ W k) by (by apply (HR w Hw)). set_solver.
Qed.

Lemma calc_Box_dual_witness :
  (calc (Box (Var "p")) M1_queried).1
  = (calc (Not (Diamond (Not (Var "p")))) M1_queried).1.
Proof.
  apply (calc_Box_dual M1_queried (Var "p")).
  - apply (bool_decide_unpack _). vm_compute. exact I.
  - apply (bool_decide_unpack _). vm_compute. exact I.
Defined.

Lemma entails_true k e : (entails k e).1 = true ↔ holds_in k e = W k.
Proof.
  unfold entails. pose proof (calc_fst e k) as H.
  destruct (calc e k) as [res k']; simpl in *. subst res.
  rewrite bool_decide_eq_true. split.
  - intros Hs. symmetry. by apply sorted_inj.
  - by intros ->.
Qed.

(** X5: necessitation. In a model whose successors of declared worlds are
    declared and whose cache, if set, holds declared worlds only, a formula
    that is entailed is entailed under [Box]. *)
Theorem entails_Box (k : Kripke) (e : LogicExpression) :
  relation_declared k → cache_declared k →
  (entails k e).1 = true → (entails k (Box e)).1 = true.
Proof.
  intros HR HC%cache_declared_subseteq. rewrite !entails_true. simpl.
  intros ->. apply set_eq; intros w.
  rewrite elem_of_union, elem_of_filter. split.
  - intros [[_ Hw] | Hc]; [done | by apply HC].
  - intros Hw. left. split; [by apply (HR w Hw) | done].
Qed.

Lemma entails_Box_witness :
  (entails M1_queried (Box (Or (Var "p") (Not (Var "p"))))).1 = true.
Proof.
  apply (entails_Box M1_queried (Or (Var "p") (Not (Var "p")))).
  - apply (bool_decide_unpack _). vm_compute. exact I.
  - apply (bool_decide_unpack _). vm_compute. exact I.
  - vm_compute. reflexivity.
Defined.

(** X6: the distribution axiom K, [Box (a -> b) -> (Box a -> Box b)], is
    entailed by every model whose cache, if set, holds declared worlds
    only; nothing is asked of the valuation or the relation. *)
Theorem entails_K (k : Kripke) (a b : LogicExpression) :
  cache_declared k →
  (entails k (Implies (Box (Implies a b)) (Implies (Box a) (Box b)))).1 = true.
Proof.
  intros HC%cache_declared_subseteq. rewrite entails_true. simpl.
  set (A := holds_in k a). set (B := holds_in k b).
  set (X := filter (λ w, R_at k w ⊆ W k ∖ A ∪ A ∩ B) (W k) ∪ cache_or_blind k).
  set (Y := filter (λ w, R_at k w ⊆ A) (W k) ∪ cache_or_blind k).
  set (Z := filter (λ w, R_at k w ⊆ B) (W k) ∪ cache_or_blind k).
  assert (X ⊆ W k) as HX.
  { intros w. unfold X. rewrite elem_of_union, elem_of_filter. set_solver. }
  assert (X ∩ Y ⊆ Z) as HXY.
  { intros w. unfold X, Y, Z.
    rewrite elem_of_intersection, !elem_of_union, !elem_of_filter.
    intros [[[Hab Hw] | Hc] [[Ha _] | Hc']]; try tauto.
    left. split; [|done]. intros v Hv.
    specialize (Ha v Hv). specialize (Hab v Hv). set_solver. }
  apply set_eq; intros w.
  destruct (decide (w ∈ X)), (decide (w ∈ Y)); set_solver.
Qed.

Lemma entails_K_witness :
  (entails stale_model
     (Implies (Box (Implies (Var "p") (Var "q")))
              (Implies (Box (Var "p")) (Box (Var "q"))))).1 = true.
Proof.
  apply (entails_K stale_model (Var "p") (Var "q")).
  apply (bool_decide_unpack _). vm_compute. exact I.
Defined.

(** ** Queries leave what can be observed as it was *)

(** X7: a query changes nothing a later query can see: after [calc] of any
    expression, [calc] and [entails] of every expression and [blind_worlds]
    answer as they would have before, and the declared worlds are the same. *)
Theorem calc_repeatable (k : Kripke) (e0 e : LogicExpression) :
  W (calc e0 k).2 = W k ∧
  (calc e (calc e0 k).2).1 = (calc e k).1 ∧
  (entails (calc e0 k).2 e).1 = (entails k e).1 ∧
  (blind_worlds (calc e0 k).2).1 = (blind_worlds k).1.
Proof.
  destruct (calc_spec e0 k) as [_ Hv].
  split; [apply Hv|]. split; [|split].
  - rewrite !calc_fst. by apply holds_in_ext.
  - unfold entails. pose proof (calc_fst e (calc e0 k).2) as H1.
    pose proof (calc_fst e k) as H2.
    destruct (calc e (calc e0 k).2) as [r1 k1], (calc e k) as [r2 k2].
    simpl in *. subst. by rewrite (sv_W _ _ Hv), (holds_in_ext _ _ e Hv).
  - destruct (blind_worlds_spec (calc e0 k).2) as [-> _].
    destruct (blind_worlds_spec k) as [-> _]. apply Hv.
Qed.

(** ** The mutators *)

Lemma dd_update key s d :
  (let '(s0, d') := dd_get key d in <[key := s0 ∪ s]> d')
  = <[key := dd_at d key ∪ s]> d.
Proof.
  unfold dd_get, dd_at. destruct (d !! key); simpl; [done|].
  by rewrite insert_insert_eq.
Qed.

Lemma dd_at_insert key key' s d :
  dd_at (<[key := s]> d) key' = if decide (key = key') then s else dd_at d key'.
Proof.
  unfold dd_at. destruct (decide (key = key')) as [->|Hne].
  - by rewrite lookup_insert_eq.
  - by rewrite lookup_insert_ne.
Qed.

Lemma add_trans_R t k :
  add_trans t k = set_R (<[t.1 := R_at k t.1 ∪ {[ t.2 ]}]> (R k)) k.
Proof.
  unfold add_trans. pose proof (dd_update t.1 {[ t.2 ]} (R k)) as H.
  destruct (dd_get t.1 (R k)) as [s d]. by rewrite H.
Qed.

Lemma add_vals_V var ws k :
  add_vals var ws k = set_V (<[var := V_at k var ∪ list_to_set ws]> (V k)) k.
Proof.
  unfold add_vals. pose proof (dd_update var (list_to_set ws) (V k)) as H.
  destruct (dd_get var (V k)) as [s d]. by rewrite H.
Qed.

Lemma add_val_V var w k :
  add_val var w k = set_V (<[var := V_at k var ∪ {[ w ]}]> (V k)) k.
Proof.
  unfold add_val. pose proof (dd_update var {[ w ]} (V k)) as H.
  destruct (dd_get var (V k)) as [s d]. by rewrite H.
Qed.

Lemma add_trans_effect a b k :
  W (add_trans (a, b) k) = W k ∧ V (add_trans (a, b) k) = V k ∧
  cached_blind_worlds (add_trans (a, b) k) = cached_blind_worlds k ∧
  (∀ w v, v ∈ R_at (add_trans (a, b) k) w ↔ v ∈ R_at k w ∨ (w, v) = (a, b)) ∧
  dom (R (add_trans (a, b) k)) = dom (R k) ∪ {[ a ]}.
Proof.
  rewrite add_trans_R. simpl. split; [done|]. split; [done|]. split; [done|].
  split; [|rewrite dom_insert_L; set_solver].
  intros w v. unfold R_at at 1. simpl. rewrite dd_at_insert.
  destruct (decide (a = w)) as [->|Hne].
  - rewrite elem_of_union, elem_of_singleton. split.
    + intros [?| ->]; [by left | by right].
    + intros [?| [= ->]]; [by left | by right].
  - split; [by left|]. intros [?|[= ? ?]]; [done | by subst].
Qed.

Lemma add_transes_effect ts : ∀ k,
  W (add_transes ts k) = W k ∧ V (add_transes ts k) = V k ∧
  cached_blind_worlds (add_transes ts k) = cached_blind_worlds k ∧
  (∀ w v, v ∈ R_at (add_transes ts k) w ↔ v ∈ R_at k w ∨ (w, v) ∈ ts) ∧
  dom (R (add_transes ts k)) = dom (R k) ∪ list_to_set ts.*1.
Proof.
  unfold add_transes.
  induction ts as [|[a b] ts IH]; intros k.
  - simpl. split; [done|]. split; [done|]. split; [done|].
    split; [|set_solver]. intros w v. rewrite elem_of_nil. tauto.
  - cbn [foldl].
    destruct (IH (add_trans (a, b) k)) as (HW & HV & HC & HR & HD).
    destruct (add_trans_effect a b k) as (HW1 & HV1 & HC1 & HR1 & HD1).
    rewrite HW, HV, HC, HD, HW1, HV1, HC1, HD1.
    split; [done|]. split; [done|]. split; [done|].
    split; [|rewrite fmap_cons; set_solver].
    intros w v. rewrite HR, HR1, elem_of_cons. tauto.
Qed.

Lemma add_vals_effect var ws k :
  W (add_vals var ws k) = W k ∧ R (add_vals var ws k) = R k ∧
  cached_blind_worlds (add_vals var ws k) = cached_blind_worlds k ∧
  (∀ p w, w ∈ V_at (add_vals var ws k) p ↔
          w ∈ V_at k p ∨ (p = var ∧ w ∈ ws)) ∧
  dom (V (add_vals var ws k)) = dom (V k) ∪ {[ var ]}.
Proof.
  rewrite add_vals_V. cbn [W V R cached_blind_worlds set_V].
  split; [done|]. split; [done|]. split; [done|].
  split; [|rewrite dom_insert_L; set_solver].
  intros p w. unfold V_at at 1. cbn [V set_V]. rewrite dd_at_insert.
  destruct (decide (var = p)) as [->|Hne].
  - rewrite elem_of_union, elem_of_list_to_set. tauto.
  - split; [by left|]. intros [?|[-> _]]; done.
Qed.

Lemma add_val_effect var w0 k :
  W (add_val var w0 k) = W k ∧ R (add_val var w0 k) = R k ∧
  cached_blind_worlds (add_val var w0 k) = cached_blind_worlds k ∧
  (∀ p w, w ∈ V_at (add_val var w0 k) p ↔
          w ∈ V_at k p ∨ (p = var ∧ w = w0)) ∧
  dom (V (add_val var w0 k)) = dom (V k) ∪ {[ var ]}.
Proof.
  rewrite add_val_V. cbn [W V R cached_blind_worlds set_V].
  split; [done|]. split; [done|]. split; [done|].
  split; [|rewrite dom_insert_L; set_solver].
  intros p w. unfold V_at at 1. cbn [V set_V]. rewrite dd_at_insert.
  destruct (decide (var = p)) as [->|Hne].
  - rewrite elem_of_union, elem_of_singleton. tauto.
  - split; [by left|]. intros [?|[-> _]]; done.
Qed.

Lemma mutate_effect k m : effect k (mutate k m) m.
Proof.
  unfold effect.
  destruct m as [var ws|var w0|ws|w0|ts|[a b]];
    cbn [mutate added_worlds added_edges added_vals touched_vars].
  - destruct (add_vals_effect var ws k) as (HW & HR & HC & HV & HD).
    rewrite HW, HC, HD. unfold R_at. rewrite HR.
    split; [set_solver|]. split; [done|].
    split; [intros w v; rewrite elem_of_nil; tauto|].
    split; [|split; set_solver].
    intros p w. rewrite HV, list_elem_of_fmap. split.
    + intros [?|[-> ?]]; [by left | right; eauto].
    + intros [?|(w' & [= -> ->] & ?)]; [by left | by right].
  - destruct (add_val_effect var w0 k) as (HW & HR & HC & HV & HD).
    rewrite HW, HC, HD. unfold R_at. rewrite HR.
    split; [set_solver|]. split; [done|].
    split; [intros w v; rewrite elem_of_nil; tauto|].
    split; [|split; set_solver].
    intros p w. rewrite HV, list_elem_of_singleton. split.
    + intros [?|[-> ->]]; [by left | by right].
    + intros [?|[= -> ->]]; [by left | by right].
  - cbn [add_worlds set_W W V R cached_blind_worlds].
    split; [done|]. split; [done|].
    split; [intros w v; rewrite elem_of_nil; tauto|].
    split; [intros p w; rewrite elem_of_nil; tauto|]. split; set_solver.
  - cbn [add_world set_W W V R cached_blind_worlds].
    split; [set_solver|]. split; [done|].
    split; [intros w v; rewrite elem_of_nil; tauto|].
    split; [intros p w; rewrite elem_of_nil; tauto|]. split; set_solver.
  - destruct (add_transes_effect ts k) as (HW & HV & HC & HR & HD).
    rewrite HW, HC, HD. unfold V_at. rewrite HV.
    split; [set_solver|]. split; [done|]. split; [done|].
    split; [intros p w; rewrite elem_of_nil; tauto|]. split; set_solver.
  - destruct (add_trans_effect a b k) as (HW & HV & HC & HR & HD).
    rewrite HW, HC, HD. unfold V_at. rewrite HV.
    split; [set_solver|]. split; [done|].
    split; [intros w v; rewrite HR, list_elem_of_singleton; tauto|].
    split; [intros p w; rewrite elem_of_nil; tauto|]. split; set_solver.
Qed.

(** X8: what is in a model after a mutation is what was there before
    together with what the mutation names, and nothing else: worlds only grow
    by [add_world(s)], successor sets only by the pairs of [add_trans(es)],
    valuation sets only by the pairs of [add_val(s)]. In particular adding an
    edge or a valuation declares no world, and no mutator touches the
    cache. *)
Theorem mutate_lookup (k : Kripke) (m : mutation) (p w v : string) :
  (w ∈ W (mutate k m) ↔ w ∈ W k ∨ w ∈ added_worlds m) ∧
  (v ∈ R_at (mutate k m) w ↔ v ∈ R_at k w ∨ (w, v) ∈ added_edges m) ∧
  (w ∈ V_at (mutate k m) p ↔ w ∈ V_at k p ∨ (p, w) ∈ added_vals m) ∧
  cached_blind_worlds (mutate k m) = cached_blind_worlds k.
Proof.
  destruct (mutate_effect k m) as (HW & HC & HR & HV & _).
  rewrite HW, HC. repeat split; try apply HR; try apply HV; set_solver.
Qed.

Lemma Kripke_eq k k' :
  W k' = W k → cached_blind_worlds k' = cached_blind_worlds k →
  V k' = V k → R k' = R k → k' = k.
Proof. destruct k, k'; simpl. by intros -> -> -> ->. Qed.

Lemma defaultdict_eq (d d' : defaultdict) :
  dom d' = dom d → (∀ key, dd_at d' key = dd_at d key) → d' = d.
Proof.
  intros Hd Hat. apply map_eq; intros key.
  specialize (Hat key). unfold dd_at in Hat.
  destruct (d' !! key) as [s'|] eqn:E', (d !! key) as [s|] eqn:E; simpl in *.
  - by subst.
  - apply (elem_of_dom_2 (D := gset string)) in E'. rewrite Hd in E'.
    apply elem_of_dom in E' as [? ?]. congruence.
  - apply (elem_of_dom_2 (D := gset string)) in E. rewrite <- Hd in E.
    apply elem_of_dom in E as [? ?]. congruence.
  - done.
Qed.

(** X9: every mutator is idempotent: applied a second time with the same
    arguments it leaves the model exactly as it is. *)
Theorem mutate_idempotent (k : Kripke) (m : mutation) :
  mutate (mutate k m) m = mutate k m.
Proof.
  destruct (mutate_effect k m) as (HW & HC & HR & HV & HDR & HDV).
  destruct (mutate_effect (mutate k m) m) as (HW' & HC' & HR' & HV' & HDR' & HDV').
  apply Kripke_eq.
  - rewrite HW', HW. set_solver.
  - done.
  - apply defaultdict_eq; [rewrite HDV', HDV; set_solver|].
    intros p. apply set_eq; intros w. fold (V_at (mutate (mutate k m) m) p).
    fold (V_at (mutate k m) p). rewrite HV', HV. tauto.
  - apply defaultdict_eq; [rewrite HDR', HDR; set_solver|].
    intros w. apply set_eq; intros v. fold (R_at (mutate (mutate k m) m) w).
    fold (R_at (mutate k m) w). rewrite HR', HR. tauto.
Qed.

(** ** Models built through the interface *)

Lemma cache_declared_iff k : cache_declared k ↔ cache_or_blind k ⊆ W k.
Proof.
  unfold cache_declared, cache_or_blind.
  destruct (cached_blind_worlds k); simpl; [done|].
  split; [intros _; apply blind_subseteq_worlds | done].
Qed.

Lemma same_view_cache_declared k k' :
  same_view k k' → cache_declared k → cache_declared k'.
Proof.
  intros Hv. rewrite !cache_declared_iff.
  by rewrite (sv_blind _ _ Hv), (sv_W _ _ Hv).
Qed.

Lemma entails_same_view k e : same_view k (entails k e).2.
Proof.
  unfold entails. destruct (calc_spec e k) as [_ H].
  by destruct (calc e k).
Qed.

(** ** Exactness of the modal operators *)

Lemma cache_sound_iff k : cache_sound k ↔ cache_or_blind k ⊆ blind k.
Proof.
  unfold cache_sound, cache_or_blind.
  destruct (cached_blind_worlds k); simpl; [done|]. split; [set_solver | done].
Qed.

Lemma same_view_blind k k' : same_view k k' → blind k' = blind k.
Proof.
  intros Hv. unfold blind. rewrite (sv_W _ _ Hv).
  apply set_eq; intros w. rewrite !elem_of_filter. by rewrite (sv_R _ _ Hv).
Qed.

Lemma same_view_cache_sound k k' :
  same_view k k' → cache_sound k → cache_sound k'.
Proof.
  intros Hv. rewrite !cache_sound_iff.
  by rewrite (sv_blind _ _ Hv), (same_view_blind _ _ Hv).
Qed.

(** A model that got no edge since its blind worlds were stored holds a
    cache of worlds that are still blind. *)
Lemma unextended_cache_sound k : unextended k → cache_sound k.
Proof.
  induction 1 as [k Hn|k _ IH|k e _ IH|k e _ IH|k m _ IH Hm].
  - unfold cache_sound. by rewrite Hn.
  - eapply same_view_cache_sound; [apply blind_worlds_spec | done].
  - eapply same_view_cache_sound; [apply calc_spec | done].
  - eapply same_view_cache_sound; [apply entails_same_view | done].
  - destruct (mutate_effect k m) as (HW & HC & HR & _).
    unfold cache_sound in *. rewrite HC.
    destruct (cached_blind_worlds k) as [c|]; simpl in *; [|done].
    intros w Hw. apply IH in Hw. unfold blind in *.
    apply elem_of_filter in Hw as [Hb Hw]. apply elem_of_filter.
    split; [|rewrite HW; set_solver].
    apply set_eq; intros v. rewrite HR, Hm, Hb. set_solver.
Qed.

(** C2, as amended: when the cached blind set (if any) holds only worlds that
    are still blind, as it does in every model that was given no new
    transition after its blind worlds were first asked for, [calc] of
    [Box e] is exactly the set of declared worlds all of whose successors
    satisfy [e], which contains every blind world. For every model, with no
    condition on the cache, [calc] of [Diamond e] is exactly the set of
    declared worlds with a successor satisfying [e], and contains no world
    without successors. *)
Theorem box_diamond_exact (k : Kripke) (e : LogicExpression) :
  (cache_sound k → box_exact k e ∧ blind k ⊆ (calc (Box e) k).1)
  ∧ (unextended k → cache_sound k)
  ∧ diamond_exact k e
  ∧ (∀ w, R_at k w = ∅ → w ∉ (calc (Diamond e) k).1).
Proof.
  split; [|split; [apply unextended_cache_sound|split]].
  - intros Hc. apply cache_sound_subseteq in Hc.
    assert (box_exact k e) as Hbox.
    { intros w. rewrite !calc_fst. simpl.
      rewrite elem_of_union, elem_of_filter. split.
      - intros [[Hsub Hw] | Hb]; [split; [done | set_solver] |].
        apply Hc in Hb. unfold blind in Hb.
        apply elem_of_filter in Hb as [Hb Hw].
        split; [done|]. rewrite Hb. set_solver.
      - intros [Hw Hall]. left. split; [|done]. intros v. apply Hall. }
    split; [done|]. intros w Hw. apply Hbox. unfold blind in Hw.
    apply elem_of_filter in Hw as [Hb Hw]. split; [done|]. rewrite Hb. set_solver.
  - apply diamond_exact_always.
  - intros w Hb Hin. apply diamond_exact_always in Hin as [_ (v & Hv & _)].
    rewrite Hb in Hv. set_solver.
Qed.

(** The conditional half on the first scenario after a query and a new
    world, the unconditional half on the model with the stale cache. *)
Lemma box_diamond_exact_witness :
  let k := add_world "w3" M1_queried in
  unextended k
  ∧ box_exact k (Var "p") ∧ blind k ⊆ (calc (Box (Var "p")) k).1
  ∧ diamond_exact stale_model (Var "p")
  ∧ (∀ w, R_at stale_model w = ∅ → w ∉ (calc (Diamond (Var "p")) stale_model).1).
Proof.
  intros k.
  assert (unextended k) as Hk.
  { apply (unextended_mutate _ (AddWorld "w3")); [|reflexivity].
    apply unextended_blind_worlds, unextended_fresh. reflexivity. }
  split; [exact Hk|].
  destruct (box_diamond_exact k (Var "p")) as (Hbox & Hsound & _).
  destruct (Hbox (Hsound Hk)) as [H1 H2].
  split; [exact H1 | split; [exact H2|]].
  destruct (box_diamond_exact stale_model (Var "p")) as (_ & _ & Hd & Hn).
  split; [exact Hd | exact Hn].
Defined.

(** C2, as stated, fails on a model that was extended after its blind worlds
    were first asked for: [w] has the successor [w], which does not satisfy
    the false constant, yet [w] is in [calc] of the boxed constant. *)
Lemma box_exact_stale_counterexample :
  ¬ box_exact stale_model (Constant false).
Proof.
  intros H. destruct (H "w") as [H1 _].
  assert ("w" ∈ (calc (Box (Constant false)) stale_model).1) as Hin
    by (vm_compute; reflexivity).
  destruct (H1 Hin) as [_ Hall].
  assert ("w" ∈ R_at stale_model "w") as Hsucc by (vm_compute; reflexivity).
  specialize (Hall _ Hsucc). simpl in Hall. set_solver.
Qed.

(** X10: in every model built through the interface (a fresh model,
    mutators, queries, in any order) the cached blind set holds declared
    worlds only; so in a built model whose valuation sets hold declared
    worlds only, every result of [calc] is a set of declared worlds. *)
Theorem built_cache_declared (k : Kripke) (e : LogicExpression) :
  built k →
  cache_declared k ∧ (valuation_declared k → (calc e k).1 ⊆ W k).
Proof.
  intros Hb. assert (cache_declared k) as HC.
  { induction Hb as [|k m _ IH|k _ IH|k e' _ IH|k e' _ IH].
    - done.
    - destruct (mutate_effect k m) as (HW & HCm & _).
      unfold cache_declared in *. rewrite HCm, HW.
      destruct (cached_blind_worlds k); simpl in *; [set_solver | done].
    - eapply same_view_cache_declared; [apply blind_worlds_spec | done].
    - eapply same_view_cache_declared; [apply calc_spec | done].
    - eapply same_view_cache_declared; [apply entails_same_view | done]. }
  split; [done|]. intros HV. rewrite calc_fst. by apply holds_in_subseteq.
Qed.

Lemma built_cache_declared_witness :
  cache_declared stale_model ∧
  (valuation_declared stale_model →
   (calc (Box (Var "p")) stale_model).1 ⊆ W stale_model).
Proof.
  apply (built_cache_declared stale_model (Box (Var "p"))).
  apply (built_mutate _ (AddTrans ("w", "w"))), built_blind_worlds,
    (built_mutate _ (AddWorld "w")), built_init.
Defined.

(** ** The tree walks *)

(** X11: [calc] reads the valuation only at the variables of the expression:
    two models with the same worlds, successors and cache that agree on
    [V] at every variable [variables] reports give the same result. *)
Theorem calc_depends_on_variables (k k' : Kripke) (e : LogicExpression) :
  W k' = W k → (∀ w, R_at k' w = R_at k w) →
  cached_blind_worlds k' = cached_blind_worlds k →
  (∀ p, p ∈ variables e → V_at k' p = V_at k p) →
  (calc e k').1 = (calc e k).1.
Proof.
  intros HW HR HC HV. rewrite !calc_fst.
  assert (cache_or_blind k' = cache_or_blind k) as HB.
  { unfold cache_or_blind. rewrite HC. f_equal. by apply blind_ext. }
  induction e; simpl in *; rewrite ?HW, ?HB;
    try (rewrite IHe1, IHe2 by (intros; apply HV; set_solver); done);
    try (rewrite IHe by done).
  - done.
  - f_equal. apply set_eq; intros w. rewrite !elem_of_filter. by rewrite HR.
  - apply set_eq; intros w. rewrite !elem_of_filter. by rewrite HR.
  - apply HV. set_solver.
  - done.
Qed.

Lemma calc_depends_on_variables_witness :
  (calc (Box (Var "p")) (add_val "q" "w1" M1)).1 = (calc (Box (Var "p")) M1).1.
Proof.
  destruct (add_val_effect "q" "w1" M1) as (HW & HR & HC & HV & _).
  apply (calc_depends_on_variables M1 (add_val "q" "w1" M1) (Box (Var "p"))).
  - exact HW.
  - intros w. unfold R_at. by rewrite HR.
  - exact HC.
  - intros p Hp. simpl in Hp. apply elem_of_singleton in Hp as ->.
    apply set_eq; intros w. rewrite HV. split; [|by left].
    intros [?|[[=] _]]. done.
Defined.

(** X12: a node without children has depth 0 and conversely; every child
    lies strictly less deep than its parent, and its variables and
    sub-expressions are among the parent's. *)
Theorem children_below (e : LogicExpression) :
  (depth e = 0 ↔ children e = []) ∧
  Forall (λ c, depth c < depth e ∧ variables c ⊆ variables e ∧
               expressions c ⊆ expressions e) (children e).
Proof.
  split.
  - destruct e; simpl; split; try done; lia.
  - destruct e; simpl; repeat constructor; try lia; set_solver.
Qed.

Lemma expressions_self e : e ∈ expressions e.
Proof. destruct e; simpl; set_solver. Qed.

Lemma expressions_children s e :
  s ∈ expressions e ↔ s = e ∨ ∃ c, c ∈ children e ∧ s ∈ expressions c.
Proof.
  destruct e; simpl; rewrite ?elem_of_union, ?elem_of_singleton; split;
    try (intros [[?|?]|?]; [right; eexists; split; [|eassumption]; set_solver
                           | by left
                           | right; eexists; split; [|eassumption]; set_solver]);
    try (intros [?|?]; [right; eexists; split; [|eassumption]; set_solver
                       | by left]);
    try (intros [?|(c & Hc & Hs)]; [tauto|];
         repeat (apply elem_of_cons in Hc as [->|Hc]; [tauto|]);
         by apply elem_of_nil in Hc);
    try tauto.
Qed.

(** X13: [expressions] returns exactly the sub-expressions of a node, the
    node included; none of them is deeper than the node, and a name is among
    [variables] exactly when its variable is among [expressions]. *)
Theorem expressions_subexpressions (e s : LogicExpression) (p : string) :
  (s ∈ expressions e ↔ subexpression s e) ∧
  set_Forall (λ s', (depth s' ≤ depth e)%nat) (expressions e) ∧
  (p ∈ variables e ↔ Var p ∈ expressions e).
Proof.
  split; [|split].
  - split.
    + revert s. induction e; intros s; rewrite expressions_children;
        (intros [->|(c & Hc & Hs)]; [constructor|]); simpl in Hc;
        repeat (apply elem_of_cons in Hc as [->|Hc];
                [eapply subexpression_child; [|eauto]; simpl; set_solver|]);
        by apply elem_of_nil in Hc.
    + induction 1 as [|e' c Hc _ IH]; [apply expressions_self|].
      apply expressions_children. right. eauto.
  - induction e; intros s'; rewrite expressions_children;
      (intros [->|(c & Hc & Hs)]; [done|]); simpl in Hc |- *;
      repeat (apply elem_of_cons in Hc as [->|Hc];
              [first [apply IHe in Hs | apply IHe1 in Hs | apply IHe2 in Hs];
               lia|]);
      by apply elem_of_nil in Hc.
  - induction e; simpl; rewrite ?elem_of_union, ?elem_of_singleton,
      ?IHe, ?IHe1, ?IHe2; split; try tauto; try (intros [[?|[=]]|?]; tauto);
      try (intros [?|[=]]; tauto); try (by intros [= ->]); try (by intros ->);
      try done; set_solver.
Qed.

(** ** Evaluation with a trace *)

Lemma cache_step_refl k : cache_step k k.
Proof. by left. Qed.

Lemma cache_step_trans k k1 k2 :
  same_view k k1 → cache_step k k1 → cache_step k1 k2 → cache_step k k2.
Proof.
  intros Hv [H1|[H1 H1']] [H2|[H2 H2']].
  - left. congruence.
  - right. split; [congruence|]. by rewrite H2', (same_view_blind _ _ Hv).
  - right. split; [done | congruence].
  - congruence.
Qed.

Lemma V_get_cache name k :
  cached_blind_worlds (V_get name k).2 = cached_blind_worlds k.
Proof. unfold V_get. by destruct (dd_get name (V k)). Qed.

Lemma comprehension_cache cond k :
  cached_blind_worlds (comprehension cond k).2 = cached_blind_worlds k.
Proof.
  unfold comprehension.
  assert (∀ l st,
    cached_blind_worlds (foldl (comprehension_step cond) st l).2
    = cached_blind_worlds st.2) as H; [|apply (H _ (∅, k))].
  induction l as [|w l IH]; intros st; [done|].
  cbn [foldl]. rewrite IH. unfold comprehension_step, R_get.
  by destruct (dd_get w (R st.2)).
Qed.

Lemma blind_worlds_cache k : cache_step k (blind_worlds k).2.
Proof.
  pose proof (blind_worlds_spec k) as [H _].
  unfold blind_worlds, cache_or_blind in *.
  destruct (cached_blind_worlds k) as [c|] eqn:E; [left; by rewrite E|].
  destruct (comprehension is_empty k) as [b k']. cbn in *. right. by subst.
Qed.

(** [stack_calc] does to the cache what a query may do. *)
Lemma stack_calc_cache iteration e : ∀ k spacing,
  same_view k (stack_calc iteration e k spacing).2
  ∧ cache_step k (stack_calc iteration e k spacing).2.
Proof.
  induction e; intros k spacing; cbn [stack_calc].
  - destruct (IHe1 k (spacing +:+ "    ")) as [A1 A2].
    destruct (stack_calc iteration e1 k _) as [[lhs ls] k1]; cbn [snd] in *.
    destruct (IHe2 k1 (spacing +:+ "    ")) as [B1 B2].
    destruct (stack_calc iteration e2 k1 _) as [[rhs rs] k2]; cbn [snd] in *.
    split; [by etrans | by eapply cache_step_trans].
  - destruct (IHe1 k (spacing +:+ "    ")) as [A1 A2].
    destruct (stack_calc iteration e1 k _) as [[lhs ls] k1]; cbn [snd] in *.
    destruct (IHe2 k1 (spacing +:+ "    ")) as [B1 B2].
    destruct (stack_calc iteration e2 k1 _) as [[rhs rs] k2]; cbn [snd] in *.
    split; [by etrans | by eapply cache_step_trans].
  - destruct (IHe1 k (spacing +:+ "    ")) as [A1 A2].
    destruct (stack_calc iteration e1 k _) as [[lhs ls] k1]; cbn [snd] in *.
    destruct (IHe2 k1 (spacing +:+ "    ")) as [B1 B2].
    destruct (stack_calc iteration e2 k1 _) as [[rhs rs] k2]; cbn [snd] in *.
    split; [by etrans | by eapply cache_step_trans].
  - destruct (IHe k (spacing +:+ "  ")) as [A1 A2].
    by destruct (stack_calc iteration e k _) as [[res st] k1].
  - destruct (IHe k (spacing +:+ "    ")) as [A1 A2].
    destruct (stack_calc iteration e k _) as [[inter st] k1]; cbn [snd] in *.
    destruct (comprehension_spec (all_in inter) k1) as [_ B1].
    pose proof (comprehension_cache (all_in inter) k1) as B2.
    destruct (comprehension (all_in inter) k1) as [actual k2]; cbn [snd] in *.
    destruct (blind_worlds_spec k2) as [_ C1].
    pose proof (blind_worlds_cache k2) as C2.
    destruct (blind_worlds k2) as [bl k3]; cbn [snd] in *.
    split; [by etrans; [|etrans]|].
    eapply cache_step_trans; [exact A1 | exact A2|].
    eapply cache_step_trans; [exact B1 | by left | exact C2].
  - destruct (IHe k (spacing +:+ "  ")) as [A1 A2].
    destruct (stack_calc iteration e k _) as [[inter st] k1]; cbn [snd] in *.
    destruct (comprehension_spec (any_in inter) k1) as [_ B1].
    pose proof (comprehension_cache (any_in inter) k1) as B2.
    destruct (comprehension (any_in inter) k1) as [out k2]; cbn [snd] in *.
    split; [by etrans|].
    eapply cache_step_trans; [exact A1 | exact A2 | by left].
  - destruct (V_get_spec n k) as [_ H1]. pose proof (V_get_cache n k) as H2.
    destruct (V_get n k) as [holds k1]; cbn [snd] in *.
    split; [done | by left].
  - split; [reflexivity | apply cache_step_refl].
Qed.

Lemma stack_calc_spec (iteration : worlds → list string)
    (e : LogicExpression) (k : Kripke) (spacing : string) :
  (stack_calc iteration e k spacing).1.1 = (calc e k).1 ∧
  same_view k (stack_calc iteration e k spacing).2.
Proof.
  rewrite calc_fst. revert k spacing.
  induction e; intros k spacing; simpl.
  - destruct (IHe1 k (spacing +:+ "    ")) as [A1 A2].
    destruct (stack_calc iteration e1 k _) as [[lhs ls] k1]; simpl in *.
    destruct (IHe2 k1 (spacing +:+ "    ")) as [B1 B2].
    destruct (stack_calc iteration e2 k1 _) as [[rhs rs] k2]; simpl in *.
    rewrite (holds_in_ext _ _ _ A2) in B1. subst. split; [done | by etrans].
  - destruct (IHe1 k (spacing +:+ "    ")) as [A1 A2].
    destruct (stack_calc iteration e1 k _) as [[lhs ls] k1]; simpl in *.
    destruct (IHe2 k1 (spacing +:+ "    ")) as [B1 B2].
    destruct (stack_calc iteration e2 k1 _) as [[rhs rs] k2]; simpl in *.
    rewrite (holds_in_ext _ _ _ A2) in B1. subst. split; [done | by etrans].
  - destruct (IHe1 k (spacing +:+ "    ")) as [A1 A2].
    destruct (stack_calc iteration e1 k _) as [[lhs ls] k1]; simpl in *.
    destruct (IHe2 k1 (spacing +:+ "    ")) as [B1 B2].
    destruct (stack_calc iteration e2 k1 _) as [[rhs rs] k2]; simpl in *.
    rewrite (holds_in_ext _ _ _ A2) in B1. rewrite (sv_W _ _ A2). subst.
    split; [done | by etrans].
  - destruct (IHe k (spacing +:+ "  ")) as [A1 A2].
    destruct (stack_calc iteration e k _) as [[res st] k1]; simpl in *.
    rewrite (sv_W _ _ A2). by subst.
  - destruct (IHe k (spacing +:+ "    ")) as [A1 A2].
    destruct (stack_calc iteration e k _) as [[inter st] k1]; simpl in *.
    destruct (comprehension_spec (all_in inter) k1) as [B1 B2].
    destruct (comprehension (all_in inter) k1) as [actual k2]; simpl in *.
    destruct (blind_worlds_spec k2) as [C1 C2].
    destruct (blind_worlds k2) as [bl k3]; simpl in *.
    split; [|by etrans; [|etrans]].
    rewrite C1, (sv_blind _ _ B2), (sv_blind _ _ A2), B1, (sv_W _ _ A2).
    f_equal. apply set_eq; intros w. rewrite !elem_of_filter.
    by rewrite all_in_true, (sv_R _ _ A2), A1.
  - destruct (IHe k (spacing +:+ "  ")) as [A1 A2].
    destruct (stack_calc iteration e k _) as [[inter st] k1]; simpl in *.
    destruct (comprehension_spec (any_in inter) k1) as [B1 B2].
    destruct (comprehension (any_in inter) k1) as [out k2]; simpl in *.
    split; [|by etrans].
    rewrite B1, (sv_W _ _ A2).
    apply set_eq; intros w. rewrite !elem_of_filter.
    by rewrite any_in_true, (sv_R _ _ A2), A1.
  - destruct (V_get_spec n k) as [H1 H2].
    by destruct (V_get n k) as [holds k1].
  - split; [done | reflexivity].
Qed.

(** X14: [stack_calc] computes the set that [calc] computes, for every
    expression, model and indentation and whatever the order in which sets
    are walked; this holds for [Implies] too, where [calc] may skip the
    conclusion and [stack_calc] never does. Like [calc] it is no pure read:
    it may store the blind worlds of the state when none are stored, and add
    empty entries to the two dictionaries. It does nothing else: the
    declared worlds, every successor set and every valuation set are as
    before, and a cache that was stored is kept. *)
Theorem stack_calc_agrees (iteration : worlds → list string)
    (e : LogicExpression) (k : Kripke) (spacing : string) :
  let k' := (stack_calc iteration e k spacing).2 in
  (stack_calc iteration e k spacing).1.1 = (calc e k).1
  ∧ W k' = W k
  ∧ (∀ p, V_at k' p = V_at k p)
  ∧ (∀ w, R_at k' w = R_at k w)
  ∧ (cached_blind_worlds k' = cached_blind_worlds k
     ∨ (cached_blind_worlds k = None
        ∧ cached_blind_worlds k' = Some (blind k))).
Proof.
  intros k'.
  destruct (stack_calc_cache iteration e k spacing) as [[HW HV HR _] HC].
  split; [apply stack_calc_spec | done].
Qed.

(* ================================================================== *)
(** * Further properties of the repository *)
(* ================================================================== *)

Lemma denotes_functional r i t :
  Repository.denotes r i t → ∀ t', Repository.denotes r i t' → t = t'.
Proof.
  induction 1; intros t' H'; inversion H'; subst;
    repeat match goal with
           | H1 : Repository.objects r !! ?i = Some _,
             H2 : Repository.objects r !! ?i = Some _ |- _ =>
               rewrite H1 in H2; inversion H2; subst; clear H2
           end;
    f_equal; eauto.
Qed.

(** X15: in every state of the repository, an object denotes at most one
    tree and a tree is denoted by at most one object: comparing nodes by
    identity is comparing their trees. *)
Theorem identity_is_structure (r : Repository.repository)
    (i j : Repository.instance) (t t' : LogicExpression) :
  Repository.reachable r →
  Repository.denotes r i t → Repository.denotes r j t' →
  (i = j ↔ t = t').
Proof.
  intros Hr%RepositoryFacts.reachable_coherent Hi Hj. split.
  - intros <-. by eapply denotes_functional.
  - intros <-. by eapply RepositoryFacts.denotes_inj.
Qed.

Lemma identity_is_structure_witness :
  0 = 1 ↔ Var "a" = Var "b".
Proof.
  apply (identity_is_structure
           (Repository.run_all [Repository.CreateVarConst "a";
                                Repository.CreateVarConst "b"]
                               Repository.empty_repository)).
  - by eexists.
  - by apply Repository.denotes_Var.
  - by apply Repository.denotes_Var.
Defined.

(** X16: the factory builds the object of the tree. In every reachable
    state, the empty repository included, [create_var_const] on a name
    returns an object that denotes the tree [create_var_const] gives for the
    name; and [create_expression], when it returns an object for an operator
    and objects that denote trees, returns one that denotes the tree
    [create_expression] gives for the operator and these trees. *)
Theorem factory_builds_trees (r : Repository.repository) (name operator : string)
    (children : list (Repository.instance * LogicExpression))
    (i : Repository.instance) :
  Repository.reachable r →
  Repository.denotes
    (Repository.create_var_const name r).2
    (Repository.create_var_const name r).1
    (create_var_const name) ∧
  (Forall (λ c, Repository.denotes r c.1 c.2) children →
   (Repository.create_expression operator
      (Repository.Obj <$> children.*1) r).1 = Ok i →
   ∃ t, create_expression operator (TExpr <$> children.*2) = Ok (TExpr t) ∧
        Repository.denotes
          (Repository.create_expression operator
             (Repository.Obj <$> children.*1) r).2 i t).
Proof.
  intros Hr. split.
  - by apply create_var_const_denotes, RepositoryFacts.reachable_coherent.
  - intros Hch E. apply create_expression_denotes; try done.
    + by apply RepositoryFacts.reachable_coherent.
    + by apply RepositoryFacts.reachable_shaped.
Qed.

Lemma factory_builds_trees_witness :
  Repository.denotes
    (Repository.create_var_const "c" Repository.empty_repository).2
    (Repository.create_var_const "c" Repository.empty_repository).1
    (create_var_const "c") ∧
  ∃ t, create_expression "->" (TExpr <$> [(0, Var "a"); (1, Var "b")].*2)
       = Ok (TExpr t) ∧
       Repository.denotes
         (Repository.create_expression "->"
            (Repository.Obj <$> [(0, Var "a"); (1, Var "b")].*1)
            (Repository.run_all [Repository.CreateVarConst "a";
                                 Repository.CreateVarConst "b"]
                                Repository.empty_repository)).2 2 t.
Proof.
  split.
  - apply (factory_builds_trees Repository.empty_repository "c" "->" [] 0).
    by exists [].
  - apply (factory_builds_trees
             (Repository.run_all [Repository.CreateVarConst "a";
                                  Repository.CreateVarConst "b"]
                                 Repository.empty_repository)
             "c" "->" [(0, Var "a"); (1, Var "b")] 2).
    + by eexists.
    + repeat constructor; by apply Repository.denotes_Var.
    + vm_compute. reflexivity.
Defined.

(** X17: a call that fails leaves the repository as it was. In a reachable
    state, an operator that is no symbol of any class (and not one of
    ['var'], ['const'], ['varconst']) raises [KeyError], and a known
    operator with the wrong number of arguments raises [TypeError]; in both
    cases no object is built and the table is unchanged. *)
Theorem create_expression_failure (r : Repository.repository)
    (operator : string) (kwargs : list Repository.value) :
  Repository.reachable r →
  operator ∉ ["var"; "const"; "varconst"] →
  match operator_class !! operator with
  | None => True
  | Some c => length kwargs ≠ Repository.arity c
  end →
  Repository.create_expression operator kwargs r
  = (Raise (match operator_class !! operator with
            | None => KeyError
            | Some _ => TypeError
            end), r).
Proof.
  intros Hr Hn Har. unfold Repository.create_expression.
  rewrite bool_decide_false by done.
  destruct (operator_class !! operator) as [c|]; [|done].
  destruct (Repository.instances r !! (c, Repository.Tuple kwargs))
    as [j|] eqn:E.
  - exfalso. apply (RepositoryFacts.reachable_coherent r Hr) in E.
    pose proof (RepositoryFacts.reachable_shaped r Hr) as Hs.
    rewrite Forall_forall in Hs.
    apply list_elem_of_lookup_2, Hs in E. by destruct E as [_ E].
  - by rewrite bool_decide_false.
Qed.

Lemma create_expression_failure_witness :
  Repository.create_expression "&" [Repository.Obj 0] Repository.empty_repository
  = (Raise (match operator_class !! "&" with
            | None => KeyError
            | Some _ => TypeError
            end), Repository.empty_repository).
Proof.
  apply (create_expression_failure Repository.empty_repository "&"
           [Repository.Obj 0]).
  - by exists [].
  - apply (bool_decide_unpack _). vm_compute. exact I.
  - vm_compute. discriminate.
Defined.

(** X18: asking again changes nothing: a call that returned an object, made
    again on the state it left, returns the same object and leaves the
    state untouched. *)
Theorem factory_call_idempotent (r : Repository.repository)
    (c : Repository.call) (i : Repository.instance) :
  (Repository.run c r).1 = Ok i →
  Repository.run c (Repository.run c r).2 = (Ok i, (Repository.run c r).2).
Proof.
  assert (∀ name,
    Repository.create_var_const name (Repository.create_var_const name r).2
    = Repository.create_var_const name r) as Hvc.
  { intros name. unfold Repository.create_var_const at 2 3.
    destruct (Repository.instances r !! Repository.var_const_key name)
      as [j|] eqn:E; cbn [snd].
    - unfold Repository.create_var_const. by rewrite E.
    - unfold Repository.create_var_const, Repository.store.
      cbn [fst snd Repository.instances]. by rewrite lookup_insert_eq. }
  destruct c as [operator kwargs | name]; cbn [Repository.run].
  - unfold Repository.create_expression. case_bool_decide.
    + destruct kwargs as [|[j|name|b] [|]]; cbn [fst snd]; try done.
      specialize (Hvc name).
      destruct (Repository.create_var_const name r) as [j r'] eqn:E.
      cbn [fst snd] in *. intros [= <-]. by rewrite Hvc.
    + destruct (operator_class !! operator) as [cl|]; cbn [fst]; [|done].
      destruct (Repository.instances r !! (cl, Repository.Tuple kwargs))
        as [j|] eqn:E; cbn [fst snd].
      * intros [= <-]. by rewrite E.
      * case_bool_decide; cbn [fst snd]; [|done]. intros [= <-].
        unfold Repository.store. cbn [fst snd Repository.instances].
        by rewrite lookup_insert_eq.
  - intros [= <-]. specialize (Hvc name).
    destruct (Repository.create_var_const name r) as [j r'] eqn:E.
    cbn [fst snd] in *. by rewrite Hvc.
Qed.

Lemma factory_call_idempotent_witness :
  Repository.run (Repository.CreateVarConst "a")
    (Repository.run (Repository.CreateVarConst "a") Repository.empty_repository).2
  = (Ok 0, (Repository.run (Repository.CreateVarConst "a")
              Repository.empty_repository).2).
Proof.
  apply (factory_call_idempotent Repository.empty_repository
           (Repository.CreateVarConst "a") 0).
  vm_compute. reflexivity.
Defined.

Lemma run_size c r :
  size (Repository.instances r) = length (Repository.objects r) →
  size (Repository.instances (Repository.run c r).2)
  = length (Repository.objects (Repository.run c r).2) ∧
  (length (Repository.objects (Repository.run c r).2)
   ≤ S (length (Repository.objects r)))%nat.
Proof.
  intros Hs.
  assert (∀ k, Repository.instances r !! k = None →
    size (Repository.instances (Repository.store k r).2)
    = length (Repository.objects (Repository.store k r).2) ∧
    (length (Repository.objects (Repository.store k r).2)
     ≤ S (length (Repository.objects r)))%nat) as Hstore.
  { intros k Hk. unfold Repository.store.
    cbn [snd Repository.instances Repository.objects].
    rewrite map_size_insert_None, length_app by done. simpl. lia. }
  assert (∀ name,
    size (Repository.instances (Repository.create_var_const name r).2)
    = length (Repository.objects (Repository.create_var_const name r).2) ∧
    (length (Repository.objects (Repository.create_var_const name r).2)
     ≤ S (length (Repository.objects r)))%nat) as Hvc.
  { intros name. unfold Repository.create_var_const.
    destruct (Repository.instances r !! Repository.var_const_key name) eqn:E.
    - cbn [snd]. split; [done | lia].
    - by apply Hstore. }
  destruct c as [operator kwargs | name]; cbn [Repository.run].
  - unfold Repository.create_expression. case_bool_decide.
    + destruct kwargs as [|[j|name|b] [|]]; cbn [snd];
        try (split; [done | lia]).
      specialize (Hvc name).
      by destruct (Repository.create_var_const name r).
    + destruct (operator_class !! operator) as [cl|]; cbn [snd];
        [|split; [done | lia]].
      destruct (Repository.instances r !! (cl, Repository.Tuple kwargs))
        eqn:E; cbn [snd]; [split; [done | lia]|].
      case_bool_decide; cbn [snd]; [|split; [done | lia]].
      by apply (Hstore (cl, Repository.Tuple kwargs)).
  - specialize (Hvc name). by destruct (Repository.create_var_const name r).
Qed.

(** X19: the table holds exactly one entry for every object ever built, and
    a call builds at most one object. *)
Theorem table_counts_objects (r : Repository.repository) (c : Repository.call) :
  Repository.reachable r →
  size (Repository.instances r) = length (Repository.objects r) ∧
  (length (Repository.objects (Repository.run c r).2)
   ≤ S (length (Repository.objects r)))%nat.
Proof.
  intros [cs ->].
  assert (size (Repository.instances
                  (Repository.run_all cs Repository.empty_repository))
          = length (Repository.objects
                      (Repository.run_all cs Repository.empty_repository))) as H.
  { unfold Repository.run_all.
    assert (size (Repository.instances Repository.empty_repository)
            = length (Repository.objects Repository.empty_repository)) as H0
      by done.
    revert H0. generalize Repository.empty_repository.
    induction cs as [|c0 cs IH]; intros r H0; [done|].
    cbn [foldl]. apply IH. by apply run_size. }
  split; [done|]. by apply run_size.
Qed.

Lemma table_counts_objects_witness :
  size (Repository.instances
          (Repository.run_all [Repository.CreateVarConst "a"]
                              Repository.empty_repository))
  = length (Repository.objects
              (Repository.run_all [Repository.CreateVarConst "a"]
                                  Repository.empty_repository)) ∧
  (length (Repository.objects
             (Repository.run (Repository.CreateVarConst "b")
                (Repository.run_all [Repository.CreateVarConst "a"]
                                    Repository.empty_repository)).2)
   ≤ S (length (Repository.objects
                  (Repository.run_all [Repository.CreateVarConst "a"]
                                      Repository.empty_repository))))%nat.
Proof.
  apply (table_counts_objects
           (Repository.run_all [Repository.CreateVarConst "a"]
                               Repository.empty_repository)
           (Repository.CreateVarConst "b")).
  by eexists.
Defined.

(* ================================================================== *)
(** * Further properties of the parser *)
(* ================================================================== *)

(** X20: [parse_prefix_op] nests a run of prefix operators from the atom
    outwards: the first operator of the run is applied last, to the result
    of the rest; a single token is returned as it is and an empty list
    fails the assertion. *)
Theorem prefix_run_right_fold (op t : token) (toks : list token) :
  parse_prefix_op (op :: toks ++ [t])
    = bind (parse_prefix_op (toks ++ [t])) (λ r, apply_operator op [r])
  ∧ parse_prefix_op [t] = Ok t
  ∧ parse_prefix_op [] = Raise AssertionError.
Proof.
  split; [|done]. unfold parse_prefix_op.
  change (op :: toks ++ [t]) with ([op] ++ (toks ++ [t])).
  rewrite rev_app_distr. rewrite (rev_app_distr toks [t]). simpl.
  by rewrite foldl_app.
Qed.

(** ** Printing and reading back *)

Lemma append_cons c (a b : string) : String c a +:+ b = String c (a +:+ b).
Proof. reflexivity. Qed.

Lemma append_nil_l (b : string) : "" +:+ b = b.
Proof. reflexivity. Qed.

Lemma append_assoc (a b c : string) : (a +:+ b) +:+ c = a +:+ (b +:+ c).
Proof.
  induction a as [|x a IH]; [done|]. rewrite !append_cons. by f_equal.
Qed.

Lemma append_nil_r (a : string) : a +:+ "" = a.
Proof. induction a as [|x a IH]; [done|]. rewrite append_cons. by f_equal. Qed.

Lemma length_append (a b : string) :
  String.length (a +:+ b) = String.length a + String.length b.
Proof.
  induction a as [|x a IH]; [done|]. rewrite append_cons. simpl. by rewrite IH.
Qed.

Lemma show_str e : ∀ rest, show e rest = __str__ e +:+ rest.
Proof.
  induction e; intros rest; simpl;
    rewrite ?IHe, ?IHe1, ?IHe2, ?append_assoc, ?append_cons, ?append_nil_l,
      ?append_assoc, ?append_cons, ?append_nil_l; try done.
Qed.

Lemma skip_pad pad s :
  every is_white pad = true → skip_whitespace (pad +:+ s) = skip_whitespace s.
Proof.
  induction pad as [|c pad IH]; [done|]. simpl every.
  intros [Hc Hp]%andb_true_iff. rewrite append_cons. simpl. rewrite Hc. auto.
Qed.

Lemma oneOf_same syms s s' :
  skip_whitespace s = skip_whitespace s' → oneOf syms s = oneOf syms s'.
Proof.
  intros H. unfold oneOf. by rewrite H.
Qed.

Lemma atom_same X s s' :
  skip_whitespace s = skip_whitespace s' → atom X s = atom X s'.
Proof.
  intros H. unfold atom, varconst, nest, setParseAction, Seq, Word, Suppress.
  cbn [MatchFirst]. by rewrite H.
Qed.

Lemma ZeroOrMore_loop_none p n s :
  p s = Raise ParseException → ZeroOrMore_loop p n s = Ok ([], s).
Proof. intros H. destruct n; cbn [ZeroOrMore_loop]; by rewrite H. Qed.

(** Leading white space does not change what the run of prefix operators and
    the atom read. *)
Lemma prefix_run_pad X n pad s :
  every is_white pad = true →
  Seq (ZeroOrMore_loop prefix_op n) (atom X) (pad +:+ s)
  = Seq (ZeroOrMore_loop prefix_op n) (atom X) s.
Proof.
  intros Hp. pose proof (skip_pad pad s Hp) as Hs.
  pose proof (oneOf_same prefix_operators _ _ Hs) as Ho.
  fold prefix_op in Ho. unfold Seq.
  destruct (prefix_op s) as [[t1 r1]|e] eqn:E.
  - destruct n; cbn [ZeroOrMore_loop]; by rewrite Ho, E.
  - assert (ZeroOrMore_loop prefix_op n (pad +:+ s)
            = match e with
              | ParseException | IndexError => Ok ([], pad +:+ s)
              | _ => Raise e
              end) as ->.
    { destruct n; cbn [ZeroOrMore_loop]; rewrite Ho; by destruct e. }
    assert (ZeroOrMore_loop prefix_op n s
            = match e with
              | ParseException | IndexError => Ok ([], s)
              | _ => Raise e
              end) as ->.
    { destruct n; cbn [ZeroOrMore_loop]; rewrite E; by destruct e. }
    destruct e; try done; by rewrite (atom_same X _ _ Hs).
Qed.

Lemma alphas_not_white c : alphas_underscore c = true → is_white c = false.
Proof.
  destruct c as [[] [] [] [] [] [] [] []]; vm_compute; congruence.
Qed.

Lemma span_name name rest :
  every alphas_underscore name = true → boundary rest →
  span alphas_underscore (name +:+ rest) = (name, rest).
Proof.
  intros Hn Hb. induction name as [|c name IH].
  - rewrite append_nil_l. destruct rest as [|c r]; [done|].
    simpl in Hb. destruct Hb as [-> | ->]; reflexivity.
  - simpl in Hn. apply andb_true_iff in Hn as [Hc Hn].
    rewrite append_cons. simpl. rewrite Hc, (IH Hn). done.
Qed.

Lemma alphas_ascii c :
  alphas_underscore c = true → (Ascii.N_of_ascii c < 128)%N.
Proof.
  destruct c as [[] [] [] [] [] [] [] []]; vm_compute; congruence.
Qed.

(** The letters outside ASCII begin with no ASCII character. *)
Lemma match_variant_ascii a c s :
  (Ascii.N_of_ascii c < 128)%N → match_variant (variants a) (String c s) = None.
Proof.
  intros Hc.
  assert (∀ b, (128 ≤ Ascii.N_of_ascii b)%N → bool_decide (c = b) = false) as Hb.
  { intros b Hb. apply bool_decide_eq_false. intros ->. lia. }
  unfold variants, dotted_I, dotless_i, long_s, kelvin.
  repeat case_bool_decide; cbn [match_variant match_exact];
    rewrite ?Hb by (vm_compute; discriminate); done.
Qed.

Lemma match_ignorecase_boundary sym : ∀ name rest,
  match_caseless sym name = None →
  every alphas_underscore name = true → boundary rest →
  occurs " " sym = false → occurs ")" sym = false →
  match_ignorecase sym (name +:+ rest) = None.
Proof.
  induction sym as [|a sym IH]; intros name rest Hm He Hb Ho1 Ho2; [done|].
  simpl in Ho1, Ho2. apply orb_false_iff in Ho1 as [Ha1 Ho1].
  apply orb_false_iff in Ho2 as [Ha2 Ho2].
  cbn [match_ignorecase]. destruct name as [|c name].
  - rewrite append_nil_l. destruct rest as [|c r]; [done|].
    cbn [match_letter]. simpl in Hb.
    destruct Hb as [-> | ->]; rewrite ?Ha1, ?Ha2;
      by rewrite match_variant_ascii by (vm_compute; reflexivity).
  - rewrite append_cons. cbn [match_letter]. simpl in Hm, He.
    apply andb_true_iff in He as [Hc He].
    destruct (bool_decide (lower_char c = lower_char a)).
    + by rewrite (IH name rest Hm He Hb Ho1 Ho2).
    + by rewrite match_variant_ascii by (by apply alphas_ascii).
Qed.

Lemma prefix_operators_no_boundary :
  Forall (λ sym, occurs " " sym = false ∧ occurs ")" sym = false)
         prefix_operators.
Proof. repeat constructor. Qed.

Lemma identifier_facts name :
  identifier name = true →
  (∃ c name', name = String c name' ∧ alphas_underscore c = true) ∧
  every alphas_underscore name = true ∧
  create_var_const name = Var name ∧
  Forall (λ sym, match_caseless sym name = None) prefix_operators.
Proof.
  unfold identifier.
  intros [[[H1 H2]%andb_true_iff H3]%andb_true_iff H4]%andb_true_iff.
  split; [|split; [done|split]].
  - destruct name as [|c name']; [done|]. exists c, name'. split; [done|].
    simpl in H2. by apply andb_true_iff in H2 as [? _].
  - unfold create_var_const. apply negb_true_iff in H3. by rewrite H3.
  - rewrite forallb_forall in H4. apply Forall_forall. intros sym Hin.
    apply list_elem_of_In, H4 in Hin. apply negb_true_iff in Hin.
    unfold masks in Hin. apply bool_decide_eq_false in Hin.
    destruct (match_caseless sym name); [|done]. exfalso. apply Hin. eauto.
Qed.

(** A variable: no prefix operator matches, and [varconst] reads the name. *)
Lemma reads_Var X name : identifier name = true → reads X (Var name).
Proof.
  intros (Hc & He & Hv & Hm)%identifier_facts n rest _ Hb.
  destruct Hc as (c & name' & -> & Hc).
  assert (skip_whitespace (String c name' +:+ rest) = String c name' +:+ rest)
    as Hs.
  { rewrite append_cons. simpl. by rewrite (alphas_not_white c Hc). }
  assert (prefix_op (String c name' +:+ rest) = Raise ParseException) as Hp.
  { apply oneOf_fails. rewrite Hs.
    pose proof prefix_operators_no_boundary as Hnb.
    rewrite Forall_forall in Hm, Hnb |- *. intros sym Hin.
    destruct (Hnb sym Hin). apply match_ignorecase_boundary; auto. }
  simpl show. unfold Seq. rewrite (ZeroOrMore_loop_none _ _ _ Hp).
  unfold atom, varconst, setParseAction, Word. cbn [MatchFirst].
  rewrite Hs, (span_name _ _ He Hb). cbn [varconst_action]. by rewrite Hv.
Qed.

(** One level of the grammar on a chain of one operand, and of two. *)
Lemma chain_single (sym_p operand : parser) s e rest :
  operand s = Ok ([TExpr e], rest) →
  sym_p rest = Raise ParseException →
  setParseAction parse_infix_op
    (Seq operand (ZeroOrMore (Seq sym_p operand))) s = Ok ([TExpr e], rest).
Proof.
  intros Ho Hs. unfold setParseAction. unfold Seq at 1. rewrite Ho.
  rewrite (ZeroOrMore_none _ rest) by (unfold Seq; by rewrite Hs).
  reflexivity.
Qed.

Lemma chain_pair (sym_p operand : parser) s l r sym rest1 rest2 rest v :
  operand s = Ok ([TExpr l], rest1) →
  (0 < String.length rest1)%nat →
  sym_p rest1 = Ok ([TStr sym], rest2) →
  operand rest2 = Ok ([TExpr r], rest) →
  sym_p rest = Raise ParseException →
  apply_operator (TStr sym) [TExpr l; TExpr r] = Ok v →
  setParseAction parse_infix_op
    (Seq operand (ZeroOrMore (Seq sym_p operand))) s = Ok ([v], rest).
Proof.
  intros Hl Hlen Hs Hr Hend Hv. unfold setParseAction. unfold Seq at 1.
  rewrite Hl. unfold ZeroOrMore.
  destruct (String.length rest1) as [|n]; [lia|]. cbn [ZeroOrMore_loop].
  unfold Seq at 1. rewrite Hs, Hr.
  rewrite ZeroOrMore_loop_none by (unfold Seq; by rewrite Hend).
  cbn [app]. unfold parse_infix_op.
  cbn [drop every_other zip zip_with foldl bind]. by rewrite Hv.
Qed.

Lemma infix_symbols_trailing rest :
  trailing rest →
  and_symbol rest = Raise ParseException
  ∧ or_symbol rest = Raise ParseException
  ∧ impl_symbol rest = Raise ParseException.
Proof.
  intros [_ H]. pose proof nonempty_symbols as Hne.
  apply Forall_app in Hne as [_ Hne]. rewrite infix_operators_eq in Hne, H.
  apply Forall_app in Hne as [Ha Hne]. apply Forall_app in Hne as [Ho Hi].
  repeat split; (apply oneOf_fails_on; [done|]);
    destruct (skip_whitespace rest) as [|c r]; try done;
    rewrite !existsb_app, !orb_false_iff in H; tauto.
Qed.

Lemma closing_trailing rest : closing rest → trailing rest.
Proof.
  destruct rest as [|c r]; [done|]. simpl. intros ->.
  split; [simpl; auto | vm_compute; reflexivity].
Qed.

Lemma closing_boundary rest : closing rest → boundary rest.
Proof. destruct rest; simpl; auto. Qed.

Lemma parse_prefix_op_step op toks t :
  parse_prefix_op (op :: toks ++ [t])
  = bind (parse_prefix_op (toks ++ [t])) (λ r, apply_operator op [r]).
Proof.
  unfold parse_prefix_op.
  change (op :: toks ++ [t]) with ([op] ++ (toks ++ [t])).
  rewrite rev_app_distr. rewrite (rev_app_distr toks [t]). simpl.
  by rewrite foldl_app.
Qed.

(** The parse action of [prefix_expr] rebuilds the tree from the operators it
    starts with and its atom. *)
Lemma parse_prefix_op_leading e :
  parse_prefix_op (leading_ops e ++ [TExpr (atom_of e)]) = Ok (TExpr e).
Proof.
  induction e as [l _ r _|l _ r _|l _ r _|e IH|e _|e IH|name|value];
    cbn [leading_ops atom_of];
    try (rewrite <- app_comm_cons, parse_prefix_op_step, IH);
    vm_compute; reflexivity.
Qed.

Lemma leading_ops_length e rest :
  (length (leading_ops e) ≤ String.length (show e rest))%nat.
Proof.
  revert rest.
  induction e as [l _ r _|l _ r _|l _ r _|e IH|e _|e IH|name|value];
    intros rest; cbn [leading_ops show length]; try lia.
  - rewrite length_append. specialize (IH rest). simpl. lia.
  - rewrite length_append. simpl. lia.
  - rewrite length_append. specialize (IH rest). simpl. lia.
Qed.

(** [prefix_expr] reads a printed tree back, up to a boundary. *)
Lemma prefix_expr_show X e pad rest :
  reads X e → every is_white pad = true → boundary rest →
  prefix_expr X (pad +:+ show e rest) = Ok ([TExpr e], rest).
Proof.
  intros Hr Hp Hb. unfold prefix_expr, setParseAction.
  assert (Seq (ZeroOrMore prefix_op) (atom X) (pad +:+ show e rest)
          = Ok (leading_ops e ++ [TExpr (atom_of e)], rest)) as ->.
  { transitivity
      (Seq (ZeroOrMore_loop prefix_op (String.length (pad +:+ show e rest)))
           (atom X) (pad +:+ show e rest)); [reflexivity|].
    rewrite prefix_run_pad by done. apply Hr; [|done].
    rewrite length_append. pose proof (leading_ops_length e rest). lia. }
  by rewrite parse_prefix_op_leading.
Qed.

(** [expression] reads a printed tree back, up to the end of the text or a
    closing parenthesis. *)
Lemma expression_body_show X e pad rest :
  reads X e → every is_white pad = true → trailing rest →
  expression_body X (pad +:+ show e rest) = Ok ([TExpr e], rest).
Proof.
  intros Hr Hp Hc. destruct (infix_symbols_trailing rest Hc) as (Ha & Ho & Hi).
  unfold expression_body. apply chain_single; [|done].
  unfold or_expr. apply chain_single; [|done].
  unfold and_expr. apply chain_single; [|done].
  apply prefix_expr_show; [done | done | apply Hc].
Qed.

Lemma blank_boundary rest : boundary (String " " rest).
Proof. simpl. auto. Qed.

Lemma paren_closing rest : closing (String ")" rest).
Proof. reflexivity. Qed.

(** The text between the parentheses of a printed conjunction, disjunction
    and implication. *)
Lemma expression_body_And X l r rest :
  reads X l → reads X r →
  expression_body X (show l (" ∧ " +:+ show r (")" +:+ rest)))
  = Ok ([TExpr (And l r)], ")" +:+ rest).
Proof.
  intros Hl Hr.
  destruct (infix_symbols_trailing _ (closing_trailing _ (paren_closing rest)))
    as (Ha & Ho & Hi).
  unfold expression_body. apply chain_single; [|done].
  unfold or_expr. apply chain_single; [|done].
  unfold and_expr.
  apply (chain_pair _ _ _ l r "∧" (" ∧ " +:+ show r (")" +:+ rest))
           (" " +:+ show r (")" +:+ rest))).
  - apply (prefix_expr_show X l ""); [done|done|apply blank_boundary].
  - rewrite length_append. simpl. lia.
  - vm_compute. reflexivity.
  - apply (prefix_expr_show X r " "); [done|done|].
    apply closing_boundary, paren_closing.
  - done.
  - vm_compute. reflexivity.
Qed.

Lemma expression_body_Or X l r rest :
  reads X l → reads X r →
  expression_body X (show l (" ∨ " +:+ show r (")" +:+ rest)))
  = Ok ([TExpr (Or l r)], ")" +:+ rest).
Proof.
  intros Hl Hr.
  destruct (infix_symbols_trailing _ (closing_trailing _ (paren_closing rest)))
    as (Ha & Ho & Hi).
  unfold expression_body. apply chain_single; [|done].
  unfold or_expr.
  apply (chain_pair _ _ _ l r "∨" (" ∨ " +:+ show r (")" +:+ rest))
           (" " +:+ show r (")" +:+ rest))).
  - unfold and_expr. apply chain_single; [|vm_compute; reflexivity].
    apply (prefix_expr_show X l ""); [done|done|apply blank_boundary].
  - rewrite length_append. simpl. lia.
  - vm_compute. reflexivity.
  - unfold and_expr. apply chain_single; [|done].
    apply (prefix_expr_show X r " "); [done|done|].
    apply closing_boundary, paren_closing.
  - done.
  - vm_compute. reflexivity.
Qed.

Lemma expression_body_Implies X l r rest :
  reads X l → reads X r →
  expression_body X (show l (" → " +:+ show r (")" +:+ rest)))
  = Ok ([TExpr (Implies l r)], ")" +:+ rest).
Proof.
  intros Hl Hr.
  destruct (infix_symbols_trailing _ (closing_trailing _ (paren_closing rest)))
    as (Ha & Ho & Hi).
  unfold expression_body.
  apply (chain_pair _ _ _ l r "→" (" → " +:+ show r (")" +:+ rest))
           (" " +:+ show r (")" +:+ rest))).
  - unfold or_expr. apply chain_single; [|vm_compute; reflexivity].
    unfold and_expr. apply chain_single; [|vm_compute; reflexivity].
    apply (prefix_expr_show X l ""); [done|done|apply blank_boundary].
  - rewrite length_append. simpl. lia.
  - vm_compute. reflexivity.
  - unfold or_expr. apply chain_single; [|done].
    unfold and_expr. apply chain_single; [|done].
    apply (prefix_expr_show X r " "); [done|done|].
    apply closing_boundary, paren_closing.
  - done.
  - vm_compute. reflexivity.
Qed.

(** A parenthesis: no prefix operator and no name starts with it, so [nest]
    reads it, with [X] for what stands between the parentheses. *)
Lemma prefix_run_nest X n e inner rest :
  X inner = Ok ([TExpr e], ")" +:+ rest) →
  Seq (ZeroOrMore_loop prefix_op n) (atom X) ("(" +:+ inner)
  = Ok ([TExpr e], rest).
Proof.
  intros HX. unfold Seq.
  rewrite ZeroOrMore_loop_none by (vm_compute; reflexivity).
  unfold atom. cbn [MatchFirst].
  assert (varconst ("(" +:+ inner) = Raise ParseException) as ->
    by (vm_compute; reflexivity).
  unfold nest, Seq.
  assert (Suppress "(" ("(" +:+ inner) = Ok ([], inner)) as -> by reflexivity.
  rewrite HX.
  assert (Suppress ")" (")" +:+ rest) = Ok ([], rest)) as -> by reflexivity.
  reflexivity.
Qed.

Lemma prefix_run_step X n sym text s toks rest :
  prefix_op text = Ok ([TStr sym], s) →
  Seq (ZeroOrMore_loop prefix_op n) (atom X) s = Ok (toks, rest) →
  Seq (ZeroOrMore_loop prefix_op (S n)) (atom X) text
  = Ok (TStr sym :: toks, rest).
Proof.
  intros Hp. unfold Seq. cbn [ZeroOrMore_loop]. rewrite Hp.
  destruct (ZeroOrMore_loop prefix_op n s) as [[t2 r2]|]; [|done].
  destruct (atom X r2) as [[t3 r3]|]; [|done]. by intros [= <- <-].
Qed.

(** With enough rounds of [Forward] for its parentheses, every printable
    tree is read. *)
Lemma reads_all e :
  printable e = true → ∀ F, (nesting e ≤ F)%nat → reads (expression F) e.
Proof.
  induction e as [l IHl r IHr|l IHl r IHr|l IHl r IHr|e IH|e IH|e IH|name|value];
    cbn [printable nesting]; intros Hp F HF.
  - apply andb_true_iff in Hp as [Hpl Hpr]. destruct F as [|F']; [lia|].
    intros n rest _ Hb. cbn [show leading_ops atom_of app].
    apply prefix_run_nest.
    change (expression (S F')) with (expression_body (expression F')).
    apply expression_body_And; [apply IHl|apply IHr]; auto; lia.
  - apply andb_true_iff in Hp as [Hpl Hpr]. destruct F as [|F']; [lia|].
    intros n rest _ Hb. cbn [show leading_ops atom_of app].
    apply prefix_run_nest.
    change (expression (S F')) with (expression_body (expression F')).
    apply expression_body_Or; [apply IHl|apply IHr]; auto; lia.
  - apply andb_true_iff in Hp as [Hpl Hpr]. destruct F as [|F']; [lia|].
    intros n rest _ Hb. cbn [show leading_ops atom_of app].
    apply prefix_run_nest.
    change (expression (S F')) with (expression_body (expression F')).
    apply expression_body_Implies; [apply IHl|apply IHr]; auto; lia.
  - intros n rest Hn Hb. cbn [show leading_ops atom_of length] in *.
    destruct n as [|n']; [lia|]. rewrite <- app_comm_cons.
    apply (prefix_run_step _ _ _ _ (show e rest)); [vm_compute; reflexivity|].
    apply (IH Hp F HF); [lia|done].
  - intros n rest Hn Hb. cbn [show leading_ops atom_of length] in *.
    destruct n as [|n']; [lia|]. destruct F as [|F']; [lia|].
    apply (prefix_run_step _ _ _ _ ("(" +:+ show e (")" +:+ rest)));
      [vm_compute; reflexivity|].
    apply prefix_run_nest.
    change (expression (S F')) with (expression_body (expression F')).
    apply (expression_body_show _ e "");
      [|done|apply closing_trailing, paren_closing].
    apply IH; [done|lia].
  - intros n rest Hn Hb. cbn [show leading_ops atom_of length] in *.
    destruct n as [|n']; [lia|]. rewrite <- app_comm_cons.
    apply (prefix_run_step _ _ _ _ (show e rest)); [vm_compute; reflexivity|].
    apply (IH Hp F HF); [lia|done].
  - by apply reads_Var.
  - done.
Qed.

Lemma nesting_length e : ∀ rest,
  (nesting e + String.length rest ≤ String.length (show e rest))%nat.
Proof.
  induction e as [l IHl r IHr|l IHl r IHr|l IHl r IHr|e IH|e IH|e IH|name|value];
    intros rest; cbn [nesting show].
  - rewrite length_append.
    pose proof (IHl (" ∧ " +:+ show r (")" +:+ rest))) as H1.
    pose proof (IHr (")" +:+ rest)) as H2.
    rewrite !length_append in H1. rewrite length_append in H2. simpl in *. lia.
  - rewrite length_append.
    pose proof (IHl (" ∨ " +:+ show r (")" +:+ rest))) as H1.
    pose proof (IHr (")" +:+ rest)) as H2.
    rewrite !length_append in H1. rewrite length_append in H2. simpl in *. lia.
  - rewrite length_append.
    pose proof (IHl (" → " +:+ show r (")" +:+ rest))) as H1.
    pose proof (IHr (")" +:+ rest)) as H2.
    rewrite !length_append in H1. rewrite length_append in H2. simpl in *. lia.
  - rewrite length_append. specialize (IH rest). lia.
  - rewrite length_append. specialize (IH (")" +:+ rest)).
    rewrite length_append in IH. simpl in *. lia.
  - rewrite length_append. specialize (IH rest). lia.
  - rewrite length_append. lia.
  - rewrite length_append. lia.
Qed.

(** X21: a tree without constants whose variables are named by identifiers
    (letters and underscores, no boolean literal, no prefix operator at the
    start) is read back from its printed form: [parse(str(e))] is [e]. *)
Theorem parse_str_round_trip (e : LogicExpression) :
  printable e = true → parse (__str__ e) = Ok (TExpr e).
Proof.
  intros Hp. unfold parse, bnf.
  assert (expression (S (String.length (__str__ e))) (__str__ e)
          = Ok ([TExpr e], "")) as ->; [|done].
  change (expression (S (String.length (__str__ e))))
    with (expression_body (expression (String.length (__str__ e)))).
  pose proof (nesting_length e "") as Hn.
  rewrite show_str, append_nil_r in Hn. simpl in Hn.
  assert (nesting e ≤ String.length (__str__ e))%nat as HF by lia.
  pose proof (expression_body_show _ e "" ""
                (reads_all e Hp _ HF) eq_refl (closing_trailing "" I)) as H.
  by rewrite append_nil_l, show_str, append_nil_r in H.
Qed.

Lemma parse_str_round_trip_witness :
  let e := Implies (Box (Var "p")) (Not (Diamond (Or (Var "q") (Var "p_")))) in
  printable e = true ∧ parse (__str__ e) = Ok (TExpr e).
Proof.
  split; [vm_compute; reflexivity|].
  apply parse_str_round_trip. vm_compute. reflexivity.
Defined.

(** The conditions on the names and on constants are needed: a name that
    begins with a prefix operator is read as that operator, a name that is a
    boolean literal as the constant, and the printed constants are no
    words of the grammar. *)
Example printed_forms_not_read_back :
  parse (__str__ (Var "nothing")) = Ok (TExpr (Not (Var "hing")))
  ∧ parse (__str__ (Var "true")) = Ok (TExpr (Constant true))
  ∧ parse (__str__ (Constant true)) = Raise ParseException.
Proof. repeat split; vm_compute; reflexivity. Qed.

(* ================================================================== *)
(** * The tree drawer *)
(* ================================================================== *)

Lemma put_children_spec a cs : ∀ gen links todo,
  put_children (label a) cs (gen, edge_lines links, queued todo)
  = (gen + length cs,
     edge_lines (links ++ ((λ i, (a, i)) <$> seq gen (length cs))),
     queued (todo ++ zip cs (seq gen (length cs)))).
Proof.
  unfold put_children.
  induction cs as [|c cs IH]; intros gen links todo.
  - cbn [foldl length seq fmap list_fmap zip zip_with].
    by rewrite Nat.add_0_r, !app_nil_r.
  - cbn [foldl length seq fmap list_fmap zip zip_with].
    change (edge_lines links ++ [edge_line (label a) (label gen)])
      with (edge_lines links ++ edge_lines [(a, gen)]).
    change (queued todo ++ [(c, label gen)])
      with (queued todo ++ queued [(c, gen)]).
    unfold edge_lines, queued. rewrite <- !fmap_app.
    fold (edge_lines (links ++ [(a, gen)])). fold (queued (todo ++ [(c, gen)])).
    rewrite IH. rewrite <- !app_assoc. cbn [app].
    by rewrite Nat.add_succ_r.
Qed.

Lemma subtrees_children e :
  subtrees e = e :: concat (subtrees <$> children e).
Proof. destruct e; cbn; by rewrite ?app_nil_r. Qed.

Lemma subtrees_total (l : list LogicExpression) :
  (length l ≤ length (concat (subtrees <$> l)))%nat.
Proof.
  induction l as [|e l IH]; cbn [fmap list_fmap concat length]; [lia|].
  rewrite length_app, (subtrees_children e). cbn [length]. lia.
Qed.

(** The loop from any state whose queue holds consecutive labels, the next
    free one being [gen]: it ends, and what it adds is described by numbered
    nodes and edges. *)
Lemma to_graph_loop_spec fuel : ∀ first visited links todo,
  (length (concat (subtrees <$> todo.*1)) ≤ fuel)%nat →
  todo.*2 = seq first (length todo) →
  let total := length (concat (subtrees <$> todo.*1)) in
  ∃ visited' links',
    to_graph_loop fuel (first + length todo) (node_lines visited)
                  (edge_lines links) (queued todo)
    = Ok (node_lines (visited ++ visited'), edge_lines (links ++ links'),
          first + total)
    ∧ visited'.*2 = seq first total
    ∧ visited'.*1 ≡ₚ concat (subtrees <$> todo.*1)
    ∧ links'.*2 = seq (first + length todo) (total - length todo)
    ∧ todo ⊆ visited'
    ∧ Forall (λ l, ∃ parent child,
                (parent, l.1) ∈ visited' ∧ (child, l.2) ∈ visited'
                ∧ child ∈ children parent) links'.
Proof.
  induction fuel as [|fuel IH]; intros first visited links todo Hfuel Hlab total.
  - destruct todo as [|[s a] todo].
    + exists [], []. subst total. cbn. rewrite !app_nil_r, !Nat.add_0_r.
      repeat split; try done; constructor.
    + exfalso. cbn [fmap list_fmap fst concat] in Hfuel.
      rewrite (subtrees_children s) in Hfuel. cbn [app length] in Hfuel. lia.
  - destruct todo as [|[s a] todo].
    + exists [], []. subst total. cbn. rewrite !app_nil_r, !Nat.add_0_r.
      repeat split; try done; constructor.
    + cbn [fmap list_fmap length seq snd] in Hlab.
      injection Hlab as -> Hlab.
      set (cs := children s). set (k := length cs).
      set (todo' := todo ++ zip cs (seq (S first + length todo) k)).
      assert (length (zip cs (seq (S first + length todo) k)) = k) as Hzl.
      { rewrite length_zip_with, length_seq. lia. }
      assert (todo'.*1 = todo.*1 ++ cs) as H1.
      { unfold todo'. rewrite fmap_app. f_equal.
        apply fst_zip. rewrite length_seq. lia. }
      assert (todo'.*2 = seq (S first) (length todo')) as H2.
      { unfold todo'. rewrite fmap_app, length_app, Hzl, seq_app, Hlab.
        f_equal. rewrite snd_zip by (rewrite length_seq; lia). done. }
      assert (total = S (length (concat (subtrees <$> todo'.*1)))) as Htot.
      { unfold total. cbn [fmap list_fmap fst concat].
        rewrite H1, fmap_app, concat_app, !length_app.
        rewrite (subtrees_children s). cbn [length]. fold cs. lia. }
      destruct (IH (S first) (visited ++ [(s, first)])
                  (links ++ ((λ i, (first, i)) <$> seq (S first + length todo) k))
                  todo') as (vis' & lnk' & Hrun & Hv2 & Hv1 & Hl2 & Hsub & Hedges).
      { lia. }
      { exact H2. }
      exists ((s, first) :: vis'),
             (((λ i, (first, i)) <$> seq (S first + length todo) k) ++ lnk').
      split; [|split; [|split; [|split; [|split]]]].
      * cbn [to_graph_loop queued fmap list_fmap fst snd length].
        change (list_fmap _ _ (λ v, (v.1, label v.2)) todo) with (queued todo).
        replace (first + S (length todo)) with (S first + length todo) by lia.
        rewrite put_children_spec. fold cs k todo'.
        change (node_lines visited ++ [node_line s (label first)])
          with (node_lines visited ++ node_lines [(s, first)]).
        unfold node_lines at 1 2. rewrite <- fmap_app.
        fold (node_lines (visited ++ [(s, first)])).
        replace (S first + length todo + k) with (S first + length todo')
          by (unfold todo'; rewrite length_app, Hzl; lia).
        rewrite Hrun. rewrite <- !app_assoc. cbn [app].
        do 2 f_equal. lia.
      * cbn [fmap list_fmap snd]. rewrite Hv2, Htot. reflexivity.
      * cbn [fmap list_fmap fst concat]. rewrite (subtrees_children s).
        cbn [app]. constructor. rewrite Hv1, H1, fmap_app, concat_app.
        fold cs. apply Permutation_app_comm.
      * rewrite fmap_app, Hl2, <- list_fmap_compose.
        rewrite (list_fmap_ext _ id (seq (S first + length todo) k))
          by (by intros).
        rewrite list_fmap_id.
        replace (first + length ((s, first) :: todo))
          with (S first + length todo) by (cbn [length]; lia).
        replace (S first + length todo') with (S first + length todo + k)
          by (unfold todo'; rewrite length_app, Hzl; lia).
        rewrite <- seq_app. f_equal.
        assert (length todo' = length todo + k)
          by (unfold todo'; rewrite length_app, Hzl; lia).
        pose proof (subtrees_total (todo'.*1)) as Hge.
        rewrite length_fmap in Hge. cbn [length]. lia.
      * intros x Hx. apply elem_of_cons in Hx as [->|Hx]; [left|].
        right. apply Hsub. unfold todo'. apply elem_of_app. by left.
      * apply Forall_app. split.
        -- apply Forall_fmap, Forall_forall. intros i Hi. cbn.
           assert (∃ c, (c, i) ∈ zip cs (seq (S first + length todo) k))
             as [c Hc].
           { apply list_elem_of_lookup in Hi as [j Hj].
             destruct (lookup_lt_is_Some_2 cs j) as [c Hcj].
             { apply lookup_lt_Some in Hj. rewrite length_seq in Hj.
               exact Hj. }
             exists c. apply list_elem_of_lookup. exists j.
             apply lookup_zip_with_Some. eauto. }
           exists s, c. split; [left|split].
           ++ right. apply Hsub. unfold todo'. apply elem_of_app. by right.
           ++ apply elem_of_zip_l in Hc. exact Hc.
        -- eapply Forall_impl; [exact Hedges|].
           intros l (p & c & Hp & Hc & Hch). exists p, c.
           repeat split; try done; by right.
Qed.

Lemma label_inj : Inj (=) (=) label.
Proof.
  intros i j H. unfold label in H. rewrite !append_cons, !append_nil_l in H.
  injection H as H. by apply (inj pretty).
Qed.

(** X22: [to_graph] ends on every tree. It draws one node for every
    occurrence of a sub-expression, numbered by the labels the generator
    yields next, which are pairwise distinct; every node but the first has
    one edge coming in, and every edge leads from a node to one of its
    children. The generator has then moved on by the number of nodes. *)
Theorem to_graph_draws_tree (expr : LogicExpression) (gen : nat) :
  let total := length (subtrees expr) in
  ∃ visited links,
    to_graph expr gen
    = Ok (tree (join newline (node_lines visited))
               (join newline (edge_lines links)), gen + total)
    ∧ visited.*2 = seq gen total
    ∧ NoDup (label <$> visited.*2)
    ∧ visited.*1 ≡ₚ subtrees expr
    ∧ links.*2 = seq (S gen) (total - 1)
    ∧ Forall (λ l, ∃ parent child,
                (parent, l.1) ∈ visited ∧ (child, l.2) ∈ visited
                ∧ child ∈ children parent) links.
Proof.
  intros total.
  destruct (to_graph_loop_spec total gen [] [] [(expr, gen)])
    as (visited & links & Hrun & Hv2 & Hv1 & Hl2 & _ & Hedges).
  { cbn [fmap list_fmap fst concat]. rewrite app_nil_r. done. }
  { done. }
  cbn [fmap list_fmap fst concat length] in Hrun, Hv2, Hv1, Hl2.
  rewrite app_nil_r in Hrun, Hv2, Hv1, Hl2.
  exists visited, links. split; [|split; [|split; [|split; [|split]]]].
  - unfold to_graph. fold total.
    replace (gen + 1) with (S gen) in Hrun by lia.
    change (node_lines []) with (@nil string) in Hrun.
    change (edge_lines []) with (@nil string) in Hrun.
    change (queued [(expr, gen)]) with [(expr, label gen)] in Hrun.
    rewrite Hrun. reflexivity.
  - exact Hv2.
  - rewrite Hv2. apply (NoDup_fmap_2 _), NoDup_seq.
  - exact Hv1.
  - rewrite Hl2. f_equal. lia.
  - exact Hedges.
Qed.

(* ================================================================== *)
(** * Parsing: malformed texts *)
(* ================================================================== *)

(** A printed tree is read back whatever text follows it, as long as that
    text cannot go on the expression. *)
Lemma parse_str_trailing e rest :
  printable e = true → trailing rest →
  parse (__str__ e +:+ rest) = Ok (TExpr e).
Proof.
  intros Hp Ht. unfold parse, bnf. rewrite <- show_str.
  assert (expression (S (String.length (show e rest))) (show e rest)
          = Ok ([TExpr e], rest)) as ->; [|done].
  change (expression (S (String.length (show e rest))))
    with (expression_body (expression (String.length (show e rest)))).
  pose proof (nesting_length e rest) as Hn.
  assert (nesting e ≤ String.length (show e rest))%nat as HF by lia.
  pose proof (expression_body_show _ e "" rest
                (reads_all e Hp _ HF) eq_refl Ht) as H.
  by rewrite append_nil_l in H.
Qed.



